(** * voidos: the PIO IDE driver (src/drivers/ide.c)

    A shallow embedding of the driver in a state-and-error monad, and the
    properties of its queued filesystem path (iderw / idestart / ideintr)
    and of its raw swap path (read_swap / write_swap).

    Conventions.
    - C integers are [Z]; [uint32] and [sint32] write the 32-bit wrap-around
      out where the source can overflow, [Z.land], [Z.lor], [Z.lnot],
      [Z.shiftl] and [Z.shiftr] are the bit operations (on two's complement
      values they agree with the machine's, so flag words need no wrap).
    - [struct buf] objects live in a typed heap [bufs : gmap addr buf];
      a [struct buf *] is a [ptr] ([None] is the null pointer).  Raw memory
      ([void *dst], and the block image [b->data]) is the byte-addressed
      [ram]; the field [data] of a [buf] is the address of its byte array.
    - The controller is an input oracle [hw_in]: the value returned by the
      n-th port read.  Every port access, every sleep/wakeup and every call
      of idestart is appended to [trace] in program order.
    - panic() never returns: it is the outcome [Panic msg].  A busy-wait
      that is followed for [spin] polls without the busy bit clearing, and a
      walk of a cyclic queue, are the outcome [Spin].  Dereferencing a
      pointer that is not in the heap is [Fault].
    - iderw blocks in sleep(), and while it sleeps other threads and the
      interrupt handler run.  It is cut at its scheduling points:
      [iderw_begin] runs from the entry to the first sleep (or the return),
      [iderw_resume] from a wakeup to the next sleep (or the return).  All
      driver code but the entry checks of iderw runs with idelock held, so
      these pieces, [ideintr] and the swap calls are the atomic steps of
      the system ([step], [run]).  The entry checks of iderw come before
      its acquire: [iderw_check] and [iderw_enter] are [iderw_begin] cut
      there.  For a request that is not on the queue no operation between
      the two changes what the checks read, so that [iderw_begin] is what
      such a call does; a request that is on the queue already is what
      [fresh] rules out. *)

From Stdlib Require Import ZArith Lia Bool List.
From stdpp Require Import gmap list strings.

Local Open Scope Z_scope.

(** ** Protocol constants (ide.c, lines 15-46) *)

Definition ATA_DATA    : Z := 0x00.
Definition ATA_CTRL    : Z := 0x02.
Definition ATA_SECCNT  : Z := 0x02.
Definition ATA_SECTOR  : Z := 0x03.
Definition ATA_CYL_LO  : Z := 0x04.
Definition ATA_CYL_HI  : Z := 0x05.
Definition ATA_SDH     : Z := 0x06.
Definition ATA_COMMAND : Z := 0x07.
Definition ATA_STATUS  : Z := 0x07.

Definition ATA_SR_BSY : Z := 0x80.
Definition ATA_SR_DF  : Z := 0x20.
Definition ATA_SR_ERR : Z := 0x01.

Definition ATA_CMD_READ  : Z := 0x20.
Definition ATA_CMD_WRITE : Z := 0x30.

Definition IO_BASE0 : Z := 0x1F0.
Definition IO_BASE1 : Z := 0x170.
Definition IO_CTRL0 : Z := 0x3F4.
Definition IO_CTRL1 : Z := 0x374.

Definition FS_DEVNO   : Z := 1.
Definition SWAP_DEVNO : Z := 2.
Definition SECTSIZE   : Z := 512.

(** ** Machine integers *)

Definition uint32 (x : Z) : Z := x mod 2 ^ 32.

Definition sint32 (x : Z) : Z :=
  let y := x mod 2 ^ 32 in if y <? 2 ^ 31 then y else y - 2 ^ 32.

Definition uint8 (x : Z) : Z := x mod 256.

(** ** Data model *)

Definition addr := nat.
Definition ptr := option addr.

(** struct buf (buf.h): the fields the driver uses. *)
Record buf := mkbuf {
  flags   : Z;    (* int  flags   *)
  dev     : Z;    (* uint dev     *)
  blockno : Z;    (* uint blockno *)
  qnext   : ptr;  (* struct buf *qnext *)
  data    : Z     (* uchar data[BSIZE]: address of the array in [ram] *)
}.

Definition set_flags (f : Z) (b : buf) : buf :=
  mkbuf f (dev b) (blockno b) (qnext b) (data b).

Definition set_qnext (q : ptr) (b : buf) : buf :=
  mkbuf (flags b) (dev b) (blockno b) q (data b).

(** What the outside world can observe, in program order. *)
Inductive event :=
| EvInb (port v : Z)               (* inb(port) returned v *)
| EvOutb (port v : Z)              (* outb(port, v) *)
| EvInsl (port : Z) (ws : list Z)  (* insl(port, _, |ws|) read the dwords ws *)
| EvOutsl (port : Z) (ws : list Z) (* outsl(port, _, |ws|) wrote the dwords ws *)
| EvSleep (chan : addr)            (* sleep(chan, &idelock) *)
| EvWakeup (chan : addr)           (* wakeup(chan) *)
| EvStart (b : ptr).               (* idestart(b) was entered *)

Record state := mkstate {
  idelock   : bool;              (* static struct spinlock idelock: held? *)
  idequeue  : ptr;               (* static struct buf *idequeue *)
  havedisk1 : Z;                 (* static int havedisk1 *)
  havedisk2 : Z;                 (* static int havedisk2 *)
  bufs      : gmap nat buf;      (* the struct buf objects *)
  ram       : Z -> Z;            (* raw memory, one byte per address *)
  hw_in     : nat -> Z -> Z;     (* n-th port read, port |-> value *)
  clock     : nat;               (* number of port reads so far *)
  trace     : list event
}.

Definition with_lock (l : bool) (s : state) : state :=
  mkstate l (idequeue s) (havedisk1 s) (havedisk2 s) (bufs s) (ram s)
          (hw_in s) (clock s) (trace s).

Definition with_queue (q : ptr) (s : state) : state :=
  mkstate (idelock s) q (havedisk1 s) (havedisk2 s) (bufs s) (ram s)
          (hw_in s) (clock s) (trace s).

Definition with_havedisk1 (v : Z) (s : state) : state :=
  mkstate (idelock s) (idequeue s) v (havedisk2 s) (bufs s) (ram s)
          (hw_in s) (clock s) (trace s).

Definition with_havedisk2 (v : Z) (s : state) : state :=
  mkstate (idelock s) (idequeue s) (havedisk1 s) v (bufs s) (ram s)
          (hw_in s) (clock s) (trace s).

Definition with_bufs (m : gmap nat buf) (s : state) : state :=
  mkstate (idelock s) (idequeue s) (havedisk1 s) (havedisk2 s) m (ram s)
          (hw_in s) (clock s) (trace s).

Definition tick (s : state) : state :=
  mkstate (idelock s) (idequeue s) (havedisk1 s) (havedisk2 s) (bufs s) (ram s)
          (hw_in s) (S (clock s)) (trace s).

Definition emit (e : event) (s : state) : state :=
  mkstate (idelock s) (idequeue s) (havedisk1 s) (havedisk2 s) (bufs s) (ram s)
          (hw_in s) (clock s) (trace s ++ [e]).

(** ** The monad: state passing with the three ways of not returning *)

Inductive result (A : Type) :=
| Ok (a : A)
| Panic (msg : string)
| Spin
| Fault.

Arguments Ok {A} a.
Arguments Panic {A} msg.
Arguments Spin {A}.
Arguments Fault {A}.

Definition M (A : Type) : Type := state -> result A * state.

Definition ret {A} (a : A) : M A := fun s => (Ok a, s).

Definition bind {A B} (m : M A) (k : A -> M B) : M B :=
  fun s =>
    match m s with
    | (Ok a, s') => k a s'
    | (Panic msg, s') => (Panic msg, s')
    | (Spin, s') => (Spin, s')
    | (Fault, s') => (Fault, s')
    end.

Notation "'let*' x ':=' m 'in' k" := (bind m (fun x => k))
  (at level 10, x name, m at level 100, k at level 200).

Definition panic {A} (msg : string) : M A := fun s => (Panic msg, s).
Definition spinning {A} : M A := fun s => (Spin, s).

Definition gets {A} (f : state -> A) : M A := fun s => (Ok (f s), s).
Definition modify (f : state -> state) : M unit := fun s => (Ok tt, f s).

(** Reading and writing a [struct buf] through a pointer. *)
Definition getbuf (a : addr) : M buf :=
  fun s => match bufs s !! a with
           | Some b => (Ok b, s)
           | None => (Fault, s)
           end.

Definition putbuf (a : addr) (b : buf) : M unit :=
  modify (fun s => with_bufs (<[a := b]> (bufs s)) s).

(** An assignment to one field of a buf, as in [b->qnext = 0] or
    [b->flags |= B_VALID]: read the object, write it back changed. *)
Definition update_buf (a : addr) (g : buf -> buf) : M unit :=
  let* bf := getbuf a in putbuf a (g bf).

(** ** Port and memory primitives (x86.h) *)

Definition inb (port : Z) : M Z :=
  fun s =>
    let v := uint8 (hw_in s (clock s) port) in
    (Ok v, emit (EvInb port v) (tick s)).

Definition outb (port v : Z) : M unit :=
  modify (emit (EvOutb port (uint8 v))).

(** Memory is little-endian: a dword at [a] is the four bytes at [a],
    [a+1], [a+2], [a+3], least significant first. *)
Definition store32 (r : Z -> Z) (a w : Z) : Z -> Z :=
  fun x =>
    if x =? a then w mod 256
    else if x =? a + 1 then (w / 2 ^ 8) mod 256
    else if x =? a + 2 then (w / 2 ^ 16) mod 256
    else if x =? a + 3 then (w / 2 ^ 24) mod 256
    else r x.

Definition load32 (r : Z -> Z) (a : Z) : Z :=
  uint8 (r a) + 2 ^ 8 * uint8 (r (a + 1)) + 2 ^ 16 * uint8 (r (a + 2))
  + 2 ^ 24 * uint8 (r (a + 3)).

(** The [cnt] dwords that [cnt] successive reads of [port] deliver,
    starting at read number [t]. *)
Fixpoint port_dwords (h : nat -> Z -> Z) (t : nat) (port : Z) (cnt : nat) : list Z :=
  match cnt with
  | O => []
  | S n => uint32 (h t port) :: port_dwords h (S t) port n
  end.

Fixpoint store_dwords (r : Z -> Z) (a : Z) (ws : list Z) : Z -> Z :=
  match ws with
  | [] => r
  | w :: ws' => store_dwords (store32 r a w) (a + 4) ws'
  end.

Fixpoint load_dwords (r : Z -> Z) (a : Z) (cnt : nat) : list Z :=
  match cnt with
  | O => []
  | S n => load32 r a :: load_dwords r (a + 4) n
  end.

(** insl(port, dst, cnt): cnt dwords from the port into memory at dst. *)
Definition insl (port dst cnt : Z) : M unit :=
  fun s =>
    let n := Z.to_nat cnt in
    let ws := port_dwords (hw_in s) (clock s) port n in
    (Ok tt,
     mkstate (idelock s) (idequeue s) (havedisk1 s) (havedisk2 s) (bufs s)
             (store_dwords (ram s) dst ws) (hw_in s) (clock s + n)%nat
             (trace s ++ [EvInsl port ws])).

(** outsl(port, src, cnt): cnt dwords from memory at src to the port. *)
Definition outsl (port src cnt : Z) : M unit :=
  fun s => (Ok tt, emit (EvOutsl port (load_dwords (ram s) src (Z.to_nat cnt))) s).

(** ** Lock and scheduler primitives (spinlock.h, proc.h)

    Every segment of driver code between two scheduling points runs with
    idelock held, so segments are atomic with respect to each other.
    Acquiring a held lock would wait for its holder: [Spin]. *)

Definition acquire : M unit :=
  fun s => if idelock s then (Spin, s) else (Ok tt, with_lock true s).

Definition release : M unit := modify (with_lock false).

(** sleep(chan, &idelock) up to the point where the thread is parked: the
    lock is given up.  The thread continues at [iderw_resume]. *)
Definition sleep (chan : addr) : M unit :=
  let* _ := modify (emit (EvSleep chan)) in release.

Definition wakeup (chan : addr) : M unit := modify (emit (EvWakeup chan)).

(** ** Sample machines

    The constants as xv6 has them, a controller that is always ready
    ([0x40]: drive ready, not busy), one whose status shows an error from
    the [k]-th port read on, and a few bufs. *)

Definition fssize : Z := 1000.
Definition bsize : Z := 512.
Definition b_busy : Z := 1.
Definition b_valid : Z := 2.
Definition b_dirty : Z := 4.
Definition polls : nat := 4.

Definition ready_hw : nat -> Z -> Z := fun _ _ => 0x40.

Definition failing_hw (k : nat) : nat -> Z -> Z :=
  fun t _ => if (t <? k)%nat then 0x40 else 0x41.

(** A controller with nothing attached (every status reads 0), one that
    is busy for its first [k] port reads and then shows the status [v],
    and one that stays busy. *)
Definition absent_hw : nat -> Z -> Z := fun _ _ => 0.

Definition slow_hw (k : nat) (v : Z) : nat -> Z -> Z :=
  fun t _ => if (t <? k)%nat then 0x80 else v.

Definition stuck_hw : nat -> Z -> Z := fun _ _ => 0x80.

(** A busy dirty buf for the last block, a busy buf to be read, a busy buf
    that is valid already, a dirty buf nobody holds, and a busy dirty buf
    for the first block past the end. *)
Definition buf_w : buf := mkbuf 5 1 999 None 4096.
Definition buf_r : buf := mkbuf 1 1 7 None 8192.
Definition buf_done : buf := mkbuf 3 1 8 None 12288.
Definition buf_unowned : buf := mkbuf 4 1 9 None 16384.
Definition buf_out : buf := mkbuf 5 1 1000 None 20480.

Definition sample_bufs : gmap nat buf :=
  <[1%nat := buf_w]> (<[2%nat := buf_r]> (<[3%nat := buf_done]>
    (<[4%nat := buf_unowned]> (<[5%nat := buf_out]> ∅)))).

Definition machine (q : ptr) (h : nat -> Z -> Z) : state :=
  mkstate false q 1 1 sample_bufs (fun a => a mod 251) h 0 [].

(** ** The driver *)

Section Driver.

(** Constants of headers that are not part of this file: FSSIZE (param.h),
    BSIZE (fs.h) and the flag bits of buf.h.  [spin] bounds the number of
    status polls one busy-wait is followed for. *)
Variables FSSIZE BSIZE : Z.
Variables B_BUSY B_VALID B_DIRTY : Z.
Variable spin : nat.

(** Wait for IDE disk to become ready (lines 60-68).
    [while ((r = inb(iobase + ATA_STATUS)) & ATA_SR_BSY);] *)
Fixpoint idewait_poll (fuel : nat) (port : Z) : M Z :=
  match fuel with
  | O => spinning
  | S n =>
      let* r := inb port in
      if Z.land r ATA_SR_BSY =? 0 then ret r else idewait_poll n port
  end.

Definition idewait (iobase check_error : Z) : M Z :=
  let* r := idewait_poll spin (iobase + ATA_STATUS) in
  if negb (check_error =? 0)
     && negb (Z.land r (Z.lor ATA_SR_DF ATA_SR_ERR) =? 0)
  then ret (-1)
  else ret 0.

(** The presence loop of ideinit (lines 82-87 and 94-99):
    [for(i=0; i<1000; i++) if(inb(port) != 0){ have = 1; break; }] *)
Fixpoint probe (n : nat) (port : Z) (found : M unit) : M unit :=
  match n with
  | O => ret tt
  | S n' =>
      let* r := inb port in
      if negb (r =? 0) then found else probe n' port found
  end.

(** ideinit (lines 70-105).  initlock leaves the lock free; picenable and
    ioapicenable configure the interrupt controller, which is outside the
    driver's state. *)
Definition ideinit : M unit :=
  let* _ := modify (with_lock false) in
  let* _ := idewait IO_BASE0 0 in
  let* _ := outb (IO_BASE0 + ATA_SDH) (Z.lor 0xe0 (Z.shiftl (Z.land FS_DEVNO 1) 4)) in
  let* _ := probe 1000 (IO_BASE0 + ATA_STATUS) (modify (with_havedisk1 1)) in
  let* h1 := gets havedisk1 in
  if h1 =? 0 then panic "ide disk 1 not present" else
  let* _ := idewait IO_BASE1 0 in
  let* _ := outb (IO_BASE1 + ATA_SDH) (Z.lor 0xe0 (Z.shiftl (Z.land SWAP_DEVNO 1) 4)) in
  let* _ := probe 1000 (IO_BASE1 + ATA_STATUS) (modify (with_havedisk2 1)) in
  let* h2 := gets havedisk2 in
  if h2 =? 0 then panic "ide disk 2(swap disk) not present" else
  outb 0x1f6 (Z.lor 0xe0 (Z.shiftl 0 4)).

(** Start the request for b.  Caller must hold idelock (lines 107-133). *)
Definition idestart_body (b : ptr) : M unit :=
  match b with
  | None => panic "idestart"
  | Some a =>
      let* bf := getbuf a in
      if blockno bf >=? uint32 FSSIZE then panic "incorrect blockno" else
      let sector_per_block := Z.quot BSIZE SECTSIZE in
      let sector := sint32 (blockno bf * sector_per_block) in
      if sector_per_block >? 7 then panic "idestart" else
      let* _ := idewait IO_BASE0 0 in
      let* _ := outb 0x3f6 0 in
      let* _ := outb 0x1f2 sector_per_block in
      let* _ := outb 0x1f3 (Z.land sector 0xff) in
      let* _ := outb 0x1f4 (Z.land (Z.shiftr sector 8) 0xff) in
      let* _ := outb 0x1f5 (Z.land (Z.shiftr sector 16) 0xff) in
      let* _ := outb 0x1f6 (Z.lor (Z.lor 0xe0 (Z.shiftl (Z.land (dev bf) 1) 4))
                                  (Z.land (Z.shiftr sector 24) 0x0f)) in
      if negb (Z.land (flags bf) B_DIRTY =? 0) then
        let* _ := outb 0x1f7 ATA_CMD_WRITE in
        outsl 0x1f0 (data bf) (Z.quot BSIZE 4)
      else
        outb 0x1f7 ATA_CMD_READ
  end.

(** A call of idestart: the call is recorded, then the body runs. *)
Definition idestart (b : ptr) : M unit :=
  let* _ := modify (emit (EvStart b)) in idestart_body b.

(** ideintr, lines 150-152: read data if needed. *)
Definition ideintr_read (bf : buf) : M unit :=
  if Z.land (flags bf) B_DIRTY =? 0 then
    let* r := idewait IO_BASE0 1 in
    if r >=? 0 then insl 0x1f0 (data bf) (Z.quot BSIZE 4) else ret tt
  else ret tt.

(** ideintr, lines 154-157: wake process waiting for this buf. *)
Definition ideintr_wake (a : addr) : M unit :=
  let* _ := update_buf a (fun bf => set_flags (Z.lor (flags bf) B_VALID) bf) in
  let* _ := update_buf a (fun bf => set_flags (Z.land (flags bf) (Z.lnot B_DIRTY)) bf) in
  wakeup a.

(** ideintr, lines 159-161: start disk on next buf in queue. *)
Definition ideintr_next : M unit :=
  let* q := gets idequeue in
  match q with
  | Some _ => idestart q
  | None => ret tt
  end.

(** Interrupt handler (lines 135-164). *)
Definition ideintr : M unit :=
  let* _ := acquire in
  let* q := gets idequeue in
  match q with
  | None => release
  | Some a =>
      let* bf := getbuf a in
      let* _ := modify (with_queue (qnext bf)) in
      let* _ := ideintr_read bf in
      let* _ := ideintr_wake a in
      let* _ := ideintr_next in
      release
  end.

(** A pointer to a buf pointer: the address of idequeue or of the qnext
    field of some buf. *)
Inductive slot :=
| SlotHead
| SlotNext (a : addr).

Definition read_slot (pp : slot) : M ptr :=
  match pp with
  | SlotHead => gets idequeue
  | SlotNext a => let* bf := getbuf a in ret (qnext bf)
  end.

Definition write_slot (pp : slot) (p : ptr) : M unit :=
  match pp with
  | SlotHead => modify (with_queue p)
  | SlotNext a => update_buf a (set_qnext p)
  end.

(** The append loop of line 186: pp starts at the address of idequeue and
    moves to the address of the qnext field of the buf it points to, until
    what it points to is null. *)
Fixpoint find_tail (fuel : nat) (pp : slot) : M slot :=
  match fuel with
  | O => spinning
  | S n =>
      let* p := read_slot pp in
      match p with
      | None => ret pp
      | Some a => find_tail n (SlotNext a)
      end
  end.

(** The walk visits one buf per step and changes nothing, so a walk that
    has not met the null link after visiting more bufs than the heap holds
    is inside a cycle and goes on for ever. *)
Definition queue_tail : M slot :=
  let* n := gets (fun s => size (bufs s)) in
  find_tail (S n) SlotHead.

(** iderw, lines 182-192: the append to idequeue and the start. *)
Definition iderw_append (b : addr) : M unit :=
  let* _ := acquire in
  let* _ := write_slot (SlotNext b) None in
  let* pp := queue_tail in
  let* _ := write_slot pp (Some b) in
  let* q := gets idequeue in
  if bool_decide (q = Some b) then idestart (Some b) else ret tt.

(** iderw, lines 175-192: the contract checks, then the append. *)
Definition iderw_enqueue (b : addr) : M unit :=
  let* bf := getbuf b in
  if Z.land (flags bf) B_BUSY =? 0 then panic "iderw: buf not busy" else
  if Z.land (flags bf) (Z.lor B_VALID B_DIRTY) =? B_VALID
  then panic "iderw: nothing to do" else
  let* h1 := gets havedisk1 in
  if negb (dev bf =? 0) && (h1 =? 0)
  then panic "iderw: ide disk 1 not present" else
  iderw_append b.

(** iderw, lines 195-199, with idelock held: one test of the loop
    condition.  [false]: the thread went to sleep on b (lock released);
    [true]: the loop is left, the lock released and iderw returns. *)
Definition iderw_wait (b : addr) : M bool :=
  let* bf := getbuf b in
  if negb (Z.land (flags bf) (Z.lor B_VALID B_DIRTY) =? B_VALID) then
    let* _ := sleep b in ret false
  else
    let* _ := release in ret true.

(** iderw from its entry to its first scheduling point. *)
Definition iderw_begin (b : addr) : M bool :=
  let* _ := iderw_enqueue b in iderw_wait b.

(** iderw from a return of sleep (which re-acquires idelock) to its next
    scheduling point. *)
Definition iderw_resume (b : addr) : M bool :=
  let* _ := acquire in iderw_wait b.

(** iderw takes idelock only after its checks: between the two, other
    threads and the interrupt handler may run.  The two parts of
    [iderw_begin], for the runs that have operations between them:
    lines 175-180, the checks, which change nothing; and lines 182-199
    up to the first scheduling point. *)
Definition iderw_check (b : addr) : M unit :=
  let* bf := getbuf b in
  if Z.land (flags bf) B_BUSY =? 0 then panic "iderw: buf not busy" else
  if Z.land (flags bf) (Z.lor B_VALID B_DIRTY) =? B_VALID
  then panic "iderw: nothing to do" else
  let* h1 := gets havedisk1 in
  if negb (dev bf =? 0) && (h1 =? 0)
  then panic "iderw: ide disk 1 not present" else
  ret tt.

Definition iderw_enter (b : addr) : M bool :=
  let* _ := iderw_append b in iderw_wait b.

(** The transfer loops of read_swap (lines 220-229) and write_swap
    (lines 250-259), with the release and the return that follow them. *)
Fixpoint read_swap_loop (nsecs : nat) (iobase dst : Z) : M Z :=
  match nsecs with
  | O => let* _ := release in ret 0
  | S n =>
      let* r := idewait iobase 1 in
      if negb (r =? 0) then
        let* _ := release in ret r
      else
        let* _ := insl iobase dst (Z.quot SECTSIZE 4) in
        read_swap_loop n iobase (dst + SECTSIZE)
  end.

Fixpoint write_swap_loop (nsecs : nat) (iobase src : Z) : M Z :=
  match nsecs with
  | O => let* _ := release in ret 0
  | S n =>
      let* r := idewait iobase 1 in
      if negb (r =? 0) then
        let* _ := release in ret r
      else
        let* _ := outsl iobase src (Z.quot SECTSIZE 4) in
        write_swap_loop n iobase (src + SECTSIZE)
  end.

(** The register programming shared by both swap calls
    (lines 207-217 and 237-247). *)
Definition swap_setup (secno cmd : Z) : M unit :=
  let ideno := SWAP_DEVNO in
  let iobase := IO_BASE1 in
  let ioctrl := IO_CTRL1 in
  let nsecs := 8 in
  let* _ := idewait IO_BASE1 0 in
  let* _ := outb (ioctrl + ATA_CTRL) 0 in
  let* _ := outb (iobase + ATA_SECCNT) nsecs in
  let* _ := outb (iobase + ATA_SECTOR) (Z.land secno 0xFF) in
  let* _ := outb (iobase + ATA_CYL_LO) (Z.land (Z.shiftr secno 8) 0xFF) in
  let* _ := outb (iobase + ATA_CYL_HI) (Z.land (Z.shiftr secno 16) 0xFF) in
  let* _ := outb (iobase + ATA_SDH)
                 (Z.lor (Z.lor 0xE0 (Z.shiftl (Z.land ideno 1) 4))
                        (Z.land (Z.shiftr secno 24) 0xF)) in
  outb (iobase + ATA_COMMAND) cmd.

Definition read_swap (secno dst : Z) : M Z :=
  let* _ := acquire in
  let* _ := swap_setup secno ATA_CMD_READ in
  read_swap_loop 8 IO_BASE1 dst.

Definition write_swap (secno src : Z) : M Z :=
  let* _ := acquire in
  let* _ := swap_setup secno ATA_CMD_WRITE in
  write_swap_loop 8 IO_BASE1 src.

(** ** Runs of the driver

    The driver's entry points as the operations of a transition system: a
    thread entering iderw, a sleeping thread being resumed, an interrupt,
    and the two swap calls. *)
Inductive op :=
| OpIderw (b : addr)
| OpResume (b : addr)
| OpIntr
| OpReadSwap (secno dst : Z)
| OpWriteSwap (secno src : Z).

Definition step (o : op) : M unit :=
  match o with
  | OpIderw b => let* _ := iderw_begin b in ret tt
  | OpResume b => let* _ := iderw_resume b in ret tt
  | OpIntr => ideintr
  | OpReadSwap secno dst => let* _ := read_swap secno dst in ret tt
  | OpWriteSwap secno src => let* _ := write_swap secno src in ret tt
  end.

Fixpoint run (ops : list op) : M unit :=
  match ops with
  | [] => ret tt
  | o :: ops' => let* _ := step o in run ops'
  end.

(** ** Specification vocabulary *)

(** *** Assumptions on what the driver is compiled and run with *)

(** [x] is one bit of a non-negative int. *)
Definition single_bit (x : Z) : Prop := exists k, 0 <= k < 31 /\ x = 2 ^ k.

(** What is assumed of buf.h: B_BUSY, B_VALID and B_DIRTY are three
    distinct bits. *)
Definition flag_bits : Prop :=
  single_bit B_BUSY /\ single_bit B_VALID /\ single_bit B_DIRTY /\
  B_BUSY <> B_VALID /\ B_BUSY <> B_DIRTY /\ B_VALID <> B_DIRTY.

(** What is assumed of param.h and fs.h: FSSIZE is a positive int, and a
    block is a whole number of sectors that one command can transfer. *)
Definition geometry : Prop :=
  0 < FSSIZE < 2 ^ 31 /\ 0 < BSIZE /\ BSIZE mod SECTSIZE = 0 /\
  BSIZE / SECTSIZE <= 7.

(** The controller answers every busy-wait on [port] within [spin] polls. *)
Definition responsive (h : nat -> Z -> Z) (port : Z) : Prop :=
  forall t : nat, exists n : nat,
    (n < spin)%nat /\ Z.land (uint8 (h (t + n)%nat port)) ATA_SR_BSY = 0.

(** *** Flag and status words *)

(** [f & F] as a C truth value. *)
Definition has_flag (f F : Z) : bool := negb (Z.land f F =? 0).

(** The flag word of the buf at [a], when there is one. *)
Definition flags_at (s : state) (a : addr) : option Z := flags <$> bufs s !! a.

(** The flag word of a completed request. *)
Definition completed (f : Z) : Z := Z.land (Z.lor f B_VALID) (Z.lnot B_DIRTY).

(** A status byte with the drive-fault or the error bit set. *)
Definition faulty (v : Z) : bool :=
  negb (Z.land v (Z.lor ATA_SR_DF ATA_SR_ERR) =? 0).

(** The buf [b] with its device id replaced by [d]. *)
Definition set_dev (d : Z) (b : buf) : buf :=
  mkbuf (flags b) d (blockno b) (qnext b) (data b).

(** *** Outcomes and frames of monadic code *)

(** [failed r r']: [r] is a way of not returning, and [r'] is the same
    one at another type. *)
Definition failed {A B} (r : result A) (r' : result B) : Prop :=
  match r, r' with
  | Panic m, Panic m' => m = m'
  | Spin, Spin => True
  | Fault, Fault => True
  | _, _ => False
  end.

(** [keeps R m]: whatever the outcome of [m], the states before and after
    are related by [R]. *)
Definition keeps {A} (R : state -> state -> Prop) (m : M A) : Prop :=
  forall s r s', m s = (r, s') -> R s s'.

(** [panics_within msgs m]: when [m] panics, its message is one of [msgs]. *)
Definition panics_within (msgs : list string) {A} (m : M A) : Prop :=
  forall s msg s', m s = (Panic msg, s') -> In msg msgs.

(** The panics of idestart. *)
Definition start_panics : list string := ["idestart"; "incorrect blockno"].

(** *** States reached by port traffic *)

(** The state after [n] more port reads and the events [es]. *)
Definition advance (n : nat) (es : list event) (s : state) : state :=
  mkstate (idelock s) (idequeue s) (havedisk1 s) (havedisk2 s) (bufs s) (ram s)
          (hw_in s) (clock s + n)%nat (trace s ++ es).

(** The state after the port reads [vs] of a busy-wait on [port]. *)
Definition after_polls (port : Z) (vs : list Z) (s : state) : state :=
  advance (length vs) (map (EvInb port) vs) s.

(** The state after the data pull of the completion handler. *)
Definition pulled (bf : buf) (s : state) : state :=
  snd (insl 0x1f0 (data bf) (Z.quot BSIZE 4) s).

(** *** Traces *)

(** Events that touch a port, and the port they touch. *)
Definition event_port (e : event) : option Z :=
  match e with
  | EvInb p _ | EvOutb p _ | EvInsl p _ | EvOutsl p _ => Some p
  | _ => None
  end.

(** The register sets of the two channels: the eight ports from the I/O
    base, and the device-control port. *)
Definition primary_port (p : Z) : bool :=
  ((0x1f0 <=? p) && (p <=? 0x1f7)) || (p =? 0x3f6).

Definition secondary_port (p : Z) : bool :=
  ((0x170 <=? p) && (p <=? 0x177)) || (p =? 0x376).

(** Every port access of the trace is to a port that satisfies [ok]. *)
Definition on_ports (ok : Z -> bool) (tr : list event) : Prop :=
  Forall (fun e => match event_port e with
                   | Some p => ok p = true
                   | None => True
                   end) tr.

(** [touches ok s s']: from [s] to [s'] the trace grew, and every port
    named by a new event satisfies [ok]. *)
Definition touches (ok : Z -> bool) (s s' : state) : Prop :=
  exists new, trace s' = trace s ++ new /\ on_ports ok new.

(** Events other than the start and the completion of a request. *)
Definition quiet (e : event) : bool :=
  match e with
  | EvStart _ | EvWakeup _ => false
  | _ => true
  end.

(** A trace without its status polls. *)
Definition data_events (tr : list event) : list event :=
  List.filter (fun e => match e with EvInb _ _ => false | _ => true end) tr.

(** The requests idestart was called for, in order. *)
Fixpoint starts (tr : list event) : list ptr :=
  match tr with
  | [] => []
  | EvStart b :: tr' => b :: starts tr'
  | _ :: tr' => starts tr'
  end.

(** The request that has an operation outstanding, read off a trace: a
    call of idestart puts its request in flight, the wakeup of the
    completion handler takes it out.  [None] when a start is issued while
    a request is in flight, or a request that is not in flight is
    completed. *)
Fixpoint track (cur : ptr) (tr : list event) : option ptr :=
  match tr with
  | [] => Some cur
  | EvStart b :: tr' =>
      match cur with
      | None => track b tr'
      | Some _ => None
      end
  | EvWakeup a :: tr' =>
      if bool_decide (cur = Some a) then track None tr' else None
  | _ :: tr' => track cur tr'
  end.

(** Two events that are equal, or are writes of the drive/head register
    of the primary channel that agree on every bit but bit 4. *)
Definition same_but_drive_bit (e1 e2 : event) : Prop :=
  e1 = e2 \/
  exists v1 v2, e1 = EvOutb 0x1f6 v1 /\ e2 = EvOutb 0x1f6 v2 /\
    forall i, i <> 4 -> Z.testbit v1 i = Z.testbit v2 i.

(** *** What idestart and the swap calls put on the trace *)

(** The register writes of idestart for the buf [bf]. *)
Definition start_regs (bf : buf) : list event :=
  let sector := sint32 (blockno bf * Z.quot BSIZE SECTSIZE) in
  [ EvOutb 0x3f6 (uint8 0);
    EvOutb 0x1f2 (uint8 (Z.quot BSIZE SECTSIZE));
    EvOutb 0x1f3 (uint8 (Z.land sector 0xff));
    EvOutb 0x1f4 (uint8 (Z.land (Z.shiftr sector 8) 0xff));
    EvOutb 0x1f5 (uint8 (Z.land (Z.shiftr sector 16) 0xff));
    EvOutb 0x1f6 (uint8 (Z.lor (Z.lor 0xe0 (Z.shiftl (Z.land (dev bf) 1) 4))
                               (Z.land (Z.shiftr sector 24) 0x0f))) ].

(** The command of idestart for [bf], with memory [r]. *)
Definition start_cmd (bf : buf) (r : Z -> Z) : list event :=
  if has_flag (flags bf) B_DIRTY then
    [ EvOutb 0x1f7 0x30;
      EvOutsl 0x1f0 (load_dwords r (data bf) (Z.to_nat (Z.quot BSIZE 4))) ]
  else
    [ EvOutb 0x1f7 0x20 ].

(** The register writes of a swap call. *)
Definition swap_regs (secno cmd : Z) : list event :=
  [ EvOutb 0x376 (uint8 0);
    EvOutb 0x172 (uint8 8);
    EvOutb 0x173 (uint8 (Z.land secno 0xFF));
    EvOutb 0x174 (uint8 (Z.land (Z.shiftr secno 8) 0xFF));
    EvOutb 0x175 (uint8 (Z.land (Z.shiftr secno 16) 0xFF));
    EvOutb 0x176 (uint8 (Z.lor (Z.lor 0xE0 (Z.shiftl (Z.land SWAP_DEVNO 1) 4))
                               (Z.land (Z.shiftr secno 24) 0xF)));
    EvOutb 0x177 (uint8 cmd) ].

(** The [n] sectors of dwords in memory from [src] on. *)
Fixpoint load_sectors (r : Z -> Z) (src : Z) (n : nat) : list (list Z) :=
  match n with
  | O => []
  | S n' => load_dwords r src 128 :: load_sectors r (src + 512) n'
  end.

(** How a swap call that was to move [n] sectors ended after moving [k]:
    it returned 0 with all of them moved, or it returned -1 right after a
    status with the fault or error bit, or it is still polling; in the
    first two cases the lock is free again. *)
Definition swap_outcome (n : nat) (r : result Z) (k : nat) (s' : state)
    (new : list event) : Prop :=
  (r = Ok 0 /\ k = n /\ idelock s' = false) \/
  (r = Ok (-1) /\ (k < n)%nat /\ idelock s' = false /\
   exists v, last new = Some (EvInb 0x177 v) /\ faulty v = true) \/
  (r = Spin /\ (k < n)%nat).

(** A status that ends a busy-wait: the busy bit is clear. *)
Definition ready (v : Z) : bool := Z.land v ATA_SR_BSY =? 0.

(** No status of the trace ends a busy-wait with the fault or the error
    bit set. *)
Definition calm (tr : list event) : Prop :=
  Forall (fun e => match e with
                   | EvInb _ v => ready v && faulty v = false
                   | _ => True
                   end) tr.

(** Every transfer [xfer ws] of the trace comes right after a status of
    port 0x177 that ended a busy-wait without a fault; [prev] is the event
    before the trace. *)
Fixpoint served (xfer : list Z -> event) (prev : option event)
    (tr : list event) : Prop :=
  match tr with
  | [] => True
  | e :: tr' =>
      ((exists ws, e = xfer ws) ->
       exists v, prev = Some (EvInb 0x177 v) /\ ready v = true /\ faulty v = false)
      /\ served xfer (Some e) tr'
  end.

(** The error check of the transfer loop of a swap call, read off the
    events [moved] that follow the command: a status that ends a
    busy-wait with the fault or the error bit set is the last event, the
    call has returned -1 and the lock is free; and every transfer [xfer ws]
    comes right after a status that ended a busy-wait without a fault. *)
Definition swap_checks (xfer : list Z -> event) (r : result Z) (s' : state)
    (moved : list event) : Prop :=
  (forall pre v post,
     moved = pre ++ EvInb 0x177 v :: post ->
     Z.land v ATA_SR_BSY = 0 -> faulty v = true ->
     post = [] /\ r = Ok (-1) /\ idelock s' = false) /\
  (forall pre ws post,
     moved = pre ++ xfer ws :: post ->
     exists pre' v, pre = pre' ++ [EvInb 0x177 v] /\
       Z.land v ATA_SR_BSY = 0 /\ faulty v = false).

(** What follows the busy-wait of the setup of a swap call: nothing when
    the controller stayed busy, and otherwise the register writes and the
    events [moved] of the transfer loop, which obey the error check. *)
Definition swap_trace (secno cmd : Z) (xfer : list Z -> event) (r : result Z)
    (s' : state) (new : list event) : Prop :=
  (exists vs0, r = Spin /\ new = map (EvInb 0x177) vs0) \/
  (exists vs0 moved,
     new = map (EvInb 0x177) vs0 ++ swap_regs secno cmd ++ moved /\
     swap_checks xfer r s' moved).

(** *** Relations between the states before and after an operation *)

(** [io_only s s']: from [s] to [s'] the driver polled and wrote ports
    and did nothing else. *)
Definition io_only (s s' : state) : Prop :=
  idelock s' = idelock s /\ idequeue s' = idequeue s /\
  havedisk1 s' = havedisk1 s /\ havedisk2 s' = havedisk2 s /\
  bufs s' = bufs s /\ ram s' = ram s /\ hw_in s' = hw_in s /\
  exists new, trace s' = trace s ++ new /\ Forall (fun e => quiet e = true) new.

(** [aside s s']: from [s] to [s'] the queue and the bufs were left alone
    and no request was started or completed. *)
Definition aside (s s' : state) : Prop :=
  idequeue s' = idequeue s /\ bufs s' = bufs s /\
  exists new, trace s' = trace s ++ new /\ Forall (fun e => quiet e = true) new.

(** [busy_kept s s']: every buf of [s] is still there in [s'], with its
    BUSY flag as it was. *)
Definition busy_kept (s s' : state) : Prop :=
  forall a f, flags_at s a = Some f ->
    exists f', flags_at s' a = Some f' /\ has_flag f' B_BUSY = has_flag f B_BUSY.

(** [presence_same s s']: the presence flags are what they were. *)
Definition presence_same (s s' : state) : Prop :=
  havedisk1 s' = havedisk1 s /\ havedisk2 s' = havedisk2 s.

(** *** The queue *)

(** The queue as a list: [lseg m p l] when following qnext from [p] in the
    heap [m] visits exactly the bufs [l] and then the null pointer. *)
Fixpoint lseg (m : gmap nat buf) (p : ptr) (l : list addr) : Prop :=
  match l with
  | [] => p = None
  | a :: l' => p = Some a /\ exists bf, m !! a = Some bf /\ lseg m (qnext bf) l'
  end.

(** The bufs reached from [p] in at most [fuel] links. *)
Fixpoint chain (fuel : nat) (m : gmap nat buf) (p : ptr) : list addr :=
  match fuel, p with
  | S n, Some a =>
      a :: match m !! a with
           | Some bf => chain n m (qnext bf)
           | None => []
           end
  | _, _ => []
  end.

(** The queue of a state: the bufs reached from idequeue. *)
Definition queued (s : state) : list addr :=
  chain (size (bufs s)) (bufs s) (idequeue s).

(** The slot the append loop stops at: the link of the last buf of the
    queue, or the slot it started from when the queue is empty. *)
Definition tail_slot (pp : slot) (l : list addr) : slot :=
  match last l with
  | Some a => SlotNext a
  | None => pp
  end.

(** The queue is a list without repetition, and the request in flight
    is its head. *)
Definition queue_inv (s : state) : Prop :=
  NoDup (queued s) /\
  lseg (bufs s) (idequeue s) (queued s) /\
  track None (trace s) = Some (idequeue s).

(** The calls of idestart an operation may make, given the queue it
    finds: iderw one for its own request when the queue is empty, ideintr
    one for the second request of the queue, the others none. *)
Definition starts_allowed (o : op) (s : state) (new : list event) : Prop :=
  match o with
  | OpIderw b => starts new = [] \/ (queued s = [] /\ starts new = [Some b])
  | OpIntr =>
      starts new = [] \/
      exists a n rest, queued s = a :: n :: rest /\ starts new = [Some n]
  | _ => starts new = []
  end.

(** What an operation must not be given: iderw a request that is on the
    queue. *)
Definition fresh (o : op) (s : state) : Prop :=
  match o with
  | OpIderw b => b ∉ queued s
  | _ => True
  end.

(** No request is handed to iderw while it is on the queue. *)
Fixpoint fresh_run (ops : list op) (s : state) : Prop :=
  match ops with
  | [] => True
  | o :: ops' =>
      fresh o s /\
      match step o s with
      | (Ok _, s1) => fresh_run ops' s1
      | _ => True
      end
  end.

(** The requests handed to iderw by a sequence of operations, in order. *)
Fixpoint submitted (ops : list op) : list addr :=
  match ops with
  | [] => []
  | OpIderw b :: ops' => b :: submitted ops'
  | _ :: ops' => submitted ops'
  end.

(** The requests the completion handler woke the sleeper of, in order. *)
Fixpoint wakeups (tr : list event) : list addr :=
  match tr with
  | [] => []
  | EvWakeup a :: tr' => a :: wakeups tr'
  | _ :: tr' => wakeups tr'
  end.

(** *** The task file of a channel *)

(** The byte each port register holds after the byte writes of a trace,
    given what the registers held before: outb(p, v) latches [v] in [p]. *)
Fixpoint regfile (tr : list event) (rf : Z -> Z) : Z -> Z :=
  match tr with
  | [] => rf
  | EvOutb p v :: tr' => regfile tr' (fun q => if q =? p then v else rf q)
  | _ :: tr' => regfile tr' rf
  end.

(** The 28-bit block address a channel is programmed with: the sector
    number, cylinder-low and cylinder-high registers and the low four bits
    of the drive/head register, least significant first. *)
Definition lba28 (base : Z) (rf : Z -> Z) : Z :=
  rf (base + ATA_SECTOR) + 2 ^ 8 * rf (base + ATA_CYL_LO)
  + 2 ^ 16 * rf (base + ATA_CYL_HI)
  + 2 ^ 24 * Z.land (rf (base + ATA_SDH)) 0x0f.

(** Events that write to a port. *)
Definition port_write (e : event) : bool :=
  match e with
  | EvOutb _ _ | EvOutsl _ _ => true
  | _ => false
  end.

(** The [i]-th status the controller will deliver on [port], counted from
    the next port read of [s]. *)
Definition status_at (s : state) (port : Z) (i : nat) : Z :=
  uint8 (hw_in s (clock s + i)%nat port).

(** *** What a buf holds besides its queue link *)

Definition payload (bf : buf) : Z * Z * Z * Z :=
  (flags bf, dev bf, blockno bf, data bf).

(** [links_only s s']: from [s] to [s'] no buf appeared or went away, of
    the bufs only queue links changed, and memory was not written. *)
Definition links_only (s s' : state) : Prop :=
  (forall a : addr, payload <$> bufs s' !! a = payload <$> bufs s !! a) /\
  ram s' = ram s.

(** [only_completed s s']: every buf of [s] is still there in [s'], with
    its device, its block number and the address of its byte array as they
    were and with its flag word either as it was or as a completion leaves
    it. *)
Definition only_completed (s s' : state) : Prop :=
  forall (a : addr) bf, bufs s !! a = Some bf ->
    exists bf', bufs s' !! a = Some bf' /\
      (flags bf' = flags bf \/ flags bf' = completed (flags bf)) /\
      dev bf' = dev bf /\ blockno bf' = blockno bf /\ data bf' = data bf.

(** [same_arrays s s']: the bufs of [s'] are the bufs of [s], and each has
    its byte array where it was. *)
Definition same_arrays (s s' : state) : Prop :=
  forall a : addr, data <$> bufs s' !! a = data <$> bufs s !! a.

(** [written ops s new x]: the byte of memory at [x] lies in the byte
    array of a buf whose completion is signalled in [new], or in the eight
    sectors that a read_swap among [ops] was given to fill. *)
Definition written (ops : list op) (s : state) (new : list event) (x : Z) : Prop :=
  (exists (a : addr) bf, a ∈ wakeups new /\ bufs s !! a = Some bf /\
     data bf <= x < data bf + BSIZE) \/
  (exists secno dst, OpReadSwap secno dst ∈ ops /\ dst <= x < dst + 8 * SECTSIZE).

(** ** Flag words *)

Lemma land_pow2 (f k : Z) :
  0 <= k -> Z.land f (2 ^ k) = if Z.testbit f k then 2 ^ k else 0.
Proof.
  intros Hk. apply Z.bits_inj'. intros n Hn.
  rewrite Z.land_spec, Z.pow2_bits_eqb by lia.
  destruct (Z.testbit f k) eqn:E.
  - rewrite Z.pow2_bits_eqb by lia.
    destruct (Z.eqb_spec k n) as [->|]; [now rewrite E | apply andb_false_r].
  - rewrite Z.bits_0.
    destruct (Z.eqb_spec k n) as [->|]; [now rewrite E | apply andb_false_r].
Qed.

Lemma has_flag_pow2 (f k : Z) : 0 <= k -> has_flag f (2 ^ k) = Z.testbit f k.
Proof.
  intros Hk. unfold has_flag. rewrite land_pow2 by lia.
  destruct (Z.testbit f k); simpl; [|reflexivity].
  destruct (Z.eqb_spec (2 ^ k) 0) as [E|]; [|reflexivity].
  pose proof (Z.pow_pos_nonneg 2 k); lia.
Qed.

Lemma pow2_inj (i j : Z) : 0 <= i -> 0 <= j -> 2 ^ i = 2 ^ j -> i = j.
Proof. intros Hi Hj E. apply (Z.pow_inj_r 2); lia. Qed.

Lemma has_flag_set (f F : Z) :
  single_bit F -> has_flag f F = true <-> Z.land f F = F.
Proof.
  intros (k & Hk & ->). rewrite has_flag_pow2, land_pow2 by lia.
  pose proof (Z.pow_pos_nonneg 2 k).
  destruct (Z.testbit f k); split; intros; try reflexivity; try discriminate; lia.
Qed.

Lemma has_flag_clear (f F : Z) : has_flag f F = false <-> Z.land f F = 0.
Proof.
  unfold has_flag. destruct (Z.eqb_spec (Z.land f F) 0); simpl; split; congruence.
Qed.

(** The loop condition of iderw, [(flags & (B_VALID|B_DIRTY)) == B_VALID],
    holds exactly when VALID is set and DIRTY is clear. *)
Lemma settled_test (f : Z) :
  flag_bits ->
  (Z.land f (Z.lor B_VALID B_DIRTY) =? B_VALID)
  = has_flag f B_VALID && negb (has_flag f B_DIRTY).
Proof.
  intros (_ & (i & Hi & EV) & (j & Hj & ED) & _ & _ & ?).
  assert (Hij : i <> j) by (intros ->; congruence).
  rewrite EV, ED, !has_flag_pow2 by lia.
  rewrite Z.land_lor_distr_r, !land_pow2 by lia.
  pose proof (Z.pow_pos_nonneg 2 i). pose proof (Z.pow_pos_nonneg 2 j).
  destruct (Z.testbit f i), (Z.testbit f j); cbn [andb negb].
  - apply Z.eqb_neq. intros E.
    apply (f_equal (fun x => Z.testbit x j)) in E.
    rewrite Z.lor_spec, !Z.pow2_bits_eqb in E by lia.
    rewrite Z.eqb_refl, orb_true_r in E.
    destruct (Z.eqb_spec i j); congruence.
  - rewrite Z.lor_0_r. apply Z.eqb_refl.
  - rewrite Z.lor_0_l. apply Z.eqb_neq. intros E. apply pow2_inj in E; lia.
  - rewrite Z.lor_0_r. apply Z.eqb_neq. lia.
Qed.

(** What the completion handler does to a flag word:
    [flags |= B_VALID; flags &= ~B_DIRTY]. *)
Lemma completed_flags (f : Z) :
  flag_bits ->
  let f' := Z.land (Z.lor f B_VALID) (Z.lnot B_DIRTY) in
  has_flag f' B_VALID = true /\ has_flag f' B_DIRTY = false /\
  has_flag f' B_BUSY = has_flag f B_BUSY.
Proof.
  intros ((k & Hk & EB) & (i & Hi & EV) & (j & Hj & ED) & ? & ? & ?).
  assert (i <> j) by (intros ->; congruence).
  assert (k <> j) by (intros ->; congruence).
  assert (k <> i) by (intros ->; congruence).
  rewrite EV, ED, EB. cbv zeta. rewrite !has_flag_pow2 by lia.
  rewrite !Z.land_spec, !Z.lor_spec, !Z.lnot_spec, !Z.pow2_bits_eqb by lia.
  rewrite !Z.eqb_refl.
  destruct (Z.eqb_spec i j), (Z.eqb_spec j i), (Z.eqb_spec i k),
    (Z.eqb_spec j k); try lia.
  cbn [negb]. rewrite orb_true_r, !orb_false_r, !andb_true_r, andb_false_r. auto.
Qed.

(** A link update leaves the flag word alone. *)
Lemma flags_set_qnext (q : ptr) (bf : buf) : flags (set_qnext q bf) = flags bf.
Proof. reflexivity. Qed.

(** ** The monad *)

Lemma bind_inv {A B} (m : M A) (k : A -> M B) s r s' :
  bind m k s = (r, s') ->
  (exists a s1, m s = (Ok a, s1) /\ k a s1 = (r, s')) \/
  (exists r0, m s = (r0, s') /\ failed r0 r).
Proof.
  unfold bind. destruct (m s) as [[a|msg| |] s1]; intros E.
  - left; eauto.
  - right; inversion E; subst; exists (Panic msg); simpl; auto.
  - right; inversion E; subst; exists Spin; simpl; auto.
  - right; inversion E; subst; exists Fault; simpl; auto.
Qed.

Lemma bind_ok {A B} (m : M A) (k : A -> M B) s a s1 :
  m s = (Ok a, s1) -> bind m k s = k a s1.
Proof. unfold bind. now intros ->. Qed.

Section Keeps.
Variable R : state -> state -> Prop.
Hypothesis R_refl : forall s, R s s.
Hypothesis R_trans : forall s1 s2 s3, R s1 s2 -> R s2 s3 -> R s1 s3.

Lemma keeps_ret {A} (a : A) : keeps R (ret a).
Proof. intros s r s' E; inversion E; auto. Qed.

Lemma keeps_panic {A} msg : keeps R (@panic A msg).
Proof. intros s r s' E; inversion E; auto. Qed.

Lemma keeps_spinning {A} : keeps R (@spinning A).
Proof. intros s r s' E; inversion E; auto. Qed.

Lemma keeps_gets {A} (f : state -> A) : keeps R (gets f).
Proof. intros s r s' E; inversion E; auto. Qed.

Lemma keeps_getbuf a : keeps R (getbuf a).
Proof.
  intros s r s'. unfold getbuf. destruct (bufs s !! a); intros E; inversion E; auto.
Qed.

Lemma keeps_modify f : (forall s, R s (f s)) -> keeps R (modify f).
Proof. intros H s r s' E; inversion E; auto. Qed.

Lemma keeps_bind {A B} (m : M A) (k : A -> M B) :
  keeps R m -> (forall a, keeps R (k a)) -> keeps R (bind m k).
Proof.
  intros Hm Hk s r s' E. apply bind_inv in E as [(a & s1 & E1 & E2)|(r0 & E1 & _)].
  - eapply R_trans; [eapply Hm | eapply Hk]; eauto.
  - eapply Hm; eauto.
Qed.
End Keeps.

(** ** Port primitives and the busy-wait *)

Lemma advance_advance n1 es1 n2 es2 s :
  advance n2 es2 (advance n1 es1 s) = advance (n1 + n2) (es1 ++ es2) s.
Proof.
  unfold advance; simpl. f_equal; [lia | now rewrite app_assoc].
Qed.

Lemma advance_0_nil s : advance 0 [] s = s.
Proof.
  destruct s; unfold advance; simpl. f_equal; [lia | apply app_nil_r].
Qed.

Lemma emit_advance e s : emit e s = advance 0 [e] s.
Proof. unfold emit, advance. f_equal. lia. Qed.

Lemma inb_eq port s :
  inb port s
  = (Ok (uint8 (hw_in s (clock s) port)),
     advance 1 [EvInb port (uint8 (hw_in s (clock s) port))] s).
Proof. unfold inb, emit, tick, advance; simpl. do 2 f_equal. lia. Qed.

Lemma outb_eq port v s : outb port v s = (Ok tt, advance 0 [EvOutb port (uint8 v)] s).
Proof. unfold outb, modify. now rewrite emit_advance. Qed.

Lemma outsl_eq port src cnt s :
  outsl port src cnt s
  = (Ok tt, advance 0 [EvOutsl port (load_dwords (ram s) src (Z.to_nat cnt))] s).
Proof. unfold outsl. now rewrite emit_advance. Qed.

Lemma bind_outb {B} port v (k : unit -> M B) s :
  bind (outb port v) k s = k tt (advance 0 [EvOutb port (uint8 v)] s).
Proof. unfold bind. now rewrite outb_eq. Qed.

Lemma advance_eq n es n' es' s :
  n = n' -> es = es' -> advance n es s = advance n' es' s.
Proof. now intros -> ->. Qed.

Lemma after_polls_cons port v vs s :
  after_polls port vs (advance 1 [EvInb port v] s) = after_polls port (v :: vs) s.
Proof. unfold after_polls. rewrite advance_advance. reflexivity. Qed.

(** A busy-wait only polls its port; when it returns, the last status read
    has the busy bit clear. *)
Lemma idewait_poll_inv fuel port s r s' :
  idewait_poll fuel port s = (r, s') ->
  exists vs, s' = after_polls port vs s /\
    match r with
    | Ok v => last vs = Some v /\ Z.land v ATA_SR_BSY = 0
    | Spin => True
    | _ => False
    end.
Proof.
  revert s. induction fuel as [|fuel IH]; intros s E; simpl in E.
  - inversion E; subst. exists []. split; [|exact I].
    unfold after_polls. now rewrite advance_0_nil.
  - unfold bind in E. rewrite inb_eq in E.
    set (v := uint8 (hw_in s (clock s) port)) in *.
    destruct (Z.eqb_spec (Z.land v ATA_SR_BSY) 0) as [Hv|Hv].
    + inversion E; subst. exists [v]. split; [reflexivity|]. split; auto.
    + apply IH in E as (vs & -> & Hr). exists (v :: vs).
      split; [apply after_polls_cons|].
      destruct r; auto. destruct Hr as [Hl ?]. split; auto.
      destruct vs; [discriminate|]. now rewrite last_cons, Hl.
Qed.

Lemma idewait_inv iobase check_error s r s' :
  idewait iobase check_error s = (r, s') ->
  exists vs, s' = after_polls (iobase + ATA_STATUS) vs s /\
    match r with
    | Ok x => exists v, last vs = Some v /\ Z.land v ATA_SR_BSY = 0 /\
                x = (if negb (check_error =? 0) && faulty v then -1 else 0)
    | Spin => True
    | _ => False
    end.
Proof.
  unfold idewait. intros E.
  apply bind_inv in E as [(v & s1 & E1 & E2)|(r0 & E1 & Hf)].
  - apply idewait_poll_inv in E1 as (vs & -> & Hl & Hv). exists vs.
    fold (faulty v) in E2.
    destruct (negb (check_error =? 0) && faulty v) eqn:C;
      inversion E2; subst; split; auto; exists v; rewrite C; auto.
  - apply idewait_poll_inv in E1 as (vs & -> & Hr). exists vs. split; auto.
    destruct r0, r; simpl in Hf; try contradiction; auto.
Qed.

(** With a responsive controller the busy-wait returns. *)
Lemma idewait_poll_total fuel port s :
  (exists n, (n < fuel)%nat /\
     Z.land (uint8 (hw_in s (clock s + n)%nat port)) ATA_SR_BSY = 0) ->
  exists v vs, idewait_poll fuel port s = (Ok v, after_polls port vs s).
Proof.
  revert s. induction fuel as [|fuel IH]; intros s (n & Hn & Hv); [lia|].
  simpl. unfold bind. rewrite inb_eq.
  set (v := uint8 (hw_in s (clock s) port)) in *.
  destruct (Z.eqb_spec (Z.land v ATA_SR_BSY) 0) as [Hz|Hz].
  - exists v, [v]. reflexivity.
  - destruct n as [|n].
    + exfalso. apply Hz. subst v. now rewrite Nat.add_0_r in Hv.
    + destruct (IH (advance 1 [EvInb port v] s)) as (v' & vs & E).
      { exists n. split; [lia|]. simpl.
        now replace (clock s + 1 + n)%nat with (clock s + S n)%nat by lia. }
      exists v', (v :: vs). now rewrite E, after_polls_cons.
Qed.

Lemma idewait_total iobase check_error s :
  responsive (hw_in s) (iobase + ATA_STATUS) ->
  exists x vs,
    idewait iobase check_error s = (Ok x, after_polls (iobase + ATA_STATUS) vs s).
Proof.
  intros H. destruct (idewait_poll_total spin (iobase + ATA_STATUS) s) as (v & vs & E).
  { destruct (H (clock s)) as (n & ? & ?). eauto. }
  unfold idewait. rewrite (bind_ok _ _ _ _ _ E).
  destruct (_ && _); eauto.
Qed.

(** ** idestart *)

Lemma idestart_inv a bf s r s' :
  bufs s !! a = Some bf ->
  idestart (Some a) s = (r, s') ->
  (uint32 FSSIZE <= blockno bf /\ r = Panic "incorrect blockno" /\
   s' = advance 0 [EvStart (Some a)] s) \/
  (blockno bf < uint32 FSSIZE /\ 7 < Z.quot BSIZE SECTSIZE /\
   r = Panic "idestart" /\ s' = advance 0 [EvStart (Some a)] s) \/
  (blockno bf < uint32 FSSIZE /\ Z.quot BSIZE SECTSIZE <= 7 /\
   exists vs,
     (r = Spin /\
      s' = advance (length vs) (EvStart (Some a) :: map (EvInb 0x1f7) vs) s) \/
     (r = Ok tt /\
      s' = advance (length vs)
             (EvStart (Some a) :: map (EvInb 0x1f7) vs
                ++ start_regs bf ++ start_cmd bf (ram s)) s)).
Proof.
  intros Hb E. unfold idestart, idestart_body in E.
  unfold bind at 1 in E. unfold modify at 1 in E. rewrite emit_advance in E.
  unfold bind at 1 in E. unfold getbuf at 1 in E. simpl bufs in E. rewrite Hb in E.
  destruct (Z.geb_spec (blockno bf) (uint32 FSSIZE)) as [Hge|Hlt].
  { left. inversion E; subst. repeat split; auto; lia. }
  destruct (Z.gtb_spec (Z.quot BSIZE SECTSIZE) 7) as [Hgt|Hle].
  { right; left. inversion E; subst. repeat split; auto; lia. }
  right; right. split; [lia|]. split; [lia|].
  apply bind_inv in E as [(x & s1 & E1 & E2)|(r0 & E1 & Hf)].
  - apply idewait_inv in E1 as (vs & -> & _). exists vs. right.
    unfold after_polls in E2. rewrite advance_advance in E2.
    repeat (rewrite bind_outb in E2; cbv beta in E2; rewrite advance_advance in E2).
    unfold start_cmd, has_flag.
    destruct (negb (Z.land (flags bf) B_DIRTY =? 0)).
    + rewrite bind_outb in E2. cbv beta in E2.
      rewrite advance_advance, outsl_eq, advance_advance in E2.
      inversion E2; subst; clear E2. split; [reflexivity|].
      apply advance_eq; [lia|]. unfold start_regs. cbn [app ram advance].
      now rewrite <- !app_assoc.
    + rewrite outb_eq, advance_advance in E2.
      inversion E2; subst; clear E2. split; [reflexivity|].
      apply advance_eq; [lia|]. unfold start_regs. cbn [app].
      now rewrite <- !app_assoc.
  - apply idewait_inv in E1 as (vs & -> & Hr). exists vs. left.
    destruct r0, r; simpl in Hf; try contradiction.
    split; [reflexivity|].
    unfold after_polls. rewrite advance_advance. now apply advance_eq.
Qed.

Lemma idestart_total a bf s :
  bufs s !! a = Some bf ->
  blockno bf < uint32 FSSIZE ->
  Z.quot BSIZE SECTSIZE <= 7 ->
  responsive (hw_in s) 0x1f7 ->
  exists vs,
    idestart (Some a) s
    = (Ok tt, advance (length vs)
                (EvStart (Some a) :: map (EvInb 0x1f7) vs
                   ++ start_regs bf ++ start_cmd bf (ram s)) s).
Proof.
  intros Hb Hlt Hle Hr.
  destruct (idewait_total IO_BASE0 0 (advance 0 [EvStart (Some a)] s) Hr)
    as (x & vs & E).
  destruct (idestart (Some a) s) as [r s'] eqn:Es.
  pose proof Es as Es'. apply (idestart_inv _ _ _ _ _ Hb) in Es'.
  destruct Es' as [(? & _)|[(_ & ? & _)|(_ & _ & vs' & Hc)]]; try lia.
  destruct Hc as [(-> & _)|(-> & ->)]; [|eauto].
  exfalso. unfold idestart, idestart_body in Es.
  unfold bind at 1 in Es. unfold modify at 1 in Es. rewrite emit_advance in Es.
  unfold bind at 1 in Es. unfold getbuf at 1 in Es. simpl bufs in Es.
  rewrite Hb in Es.
  destruct (Z.geb_spec (blockno bf) (uint32 FSSIZE)); [lia|].
  destruct (Z.gtb_spec (Z.quot BSIZE SECTSIZE) 7); [lia|].
  rewrite (bind_ok _ _ _ _ _ E) in Es.
  repeat (rewrite bind_outb in Es; cbv beta in Es).
  destruct (negb (Z.land (flags bf) B_DIRTY =? 0)).
  - rewrite bind_outb, outsl_eq in Es. discriminate.
  - rewrite outb_eq in Es. discriminate.
Qed.

Lemma geometry_quot : geometry -> Z.quot BSIZE SECTSIZE <= 7.
Proof.
  intros (_ & ? & _ & ?). rewrite Z.quot_div_nonneg; unfold SECTSIZE in *; lia.
Qed.

Lemma geometry_fssize : geometry -> uint32 FSSIZE = FSSIZE.
Proof. intros (? & _). unfold uint32. apply Z.mod_small. lia. Qed.


(** ** Which ports are touched *)

Lemma touches_refl ok s : touches ok s s.
Proof. exists []. split; [now rewrite app_nil_r | constructor]. Qed.

Lemma touches_trans ok s1 s2 s3 :
  touches ok s1 s2 -> touches ok s2 s3 -> touches ok s1 s3.
Proof.
  intros (n1 & E1 & H1) (n2 & E2 & H2). exists (n1 ++ n2).
  split; [now rewrite E2, E1, app_assoc | now apply Forall_app].
Qed.

Lemma touches_silent ok s s' : trace s' = trace s -> touches ok s s'.
Proof. intros E. exists []. split; [now rewrite app_nil_r | constructor]. Qed.

Lemma touches_emit ok e s :
  match event_port e with Some p => ok p = true | None => True end ->
  touches ok s (emit e s).
Proof. intros H. exists [e]. split; [reflexivity | repeat constructor; auto]. Qed.

Lemma keeps_touches_modify_silent ok f :
  (forall s, trace (f s) = trace s) -> keeps (touches ok) (modify f).
Proof. intros H. apply keeps_modify. intros. now apply touches_silent. Qed.

Lemma keeps_touches_emit ok e :
  match event_port e with Some p => ok p = true | None => True end ->
  keeps (touches ok) (modify (emit e)).
Proof. intros H. apply keeps_modify. intros. now apply touches_emit. Qed.

Lemma keeps_touches_inb ok port : ok port = true -> keeps (touches ok) (inb port).
Proof.
  intros H s r s' E. unfold inb in E. inversion E; subst.
  eapply touches_trans; [apply touches_silent | apply touches_emit]; simpl; auto.
Qed.

Lemma keeps_touches_outb ok port v : ok port = true -> keeps (touches ok) (outb port v).
Proof. intros H. now apply keeps_touches_emit. Qed.

Lemma keeps_touches_insl ok port dst cnt :
  ok port = true -> keeps (touches ok) (insl port dst cnt).
Proof.
  intros H s r s' E. unfold insl in E. inversion E; subst.
  eexists. split; [reflexivity|]. repeat constructor; auto.
Qed.

Lemma keeps_touches_outsl ok port src cnt :
  ok port = true -> keeps (touches ok) (outsl port src cnt).
Proof.
  intros H s r s' E. unfold outsl in E. inversion E; subst.
  now apply touches_emit.
Qed.

Lemma keeps_touches_acquire ok : keeps (touches ok) acquire.
Proof.
  intros s r s'. unfold acquire. destruct (idelock s); intros E; inversion E;
    subst; now apply touches_silent.
Qed.

Lemma keeps_touches_release ok : keeps (touches ok) release.
Proof. now apply keeps_touches_modify_silent. Qed.

Lemma keeps_touches_putbuf ok a b : keeps (touches ok) (putbuf a b).
Proof. now apply keeps_touches_modify_silent. Qed.

Ltac keeps_touches prim :=
  repeat first
    [ prim
    | apply (keeps_ret _ (touches_refl _))
    | apply (keeps_panic _ (touches_refl _))
    | apply (keeps_spinning _ (touches_refl _))
    | apply (keeps_gets _ (touches_refl _))
    | apply (keeps_getbuf _ (touches_refl _))
    | apply keeps_touches_acquire
    | apply keeps_touches_release
    | apply keeps_touches_putbuf
    | apply keeps_touches_modify_silent; reflexivity
    | apply keeps_touches_emit; exact I
    | apply keeps_touches_inb; reflexivity
    | apply keeps_touches_outb; reflexivity
    | apply keeps_touches_insl; reflexivity
    | apply keeps_touches_outsl; reflexivity
    | apply (keeps_bind _ (touches_trans _)); [|intros ?]
    | match goal with
      | |- keeps _ (if ?c then _ else _) => destruct c
      | |- keeps _ (match ?x with _ => _ end) => destruct x
      end ].

Lemma keeps_touches_idewait_poll ok fuel port :
  ok port = true -> keeps (touches ok) (idewait_poll fuel port).
Proof.
  intros H. induction fuel; simpl.
  - apply (keeps_spinning _ (touches_refl _)).
  - apply (keeps_bind _ (touches_trans _)); [now apply keeps_touches_inb|].
    intros r. destruct (_ =? _); [apply (keeps_ret _ (touches_refl _)) | assumption].
Qed.

Lemma keeps_touches_idewait ok iobase c :
  ok (iobase + ATA_STATUS) = true -> keeps (touches ok) (idewait iobase c).
Proof.
  intros H. unfold idewait.
  keeps_touches ltac:(now apply keeps_touches_idewait_poll).
Qed.

Lemma keeps_touches_idestart b : keeps (touches primary_port) (idestart b).
Proof.
  unfold idestart, idestart_body.
  keeps_touches ltac:(now apply keeps_touches_idewait).
Qed.

Lemma keeps_touches_ideintr : keeps (touches primary_port) ideintr.
Proof.
  unfold ideintr, ideintr_read, ideintr_wake, ideintr_next, wakeup, update_buf.
  keeps_touches ltac:(first [ now apply keeps_touches_idewait
                            | apply keeps_touches_idestart ]).
Qed.

Lemma keeps_touches_find_tail ok fuel pp : keeps (touches ok) (find_tail fuel pp).
Proof.
  revert pp. induction fuel; intros pp; simpl.
  - apply (keeps_spinning _ (touches_refl _)).
  - unfold read_slot. keeps_touches ltac:(apply IHfuel).
Qed.

Lemma keeps_touches_iderw_wait b : keeps (touches primary_port) (iderw_wait b).
Proof. unfold iderw_wait, sleep. keeps_touches fail. Qed.

Lemma keeps_touches_iderw_begin b : keeps (touches primary_port) (iderw_begin b).
Proof.
  unfold iderw_begin, iderw_enqueue, iderw_append, queue_tail, write_slot,
    update_buf.
  keeps_touches ltac:(first [ apply keeps_touches_find_tail
                            | apply keeps_touches_idestart
                            | apply keeps_touches_iderw_wait ]).
Qed.

Lemma keeps_touches_iderw_resume b : keeps (touches primary_port) (iderw_resume b).
Proof.
  unfold iderw_resume. keeps_touches ltac:(apply keeps_touches_iderw_wait).
Qed.

Lemma keeps_touches_read_swap_loop n dst :
  keeps (touches secondary_port) (read_swap_loop n IO_BASE1 dst).
Proof.
  revert dst. induction n; intros dst; simpl.
  - keeps_touches fail.
  - keeps_touches ltac:(first [ now apply keeps_touches_idewait | apply IHn ]).
Qed.

Lemma keeps_touches_write_swap_loop n src :
  keeps (touches secondary_port) (write_swap_loop n IO_BASE1 src).
Proof.
  revert src. induction n; intros src; simpl.
  - keeps_touches fail.
  - keeps_touches ltac:(first [ now apply keeps_touches_idewait | apply IHn ]).
Qed.

Lemma keeps_touches_swap_setup secno cmd :
  keeps (touches secondary_port) (swap_setup secno cmd).
Proof.
  unfold swap_setup. keeps_touches ltac:(now apply keeps_touches_idewait).
Qed.

Lemma keeps_touches_read_swap secno dst :
  keeps (touches secondary_port) (read_swap secno dst).
Proof.
  unfold read_swap.
  keeps_touches ltac:(first [ apply keeps_touches_swap_setup
                            | apply keeps_touches_read_swap_loop ]).
Qed.

Lemma keeps_touches_write_swap secno src :
  keeps (touches secondary_port) (write_swap secno src).
Proof.
  unfold write_swap.
  keeps_touches ltac:(first [ apply keeps_touches_swap_setup
                            | apply keeps_touches_write_swap_loop ]).
Qed.

(** ** Properties of idestart *)

(** C4.  The out-of-range check of idestart is exact at FSSIZE: a block
    number of FSSIZE or more panics with "incorrect blockno" before any
    port is read or written (only the call itself is on the trace), and
    block number FSSIZE - 1 passes: with a controller that answers the
    busy-wait, idestart returns after writing the registers and the
    command. *)
Theorem idestart_blockno_boundary a bf s :
  geometry ->
  bufs s !! a = Some bf ->
  (FSSIZE <= blockno bf ->
   exists s', idestart (Some a) s = (Panic "incorrect blockno", s') /\
     clock s' = clock s /\ trace s' = trace s ++ [EvStart (Some a)]) /\
  (blockno bf = FSSIZE - 1 ->
   responsive (hw_in s) 0x1f7 ->
   exists vs s', idestart (Some a) s = (Ok tt, s') /\
     trace s' = trace s ++ EvStart (Some a) :: map (EvInb 0x1f7) vs
                  ++ start_regs bf ++ start_cmd bf (ram s)).
Proof.
  intros G Hb. pose proof (geometry_fssize G) as EF.
  pose proof (geometry_quot G) as Hq. split.
  - intros Hge. destruct (idestart (Some a) s) as [r s'] eqn:E.
    apply (idestart_inv _ _ _ _ _ Hb) in E.
    destruct E as [(_ & -> & ->)|[(? & _)|(? & _)]]; try lia.
    eexists. split; [reflexivity|]. simpl. split; [lia | reflexivity].
  - intros Hn Hr.
    destruct (idestart_total a bf s Hb) as (vs & E); auto; [lia|].
    exists vs. eexists. split; [exact E | reflexivity].
Qed.


(** The busy-wait does not look at the bufs. *)
Lemma idewait_poll_with_bufs fuel port m s :
  idewait_poll fuel port (with_bufs m s)
  = (fst (idewait_poll fuel port s), with_bufs m (snd (idewait_poll fuel port s))).
Proof.
  revert s. induction fuel as [|fuel IH]; intros s; [reflexivity|].
  simpl. unfold bind, inb. simpl.
  destruct (_ =? _); [reflexivity|].
  apply (IH (emit (EvInb port (uint8 (hw_in s (clock s) port))) (tick s))).
Qed.

Lemma idewait_with_bufs iobase c m s :
  idewait iobase c (with_bufs m s)
  = (fst (idewait iobase c s), with_bufs m (snd (idewait iobase c s))).
Proof.
  unfold idewait, bind. rewrite idewait_poll_with_bufs.
  destruct (idewait_poll spin (iobase + ATA_STATUS) s) as [[v| | |] s1]; simpl;
    try reflexivity.
  destruct (_ && _); reflexivity.
Qed.

Lemma drive_byte_bits d d' x i :
  i <> 4 ->
  Z.testbit (uint8 (Z.lor (Z.lor 0xe0 (Z.shiftl (Z.land d 1) 4)) x)) i
  = Z.testbit (uint8 (Z.lor (Z.lor 0xe0 (Z.shiftl (Z.land d' 1) 4)) x)) i.
Proof.
  intros Hi. unfold uint8. change 256 with (2 ^ 8).
  destruct (Z.ltb_spec i 0); [now rewrite !Z.testbit_neg_r|].
  destruct (Z.ltb_spec i 8);
    [|now rewrite !Z.mod_pow2_bits_high by lia].
  rewrite !Z.mod_pow2_bits_low, !Z.lor_spec, !Z.shiftl_spec, !Z.land_spec by lia.
  replace (Z.testbit 1 (i - 4)) with false; [now rewrite !andb_false_r|].
  destruct (Z.ltb_spec (i - 4) 0); [now rewrite Z.testbit_neg_r|].
  symmetry. change 1 with (2 ^ 0). rewrite Z.pow2_bits_eqb by lia.
  apply Z.eqb_neq. lia.
Qed.

Lemma Forall2_same_refl l : Forall2 same_but_drive_bit l l.
Proof. induction l; constructor; auto. now left. Qed.

(** Changing the device id of a request changes one thing in what
    idestart does: bit 4 of the byte written to the drive/head register. *)
Lemma idestart_dev a bf d s r s' :
  bufs s !! a = Some bf ->
  idestart (Some a) s = (r, s') ->
  exists s2',
    idestart (Some a) (with_bufs (<[a := set_dev d bf]> (bufs s)) s) = (r, s2') /\
    Forall2 same_but_drive_bit (trace s') (trace s2').
Proof.
  intros Hb E. unfold idestart, idestart_body in *.
  unfold bind at 1 in E. unfold modify at 1 in E.
  unfold bind at 1. unfold modify at 1.
  unfold bind at 1 in E. unfold getbuf at 1 in E. simpl bufs in E. rewrite Hb in E.
  unfold bind at 1. unfold getbuf at 1. simpl bufs. rewrite lookup_insert_eq.
  change (blockno (set_dev d bf)) with (blockno bf).
  change (flags (set_dev d bf)) with (flags bf).
  change (data (set_dev d bf)) with (data bf).
  change (dev (set_dev d bf)) with d.
  destruct (blockno bf >=? uint32 FSSIZE).
  { inversion E; subst. eexists; split; [reflexivity|]. apply Forall2_same_refl. }
  destruct (BSIZE `quot` SECTSIZE >? 7).
  { inversion E; subst. eexists; split; [reflexivity|]. apply Forall2_same_refl. }
  unfold bind at 1 in E. unfold bind at 1.
  change (emit (EvStart (Some a)) (with_bufs (<[a:=set_dev d bf]> (bufs s)) s))
    with (with_bufs (<[a:=set_dev d bf]> (bufs s)) (emit (EvStart (Some a)) s)).
  rewrite idewait_with_bufs.
  destruct (idewait IO_BASE0 0 (emit (EvStart (Some a)) s)) as [[x| | |] s1];
    cbn [fst snd];
    try (inversion E; subst; eexists; split; [reflexivity|];
         apply Forall2_same_refl).
  repeat (rewrite bind_outb in E; cbv beta in E; rewrite ?advance_advance in E).
  repeat (rewrite bind_outb; cbv beta; rewrite ?advance_advance).
  destruct (negb (Z.land (flags bf) B_DIRTY =? 0)).
  - rewrite bind_outb, outsl_eq, !advance_advance in E.
    rewrite bind_outb, outsl_eq, !advance_advance.
    inversion E; subst; clear E. eexists; split; [reflexivity|].
    cbn [trace advance with_bufs ram app].
    apply Forall2_app; [apply Forall2_same_refl|].
    repeat (apply List.Forall2_cons;
            [first [ left; reflexivity
                   | right; do 2 eexists;
                     (split; [reflexivity|split; [reflexivity|]]);
                     intros; now apply drive_byte_bits ] |]).
    apply List.Forall2_nil.
  - rewrite outb_eq, !advance_advance in E.
    rewrite outb_eq, !advance_advance.
    inversion E; subst; clear E. eexists; split; [reflexivity|].
    cbn [trace advance with_bufs ram app].
    apply Forall2_app; [apply Forall2_same_refl|].
    repeat (apply List.Forall2_cons;
            [first [ left; reflexivity
                   | right; do 2 eexists;
                     (split; [reflexivity|split; [reflexivity|]]);
                     intros; now apply drive_byte_bits ] |]).
    apply List.Forall2_nil.
Qed.

(** C10 as the code has it.  Whatever request it is given, idestart
    reads and writes primary-channel ports only (0x1f0-0x1f7 and 0x3f6),
    and the device id of the request decides bit 4 of the drive/head byte
    and nothing else.  So iderw and ideintr never touch a port of the
    secondary channel (0x170-0x177, 0x376), no port belongs to both
    channels, and the swap calls touch secondary ports only. *)
Theorem idestart_primary_channel :
  (forall b s r s', idestart b s = (r, s') -> touches primary_port s s') /\
  (forall a bf d s r s',
     bufs s !! a = Some bf ->
     idestart (Some a) s = (r, s') ->
     exists s2',
       idestart (Some a) (with_bufs (<[a := set_dev d bf]> (bufs s)) s) = (r, s2') /\
       Forall2 same_but_drive_bit (trace s') (trace s2')) /\
  (forall o s r s',
     step o s = (r, s') ->
     match o with
     | OpReadSwap _ _ | OpWriteSwap _ _ => touches secondary_port s s'
     | _ => touches primary_port s s'
     end) /\
  (forall p, primary_port p = true -> secondary_port p = false).
Proof.
  split; [|split; [|split]].
  - intros b s r s' E. eapply keeps_touches_idestart; eauto.
  - intros. eapply idestart_dev; eauto.
  - intros o s r s' E. destruct o; simpl in E.
    + revert E. apply (keeps_bind _ (touches_trans _));
        [apply keeps_touches_iderw_begin | intros; apply (keeps_ret _ (touches_refl _))].
    + revert E. apply (keeps_bind _ (touches_trans _));
        [apply keeps_touches_iderw_resume | intros; apply (keeps_ret _ (touches_refl _))].
    + eapply keeps_touches_ideintr; eauto.
    + revert E. apply (keeps_bind _ (touches_trans _));
        [apply keeps_touches_read_swap | intros; apply (keeps_ret _ (touches_refl _))].
    + revert E. apply (keeps_bind _ (touches_trans _));
        [apply keeps_touches_write_swap | intros; apply (keeps_ret _ (touches_refl _))].
  - intros p. unfold primary_port, secondary_port. lia.
Qed.

(** ** The entry checks of iderw *)

Lemma iderw_enqueue_eq b bf s :
  bufs s !! b = Some bf ->
  iderw_enqueue b s
  = if Z.land (flags bf) B_BUSY =? 0 then (Panic "iderw: buf not busy", s)
    else if Z.land (flags bf) (Z.lor B_VALID B_DIRTY) =? B_VALID
    then (Panic "iderw: nothing to do", s)
    else if negb (dev bf =? 0) && (havedisk1 s =? 0)
    then (Panic "iderw: ide disk 1 not present", s)
    else iderw_append b s.
Proof.
  intros Hb. unfold iderw_enqueue, bind at 1, getbuf. rewrite Hb.
  destruct (_ =? 0); [reflexivity|].
  destruct (_ =? B_VALID); [reflexivity|].
  unfold bind, gets. destruct (_ && _); reflexivity.
Qed.

Lemma panics_bind {A B} l (m : M A) (k : A -> M B) :
  panics_within l m -> (forall a, panics_within l (k a)) ->
  panics_within l (bind m k).
Proof.
  intros Hm Hk s msg s' E.
  apply bind_inv in E as [(a & s1 & _ & E2)|(r0 & E1 & Hf)].
  - eapply Hk; eauto.
  - destruct r0; simpl in Hf; try contradiction. subst. eapply Hm; eauto.
Qed.

Lemma panics_total {A} l (m : M A) :
  (forall s, exists a s', m s = (Ok a, s')) -> panics_within l m.
Proof. intros H s msg s' E. destruct (H s) as (a & s1 & E1). congruence. Qed.

Lemma panics_getbuf l a : panics_within l (getbuf a).
Proof.
  intros s msg s'. unfold getbuf. destruct (bufs s !! a); discriminate.
Qed.

Lemma panics_acquire l : panics_within l acquire.
Proof. intros s msg s'. unfold acquire. destruct (idelock s); discriminate. Qed.

Lemma panics_spinning {A} l : panics_within l (@spinning A).
Proof. intros s msg s'. discriminate. Qed.

Ltac no_panics prim :=
  repeat first
    [ prim
    | apply panics_getbuf
    | apply panics_acquire
    | apply panics_spinning
    | apply panics_total; intros; do 2 eexists; reflexivity
    | apply panics_bind; [|intros ?]
    | match goal with
      | |- panics_within _ (if ?c then _ else _) => destruct c
      | |- panics_within _ (match ?x with _ => _ end) => destruct x
      end ].

Lemma panics_idewait_poll l fuel port : panics_within l (idewait_poll fuel port).
Proof. induction fuel; simpl; no_panics assumption. Qed.

Lemma panics_idewait l iobase c : panics_within l (idewait iobase c).
Proof. unfold idewait. no_panics ltac:(apply panics_idewait_poll). Qed.

Lemma panics_idestart b : panics_within start_panics (idestart b).
Proof.
  unfold idestart, idestart_body.
  no_panics ltac:(first [ apply panics_idewait
                        | solve [ intros s msg s' E; inversion E;
                                  unfold start_panics; simpl; auto ] ]).
Qed.

Lemma panics_find_tail l fuel pp : panics_within l (find_tail fuel pp).
Proof.
  revert pp. induction fuel; intros pp; simpl; unfold read_slot;
    no_panics ltac:(apply IHfuel).
Qed.

Lemma panics_iderw_append b : panics_within start_panics (iderw_append b).
Proof.
  unfold iderw_append, queue_tail, write_slot, update_buf.
  no_panics ltac:(first [ apply panics_find_tail | apply panics_idestart ]).
Qed.

Lemma panics_iderw_wait l b : panics_within l (iderw_wait b).
Proof. unfold iderw_wait, sleep, release. no_panics fail. Qed.

(** The panics of iderw, case by case. *)
Lemma iderw_begin_panic b bf s msg s' :
  bufs s !! b = Some bf ->
  iderw_begin b s = (Panic msg, s') ->
  (Z.land (flags bf) B_BUSY = 0 /\ msg = "iderw: buf not busy" /\ s' = s) \/
  (Z.land (flags bf) B_BUSY <> 0 /\
   Z.land (flags bf) (Z.lor B_VALID B_DIRTY) = B_VALID /\
   msg = "iderw: nothing to do" /\ s' = s) \/
  (Z.land (flags bf) B_BUSY <> 0 /\
   Z.land (flags bf) (Z.lor B_VALID B_DIRTY) <> B_VALID /\
   dev bf <> 0 /\ havedisk1 s = 0 /\
   msg = "iderw: ide disk 1 not present" /\ s' = s) \/
  (Z.land (flags bf) B_BUSY <> 0 /\
   Z.land (flags bf) (Z.lor B_VALID B_DIRTY) <> B_VALID /\
   (dev bf = 0 \/ havedisk1 s <> 0) /\ In msg start_panics).
Proof.
  intros Hb E. unfold iderw_begin in E.
  apply bind_inv in E as [(a & s1 & _ & E2)|(r0 & E1 & Hf)].
  { exfalso. eapply (panics_iderw_wait [] b); eauto. }
  destruct r0; simpl in Hf; try contradiction. subst msg0.
  rewrite (iderw_enqueue_eq b bf s Hb) in E1.
  destruct (Z.eqb_spec (Z.land (flags bf) B_BUSY) 0).
  { left. inversion E1; auto. }
  destruct (Z.eqb_spec (Z.land (flags bf) (Z.lor B_VALID B_DIRTY)) B_VALID).
  { right; left. inversion E1; auto. }
  destruct (Z.eqb_spec (dev bf) 0), (Z.eqb_spec (havedisk1 s) 0); simpl in E1;
    try (right; right; right; repeat split; auto;
         eapply panics_iderw_append; eauto).
  right; right; left. inversion E1; subst. repeat split; auto.
Qed.

(** C3.  iderw panics on a violated caller contract, and only then: when
    BUSY is clear it halts with "buf not busy", and when BUSY is set but
    VALID is set with DIRTY clear it halts with "nothing to do", in both
    cases with the driver state (and so the queue) as it was; for any other
    flag word neither of the two panics is the outcome. *)
Theorem iderw_contract b bf s :
  flag_bits ->
  bufs s !! b = Some bf ->
  (has_flag (flags bf) B_BUSY = false ->
   iderw_begin b s = (Panic "iderw: buf not busy", s)) /\
  (has_flag (flags bf) B_BUSY = true ->
   has_flag (flags bf) B_VALID = true ->
   has_flag (flags bf) B_DIRTY = false ->
   iderw_begin b s = (Panic "iderw: nothing to do", s)) /\
  (has_flag (flags bf) B_BUSY = true ->
   has_flag (flags bf) B_VALID = false \/ has_flag (flags bf) B_DIRTY = true ->
   forall r s', iderw_begin b s = (r, s') ->
     r <> Panic "iderw: buf not busy" /\ r <> Panic "iderw: nothing to do").
Proof.
  intros Hbits Hb. pose proof (settled_test (flags bf) Hbits) as Hs.
  pose proof (iderw_enqueue_eq b bf s Hb) as E.
  unfold iderw_begin, bind.
  split; [|split].
  - intros HB. apply has_flag_clear, Z.eqb_eq in HB. now rewrite E, HB.
  - intros HB HV HD. rewrite E, Hs, HV, HD. unfold has_flag in HB.
    now destruct (Z.land (flags bf) B_BUSY =? 0).
  - intros HB HVD r s' Er.
    assert (Hn : Z.land (flags bf) (Z.lor B_VALID B_DIRTY) <> B_VALID).
    { apply Z.eqb_neq. rewrite Hs. destruct HVD as [-> | ->]; auto.
      apply andb_false_r. }
    assert (Hb0 : Z.land (flags bf) B_BUSY <> 0).
    { unfold has_flag in HB.
      now destruct (Z.eqb_spec (Z.land (flags bf) B_BUSY) 0). }
    destruct r as [x|msg| |]; try (split; discriminate).
    destruct (iderw_begin_panic b bf s msg s' Hb) as [H|[H|[H|H]]].
    { unfold iderw_begin, bind. exact Er. }
    + tauto.
    + tauto.
    + destruct H as (_ & _ & _ & _ & -> & _). split; discriminate.
    + destruct H as (_ & _ & _ & Hin). simpl in Hin.
      destruct Hin as [<-|[<-|[]]]; split; discriminate.
Qed.

(** ** The presence flags *)

Lemma presence_refl s : presence_same s s.
Proof. split; reflexivity. Qed.

Lemma presence_trans s1 s2 s3 :
  presence_same s1 s2 -> presence_same s2 s3 -> presence_same s1 s3.
Proof. intros (A1 & A2) (B1 & B2). split; congruence. Qed.

Lemma keeps_presence_modify f :
  (forall s, havedisk1 (f s) = havedisk1 s /\ havedisk2 (f s) = havedisk2 s) ->
  keeps presence_same (modify f).
Proof. intros H. apply keeps_modify. intros s. apply H. Qed.

Lemma keeps_presence_acquire : keeps presence_same acquire.
Proof.
  intros s r s'. unfold acquire. destruct (idelock s); intros E; inversion E;
    subst; split; reflexivity.
Qed.

Lemma keeps_presence_inb port : keeps presence_same (inb port).
Proof. intros s r s' E. inversion E; subst. split; reflexivity. Qed.

Lemma keeps_presence_insl port dst cnt : keeps presence_same (insl port dst cnt).
Proof. intros s r s' E. inversion E; subst. split; reflexivity. Qed.

Lemma keeps_presence_outsl port src cnt : keeps presence_same (outsl port src cnt).
Proof. intros s r s' E. inversion E; subst. split; reflexivity. Qed.

Ltac keeps_presence prim :=
  repeat first
    [ prim
    | apply (keeps_ret _ presence_refl)
    | apply (keeps_panic _ presence_refl)
    | apply (keeps_spinning _ presence_refl)
    | apply (keeps_gets _ presence_refl)
    | apply (keeps_getbuf _ presence_refl)
    | apply keeps_presence_acquire
    | apply keeps_presence_inb
    | apply keeps_presence_insl
    | apply keeps_presence_outsl
    | apply keeps_presence_modify; intros; split; reflexivity
    | apply (keeps_bind _ presence_trans); [|intros ?]
    | match goal with
      | |- keeps _ (if ?c then _ else _) => destruct c
      | |- keeps _ (match ?x with _ => _ end) => destruct x
      end ].

Lemma keeps_presence_idewait iobase c : keeps presence_same (idewait iobase c).
Proof.
  unfold idewait.
  assert (H : forall fuel port, keeps presence_same (idewait_poll fuel port)).
  { induction fuel; intros port; simpl; keeps_presence ltac:(apply IHfuel). }
  keeps_presence ltac:(apply H).
Qed.

Lemma keeps_presence_idestart b : keeps presence_same (idestart b).
Proof.
  unfold idestart, idestart_body, outb.
  keeps_presence ltac:(apply keeps_presence_idewait).
Qed.

Lemma keeps_presence_find_tail fuel pp : keeps presence_same (find_tail fuel pp).
Proof.
  revert pp. induction fuel; intros pp; simpl; unfold read_slot;
    keeps_presence ltac:(apply IHfuel).
Qed.

Lemma keeps_presence_iderw_wait b : keeps presence_same (iderw_wait b).
Proof. unfold iderw_wait, sleep, release. keeps_presence fail. Qed.

Lemma keeps_presence_iderw_begin b : keeps presence_same (iderw_begin b).
Proof.
  unfold iderw_begin, iderw_enqueue, iderw_append, queue_tail, write_slot,
    update_buf, putbuf.
  keeps_presence ltac:(first [ apply keeps_presence_find_tail
                             | apply keeps_presence_idestart
                             | apply keeps_presence_iderw_wait ]).
Qed.

Lemma keeps_presence_iderw_resume b : keeps presence_same (iderw_resume b).
Proof.
  unfold iderw_resume. keeps_presence ltac:(apply keeps_presence_iderw_wait).
Qed.

Lemma keeps_presence_ideintr : keeps presence_same ideintr.
Proof.
  unfold ideintr, ideintr_read, ideintr_wake, ideintr_next, update_buf, putbuf,
    wakeup, release.
  keeps_presence ltac:(first [ apply keeps_presence_idewait
                             | apply keeps_presence_idestart ]).
Qed.

Lemma keeps_presence_swap_setup secno cmd : keeps presence_same (swap_setup secno cmd).
Proof.
  unfold swap_setup, outb. keeps_presence ltac:(apply keeps_presence_idewait).
Qed.

Lemma keeps_presence_read_swap secno dst : keeps presence_same (read_swap secno dst).
Proof.
  unfold read_swap.
  assert (H : forall n d, keeps presence_same (read_swap_loop n IO_BASE1 d)).
  { induction n; intros d; simpl; unfold release;
      keeps_presence ltac:(first [ apply keeps_presence_idewait | apply IHn ]). }
  keeps_presence ltac:(first [ apply keeps_presence_swap_setup | apply H ]).
Qed.

Lemma keeps_presence_write_swap secno src : keeps presence_same (write_swap secno src).
Proof.
  unfold write_swap.
  assert (H : forall n d, keeps presence_same (write_swap_loop n IO_BASE1 d)).
  { induction n; intros d; simpl; unfold release;
      keeps_presence ltac:(first [ apply keeps_presence_idewait | apply IHn ]). }
  keeps_presence ltac:(first [ apply keeps_presence_swap_setup | apply H ]).
Qed.

Lemma keeps_presence_run ops : keeps presence_same (run ops).
Proof.
  induction ops as [|o ops IH]; cbn [run].
  - apply (keeps_ret _ presence_refl).
  - apply (keeps_bind _ presence_trans); [|intros; exact IH].
    destruct o; cbn [step].
    + apply (keeps_bind _ presence_trans);
        [apply keeps_presence_iderw_begin | intros; apply (keeps_ret _ presence_refl)].
    + apply (keeps_bind _ presence_trans);
        [apply keeps_presence_iderw_resume | intros; apply (keeps_ret _ presence_refl)].
    + apply keeps_presence_ideintr.
    + apply (keeps_bind _ presence_trans);
        [apply keeps_presence_read_swap | intros; apply (keeps_ret _ presence_refl)].
    + apply (keeps_bind _ presence_trans);
        [apply keeps_presence_write_swap | intros; apply (keeps_ret _ presence_refl)].
Qed.

Lemma probe_disk1 n port s r s' :
  probe n port (modify (with_havedisk1 1)) s = (r, s') ->
  havedisk2 s' = havedisk2 s.
Proof.
  revert s. induction n as [|n IH]; intros s E; simpl in E.
  - now inversion E.
  - unfold bind, inb in E. destruct (negb (_ =? 0)).
    + now inversion E.
    + apply IH in E. exact E.
Qed.

Lemma probe_disk2 n port s r s' :
  probe n port (modify (with_havedisk2 1)) s = (r, s') ->
  havedisk1 s' = havedisk1 s.
Proof.
  revert s. induction n as [|n IH]; intros s E; simpl in E.
  - now inversion E.
  - unfold bind, inb in E. destruct (negb (_ =? 0)).
    + now inversion E.
    + apply IH in E. exact E.
Qed.

(** ideinit returns only with both presence flags set. *)
Lemma ideinit_presence s s' :
  ideinit s = (Ok tt, s') -> havedisk1 s' <> 0 /\ havedisk2 s' <> 0.
Proof.
  unfold ideinit. intros E.
  apply bind_inv in E as [(? & s1 & _ & E)|(r0 & _ & Hf)];
    [|destruct r0; contradiction].
  apply bind_inv in E as [(? & s2 & _ & E)|(r0 & _ & Hf)];
    [|destruct r0; contradiction].
  apply bind_inv in E as [(? & s3 & _ & E)|(r0 & _ & Hf)];
    [|destruct r0; contradiction].
  apply bind_inv in E as [(? & s4 & _ & E)|(r0 & _ & Hf)];
    [|destruct r0; contradiction].
  unfold bind at 1 in E. unfold gets at 1 in E.
  destruct (Z.eqb_spec (havedisk1 s4) 0) as [|H1]; [discriminate|].
  apply bind_inv in E as [(? & s5 & E5 & E)|(r0 & _ & Hf)];
    [|destruct r0; contradiction].
  apply keeps_presence_idewait in E5 as (A5 & _).
  apply bind_inv in E as [(? & s6 & E6 & E)|(r0 & _ & Hf)];
    [|destruct r0; contradiction].
  rewrite outb_eq in E6. inversion E6; subst s6.
  apply bind_inv in E as [(? & s7 & E7 & E)|(r0 & _ & Hf)];
    [|destruct r0; contradiction].
  apply probe_disk2 in E7. cbn [havedisk1 advance] in E7.
  unfold bind at 1 in E. unfold gets at 1 in E.
  destruct (Z.eqb_spec (havedisk2 s7) 0) as [|H2]; [discriminate|].
  rewrite outb_eq in E. inversion E; subst s'. cbn [havedisk1 havedisk2 advance].
  split; [congruence | exact H2].
Qed.

(** C9.  The presence gate of iderw: a request for a nonzero device while
    havedisk1 is unset panics with the driver state (and so the queue) as it
    was, and for a request that meets the flag contract the panic is the
    one of the gate; a request for device 0, or any request once
    havedisk1 is set, never gets the gate's panic.  The flag is set by
    initialization and by nothing else: ideinit returns only with both
    presence flags set, and no later operation changes them. *)
Theorem iderw_presence_gate b bf s :
  bufs s !! b = Some bf ->
  (dev bf <> 0 -> havedisk1 s = 0 ->
   exists msg, iderw_begin b s = (Panic msg, s) /\
     (Z.land (flags bf) B_BUSY <> 0 ->
      Z.land (flags bf) (Z.lor B_VALID B_DIRTY) <> B_VALID ->
      msg = "iderw: ide disk 1 not present")) /\
  (dev bf = 0 \/ havedisk1 s <> 0 ->
   forall r s', iderw_begin b s = (r, s') ->
     r <> Panic "iderw: ide disk 1 not present") /\
  (forall s0 s1 ops,
     ideinit s0 = (Ok tt, s1) -> run ops s1 = (Ok tt, s) ->
     havedisk1 s <> 0 /\ havedisk2 s <> 0).
Proof.
  intros Hb. pose proof (iderw_enqueue_eq b bf s Hb) as E.
  split; [|split].
  3:{ intros s0 s1 ops Ei Er. apply ideinit_presence in Ei as (H1 & H2).
      apply keeps_presence_run in Er as (A1 & A2). split; congruence. }
  - intros Hd Hh. unfold iderw_begin, bind. rewrite E.
    destruct (Z.eqb_spec (Z.land (flags bf) B_BUSY) 0);
      [eexists; split; [reflexivity | tauto]|].
    destruct (Z.eqb_spec (Z.land (flags bf) (Z.lor B_VALID B_DIRTY)) B_VALID);
      [eexists; split; [reflexivity | tauto]|].
    destruct (Z.eqb_spec (dev bf) 0); [contradiction|].
    rewrite Hh. simpl. eexists; split; [reflexivity | auto].
  - intros Hok r s' Er. destruct r as [x|msg| |]; try discriminate.
    destruct (iderw_begin_panic b bf s msg s' Hb Er) as [H|[H|[H|H]]].
    + destruct H as (_ & -> & _). discriminate.
    + destruct H as (_ & _ & -> & _). discriminate.
    + tauto.
    + destruct H as (_ & _ & _ & Hin). simpl in Hin.
      destruct Hin as [<-|[<-|[]]]; discriminate.
Qed.

(** ** The interrupt handler *)

Lemma ideintr_idle s :
  idequeue s = None -> idelock s = false -> ideintr s = (Ok tt, s).
Proof.
  intros Hq Hl. unfold ideintr, bind, acquire. rewrite Hl.
  unfold gets. simpl. rewrite Hq. unfold release, modify.
  destruct s; simpl in *; subst. reflexivity.
Qed.

(** C7.  A spurious interrupt is a no-op: with nothing queued, ideintr
    returns normally and the driver state after it (the queue, every buf,
    memory, the trace of port accesses and wakeups) is the state before
    it. *)
Theorem ideintr_spurious s :
  idequeue s = None ->
  idelock s = false ->
  ideintr s = (Ok tt, s) /\
  (forall r s', ideintr s = (r, s') ->
     r = Ok tt /\ idequeue s' = None /\ bufs s' = bufs s /\ trace s' = trace s).
Proof.
  intros Hq Hl. pose proof (ideintr_idle s Hq Hl) as E.
  split; [exact E|]. intros r s' E'. rewrite E in E'. inversion E'; subst. auto.
Qed.

Lemma io_only_refl s : io_only s s.
Proof.
  repeat split; auto. exists []. split; [now rewrite app_nil_r | constructor].
Qed.

Lemma io_only_trans s1 s2 s3 : io_only s1 s2 -> io_only s2 s3 -> io_only s1 s3.
Proof.
  intros (A1 & A2 & A3 & A4 & A5 & A6 & A7 & n1 & E1 & H1)
         (B1 & B2 & B3 & B4 & B5 & B6 & B7 & n2 & E2 & H2).
  repeat split; try congruence.
  exists (n1 ++ n2). split; [now rewrite E2, E1, app_assoc | now apply Forall_app].
Qed.

Lemma io_only_advance n es s :
  Forall (fun e => quiet e = true) es -> io_only s (advance n es s).
Proof. intros H. repeat split; auto. exists es. auto. Qed.

Lemma quiet_polls port vs : Forall (fun e => quiet e = true) (map (EvInb port) vs).
Proof. induction vs; simpl; constructor; auto. Qed.

Lemma keeps_io_idewait iobase c : keeps io_only (idewait iobase c).
Proof.
  intros s r s' E. apply idewait_inv in E as (vs & -> & _).
  apply io_only_advance, quiet_polls.
Qed.

Lemma keeps_io_outb port v : keeps io_only (outb port v).
Proof.
  intros s r s' E. rewrite outb_eq in E. inversion E; subst.
  apply io_only_advance. repeat constructor.
Qed.

Lemma keeps_io_outsl port src cnt : keeps io_only (outsl port src cnt).
Proof.
  intros s r s' E. rewrite outsl_eq in E. inversion E; subst.
  apply io_only_advance. repeat constructor.
Qed.

Ltac keeps_io prim :=
  repeat first
    [ prim
    | apply (keeps_ret _ io_only_refl)
    | apply (keeps_panic _ io_only_refl)
    | apply (keeps_spinning _ io_only_refl)
    | apply (keeps_gets _ io_only_refl)
    | apply (keeps_getbuf _ io_only_refl)
    | apply keeps_io_idewait
    | apply keeps_io_outb
    | apply keeps_io_outsl
    | apply (keeps_bind _ io_only_trans); [|intros ?]
    | match goal with
      | |- keeps _ (if ?c then _ else _) => destruct c
      | |- keeps _ (match ?x with _ => _ end) => destruct x
      end ].

(** After the call is recorded, idestart only polls and writes ports. *)
Lemma keeps_io_idestart_body b : keeps io_only (idestart_body b).
Proof. unfold idestart_body. keeps_io fail. Qed.

Lemma idestart_frame b s r s' :
  idestart b s = (r, s') -> io_only (emit (EvStart b) s) s'.
Proof.
  unfold idestart. intros E.
  apply bind_inv in E as [(x & s1 & E1 & E2)|(r0 & E1 & Hf)].
  - inversion E1; subst. eapply keeps_io_idestart_body; eauto.
  - inversion E1; subst. contradiction.
Qed.

Lemma update_buf_eq a g bf s :
  bufs s !! a = Some bf ->
  update_buf a g s = (Ok tt, with_bufs (<[a := g bf]> (bufs s)) s).
Proof. intros Hb. unfold update_buf, bind, getbuf. now rewrite Hb. Qed.

Lemma ideintr_wake_eq a bf s :
  bufs s !! a = Some bf ->
  ideintr_wake a s
  = (Ok tt, emit (EvWakeup a)
              (with_bufs (<[a := set_flags (completed (flags bf)) bf]> (bufs s)) s)).
Proof.
  intros Hb. unfold ideintr_wake.
  rewrite (bind_ok _ _ _ _ _ (update_buf_eq a _ bf s Hb)).
  erewrite bind_ok; [|apply update_buf_eq; simpl; apply lookup_insert_eq].
  unfold wakeup, modify. do 2 f_equal. unfold with_bufs; simpl.
  now rewrite insert_insert_eq.
Qed.

Lemma ideintr_read_inv bf s r s1 :
  ideintr_read bf s = (r, s1) ->
  (has_flag (flags bf) B_DIRTY = true /\ r = Ok tt /\ s1 = s) \/
  (has_flag (flags bf) B_DIRTY = false /\
   exists rw vs,
     idewait IO_BASE0 1 s = (rw, after_polls 0x1f7 vs s) /\
     ((rw = Spin /\ r = Spin /\ s1 = after_polls 0x1f7 vs s) \/
      (exists v, last vs = Some v /\ Z.land v ATA_SR_BSY = 0 /\ r = Ok tt /\
         ((faulty v = true /\ rw = Ok (-1) /\ s1 = after_polls 0x1f7 vs s) \/
          (faulty v = false /\ rw = Ok 0 /\
           s1 = pulled bf (after_polls 0x1f7 vs s)))))).
Proof.
  unfold ideintr_read, has_flag. intros E.
  destruct (Z.land (flags bf) B_DIRTY =? 0); [right | left; inversion E; auto].
  split; [reflexivity|].
  destruct (idewait IO_BASE0 1 s) as [rw sw] eqn:Ew.
  pose proof Ew as Hw. apply idewait_inv in Hw as (vs & -> & Hr).
  exists rw, vs. split; [reflexivity|].
  unfold bind in E. rewrite Ew in E.
  destruct rw as [x| | |]; try contradiction.
  - right. destruct Hr as (v & Hl & Hv & ->). exists v.
    change (negb (1 =? 0)) with true in *. cbn [andb] in *.
    destruct (faulty v).
    + inversion E; subst. repeat split; auto.
    + unfold pulled. simpl in E. destruct (insl _ _ _ _) as [ri si] eqn:Ei.
      unfold insl in Ei. inversion Ei; subst. inversion E; subst.
      repeat split; auto.
  - left. inversion E; auto.
Qed.

Lemma ideintr_next_inv s r s' :
  ideintr_next s = (r, s') ->
  (idequeue s = None /\ r = Ok tt /\ s' = s) \/
  (exists n, idequeue s = Some n /\ idestart (Some n) s = (r, s')).
Proof.
  unfold ideintr_next, bind, gets. destruct (idequeue s) as [n|]; intros E.
  - right. eauto.
  - left. inversion E; auto.
Qed.

(** The interrupt handler on a queue with head [a]: the data pull, then
    the completion of [a], then the start of the next request. *)
Lemma ideintr_inv a bf s r s' :
  idelock s = false ->
  idequeue s = Some a ->
  bufs s !! a = Some bf ->
  ideintr s = (r, s') ->
  exists r1 s1,
    ideintr_read bf (with_queue (qnext bf) (with_lock true s)) = (r1, s1) /\
    ((r1 = Spin /\ r = Spin /\ s' = s1) \/
     (r1 = Ok tt /\
      exists r2 s2,
        ideintr_next
          (emit (EvWakeup a)
             (with_bufs (<[a := set_flags (completed (flags bf)) bf]> (bufs s1)) s1))
        = (r2, s2) /\
        ((r2 = Ok tt /\ r = Ok tt /\ s' = with_lock false s2) \/
         (r2 <> Ok tt /\ r = r2 /\ s' = s2)))).
Proof.
  intros Hl Hq Hb E. unfold ideintr in E.
  unfold bind at 1 in E. unfold acquire in E. rewrite Hl in E.
  unfold bind at 1 in E. unfold gets at 1 in E.
  change (idequeue (with_lock true s)) with (idequeue s) in E.
  rewrite Hq in E.
  unfold bind at 1 in E. unfold getbuf at 1 in E.
  change (bufs (with_lock true s)) with (bufs s) in E.
  rewrite Hb in E.
  unfold bind at 1 in E. unfold modify at 1 in E.
  apply bind_inv in E as [(x & s1 & E1 & E2)|(r0 & E1 & Hf)].
  - destruct x. exists (Ok tt), s1. split; [exact E1|]. right. split; [reflexivity|].
    assert (Hb1 : bufs s1 !! a = Some bf).
    { apply ideintr_read_inv in E1.
      destruct E1 as [(_ & _ & ->)|(_ & rw & vs & _ & [(_ & ? & _)|(v & _ & _ & _ & H)])];
        try discriminate; auto.
      destruct H as [(_ & _ & ->)|(_ & _ & ->)]; auto. }
    rewrite (bind_ok _ _ _ _ _ (ideintr_wake_eq a bf s1 Hb1)) in E2.
    apply bind_inv in E2 as [(y & s2 & E3 & E4)|(r0 & E3 & Hf)].
    + destruct y. exists (Ok tt), s2. split; [exact E3|]. left.
      inversion E4; auto.
    + exists r0, s'. split; [exact E3|]. right.
      destruct r0, r; simpl in Hf; try contradiction; subst;
        repeat split; auto; discriminate.
  - exists r0, s'. split; [exact E1|]. left.
    apply ideintr_read_inv in E1.
    destruct E1 as [(_ & -> & _)|(_ & rw & vs & _ & [(_ & -> & _)|(v & _ & _ & -> & _)])];
      simpl in Hf; try contradiction.
    destruct r; simpl in Hf; try contradiction. auto.
Qed.

Lemma ideintr_next_frame s r s' :
  ideintr_next s = (r, s') ->
  idelock s' = idelock s /\ idequeue s' = idequeue s /\
  bufs s' = bufs s /\ ram s' = ram s /\
  exists post, trace s' = trace s ++ post /\
    ((idequeue s = None /\ post = [] /\ r = Ok tt) \/
     (exists n new, idequeue s = Some n /\ post = EvStart (Some n) :: new /\
        Forall (fun e => quiet e = true) new)).
Proof.
  intros E. apply ideintr_next_inv in E as [(Hq & -> & ->)|(n & Hq & E)].
  - repeat split; auto. exists []. split; [now rewrite app_nil_r | auto].
  - apply idestart_frame in E
      as (A1 & A2 & _ & _ & A5 & A6 & _ & new & Et & Hn).
    repeat split; auto. exists (EvStart (Some n) :: new).
    split; [|right; eauto]. rewrite Et. simpl. now rewrite <- app_assoc.
Qed.

(** C6.  For the request at the head of the queue the interrupt handler
    sets VALID, clears DIRTY and wakes the sleeper on it, whatever the
    outcome of the transfer: for a write nothing is polled or read; for a
    read whose status shows a drive fault or an error only the data pull
    is left out (memory is as it was), and otherwise the block is read
    from the data port into b->data.  The flag word afterwards is the same
    in all three cases, so the sleeper that is resumed after the handler
    has returned leaves its wait loop and returns: it is told of no
    fault. *)
Theorem ideintr_completes a bf s r s' :
  flag_bits ->
  idelock s = false ->
  idequeue s = Some a ->
  bufs s !! a = Some bf ->
  (has_flag (flags bf) B_DIRTY = false -> responsive (hw_in s) 0x1f7) ->
  ideintr s = (r, s') ->
  flags_at s' a = Some (completed (flags bf)) /\
  has_flag (completed (flags bf)) B_VALID = true /\
  has_flag (completed (flags bf)) B_DIRTY = false /\
  (r = Ok tt -> iderw_resume a s' = (Ok true, s')) /\
  exists pre post,
    trace s' = trace s ++ pre ++ EvWakeup a :: post /\
    ((has_flag (flags bf) B_DIRTY = true /\ pre = [] /\ ram s' = ram s) \/
     (has_flag (flags bf) B_DIRTY = false /\
      exists vs v, last vs = Some v /\
        ((faulty v = true /\ pre = map (EvInb 0x1f7) vs /\ ram s' = ram s) \/
         (faulty v = false /\
          let ws := port_dwords (hw_in s) (clock s + length vs) 0x1f0
                      (Z.to_nat (Z.quot BSIZE 4)) in
          pre = map (EvInb 0x1f7) vs ++ [EvInsl 0x1f0 ws] /\
          ram s' = store_dwords (ram s) (data bf) ws)))).
Proof.
  intros Hbits Hl Hq Hb Hresp E.
  destruct (completed_flags (flags bf) Hbits) as (HV & HD & _).
  fold (completed (flags bf)) in HV, HD.
  apply (ideintr_inv a bf s r s' Hl Hq Hb) in E as (r1 & s1 & E1 & Hc).
  set (s0 := with_queue (qnext bf) (with_lock true s)) in *.
  apply ideintr_read_inv in E1.
  assert (Hs1 : r1 = Ok tt /\ bufs s1 = bufs s /\
    exists pre, trace s1 = trace s ++ pre /\
     ((has_flag (flags bf) B_DIRTY = true /\ pre = [] /\ ram s1 = ram s) \/
     (has_flag (flags bf) B_DIRTY = false /\
      exists vs v, last vs = Some v /\
        ((faulty v = true /\ pre = map (EvInb 0x1f7) vs /\ ram s1 = ram s) \/
         (faulty v = false /\
          let ws := port_dwords (hw_in s) (clock s + length vs) 0x1f0
                      (Z.to_nat (Z.quot BSIZE 4)) in
          pre = map (EvInb 0x1f7) vs ++ [EvInsl 0x1f0 ws] /\
          ram s1 = store_dwords (ram s) (data bf) ws))))).
  { destruct E1 as [(Hd & -> & ->)|(Hd & rw & vs & Ew & Hw)].
    - split; [reflexivity|]. split; [reflexivity|]. exists [].
      split; [now rewrite app_nil_r|]. left. auto.
    - destruct (idewait_total IO_BASE0 1 s0 (Hresp Hd)) as (x & vs' & Et).
      rewrite Et in Ew.
      destruct Hw as [(-> & _)|(v & Hlast & _ & -> & Hv)]; [discriminate|].
      split; [reflexivity|].
      destruct Hv as [(Hf & _ & ->)|(Hf & _ & ->)].
      + split; [reflexivity|]. exists (map (EvInb 0x1f7) vs).
        split; [reflexivity|]. right. split; [auto|]. exists vs, v.
        split; [auto|]. left. auto.
      + split; [reflexivity|]. eexists. split.
        { unfold pulled, insl, after_polls. cbn [snd trace advance].
          rewrite <- app_assoc. reflexivity. }
        right. split; [auto|]. exists vs, v. split; [auto|]. right.
        split; [auto|]. cbv zeta. split; reflexivity. }
  destruct Hs1 as (-> & Hb1 & pre & Et1 & Hpre).
  destruct Hc as [(? & _)|(_ & r2 & s2 & E2 & Hr)]; [discriminate|].
  apply ideintr_next_frame in E2 as (B1 & _ & B3 & B4 & post & Et2 & _).
  cbn [idelock bufs ram trace emit with_bufs] in B1, B3, B4, Et2.
  assert (Hs' : bufs s' = bufs s2 /\ ram s' = ram s2 /\ trace s' = trace s2).
  { destruct Hr as [(_ & _ & ->)|(_ & _ & ->)]; auto. }
  destruct Hs' as (C1 & C2 & C3).
  assert (Hba : bufs s' !! a = Some (set_flags (completed (flags bf)) bf)).
  { rewrite C1, B3. apply lookup_insert_eq. }
  split; [|split; [exact HV|split; [exact HD|split]]].
  - unfold flags_at. now rewrite Hba.
  - intros ->. destruct Hr as [(_ & _ & ->)|(Hne & <- & _)]; [|congruence].
    unfold iderw_resume, bind, acquire. cbn [idelock with_lock].
    unfold iderw_wait, bind, getbuf. cbn [bufs with_lock].
    cbn [bufs with_lock] in Hba. rewrite Hba. cbn [flags set_flags].
    rewrite (settled_test _ Hbits), HV, HD. cbn [andb negb].
    unfold release, modify. destruct s2; reflexivity.
  - exists pre, post. split.
    + rewrite C3, Et2, Et1. rewrite <- !app_assoc. reflexivity.
    + rewrite C2, B4. exact Hpre.
Qed.

(** ** No driver operation clears BUSY *)

Lemma busy_kept_refl s : busy_kept s s.
Proof. intros a f H. eauto. Qed.

Lemma busy_kept_trans s1 s2 s3 :
  busy_kept s1 s2 -> busy_kept s2 s3 -> busy_kept s1 s3.
Proof.
  intros H1 H2 a f Hf. destruct (H1 a f Hf) as (f1 & Hf1 & E1).
  destruct (H2 a f1 Hf1) as (f2 & Hf2 & E2). exists f2. split; congruence.
Qed.

Lemma busy_kept_same s s' : bufs s' = bufs s -> busy_kept s s'.
Proof. intros E a f H. exists f. unfold flags_at in *. now rewrite E. Qed.

Lemma keeps_busy_modify f :
  (forall s, bufs (f s) = bufs s) -> keeps busy_kept (modify f).
Proof. intros H. apply keeps_modify. intros. now apply busy_kept_same. Qed.

Lemma keeps_busy_io {A} (m : M A) : keeps io_only m -> keeps busy_kept m.
Proof.
  intros H s r s' E. apply H in E as (_ & _ & _ & _ & Hb & _).
  now apply busy_kept_same.
Qed.

Lemma keeps_busy_acquire : keeps busy_kept acquire.
Proof.
  intros s r s'. unfold acquire. destruct (idelock s); intros E; inversion E;
    subst; now apply busy_kept_same.
Qed.

Lemma keeps_busy_inb port : keeps busy_kept (inb port).
Proof. intros s r s' E. inversion E; subst. now apply busy_kept_same. Qed.

Lemma keeps_busy_insl port dst cnt : keeps busy_kept (insl port dst cnt).
Proof. intros s r s' E. inversion E; subst. now apply busy_kept_same. Qed.

Lemma keeps_busy_update_qnext a q : keeps busy_kept (update_buf a (set_qnext q)).
Proof.
  intros s r s' E. unfold update_buf, bind, getbuf in E.
  destruct (bufs s !! a) as [bf|] eqn:Hb; inversion E; subst;
    [|apply busy_kept_refl].
  intros a' f Hf. unfold flags_at in *. simpl.
  destruct (decide (a = a')) as [<-|Hne].
  - rewrite lookup_insert_eq. rewrite Hb in Hf. inversion Hf; subst.
    simpl. eauto.
  - rewrite lookup_insert_ne by auto. eauto.
Qed.

Lemma keeps_busy_idestart b : keeps busy_kept (idestart b).
Proof.
  intros s r s' E. apply idestart_frame in E as (_ & _ & _ & _ & Hb & _).
  now apply busy_kept_same.
Qed.

Lemma keeps_busy_ideintr_wake a : flag_bits -> keeps busy_kept (ideintr_wake a).
Proof.
  intros Hbits s r s' E. destruct (bufs s !! a) as [bf|] eqn:Hb.
  - rewrite (ideintr_wake_eq a bf s Hb) in E. inversion E; subst.
    intros a' f Hf. unfold flags_at in *. simpl.
    destruct (decide (a = a')) as [<-|Hne].
    + rewrite lookup_insert_eq. rewrite Hb in Hf. inversion Hf; subst.
      simpl. eexists. split; [reflexivity|].
      now destruct (completed_flags (flags bf) Hbits) as (_ & _ & ?).
    + rewrite lookup_insert_ne by auto. eauto.
  - unfold ideintr_wake, update_buf, bind, getbuf in E. rewrite Hb in E.
    inversion E; subst. apply busy_kept_refl.
Qed.

Ltac keeps_busy prim :=
  repeat first
    [ prim
    | apply (keeps_ret _ busy_kept_refl)
    | apply (keeps_panic _ busy_kept_refl)
    | apply (keeps_spinning _ busy_kept_refl)
    | apply (keeps_gets _ busy_kept_refl)
    | apply (keeps_getbuf _ busy_kept_refl)
    | apply keeps_busy_acquire
    | apply keeps_busy_update_qnext
    | apply keeps_busy_idestart
    | apply keeps_busy_insl
    | apply keeps_busy_io; first [ apply keeps_io_idewait | apply keeps_io_outb
                                 | apply keeps_io_outsl ]
    | apply keeps_busy_modify; reflexivity
    | apply (keeps_bind _ busy_kept_trans); [|intros ?]
    | match goal with
      | |- keeps _ (if ?c then _ else _) => destruct c
      | |- keeps _ (match ?x with _ => _ end) => destruct x
      end ].

Lemma keeps_busy_find_tail fuel pp : keeps busy_kept (find_tail fuel pp).
Proof.
  revert pp. induction fuel; intros pp; simpl; unfold read_slot;
    keeps_busy ltac:(apply IHfuel).
Qed.

Lemma keeps_busy_iderw_wait b : keeps busy_kept (iderw_wait b).
Proof. unfold iderw_wait, sleep, release. keeps_busy fail. Qed.

Lemma keeps_busy_iderw_begin b : keeps busy_kept (iderw_begin b).
Proof.
  unfold iderw_begin, iderw_enqueue, iderw_append, queue_tail, write_slot.
  keeps_busy ltac:(first [ apply keeps_busy_find_tail
                         | apply keeps_busy_iderw_wait ]).
Qed.

Lemma keeps_busy_iderw_resume b : keeps busy_kept (iderw_resume b).
Proof. unfold iderw_resume. keeps_busy ltac:(apply keeps_busy_iderw_wait). Qed.

Lemma keeps_busy_ideintr : flag_bits -> keeps busy_kept ideintr.
Proof.
  intros Hbits. unfold ideintr, ideintr_read, ideintr_next, release.
  keeps_busy ltac:(now apply keeps_busy_ideintr_wake).
Qed.

Lemma keeps_busy_swap_setup secno cmd : keeps busy_kept (swap_setup secno cmd).
Proof. unfold swap_setup. keeps_busy fail. Qed.

Lemma keeps_busy_read_swap secno dst : keeps busy_kept (read_swap secno dst).
Proof.
  unfold read_swap.
  assert (H : forall n d, keeps busy_kept (read_swap_loop n IO_BASE1 d)).
  { induction n; intros d; simpl; unfold release; keeps_busy ltac:(apply IHn). }
  keeps_busy ltac:(first [ apply keeps_busy_swap_setup | apply H ]).
Qed.

Lemma keeps_busy_write_swap secno src : keeps busy_kept (write_swap secno src).
Proof.
  unfold write_swap.
  assert (H : forall n d, keeps busy_kept (write_swap_loop n IO_BASE1 d)).
  { induction n; intros d; simpl; unfold release; keeps_busy ltac:(apply IHn). }
  keeps_busy ltac:(first [ apply keeps_busy_swap_setup | apply H ]).
Qed.

Lemma keeps_busy_step o : flag_bits -> keeps busy_kept (step o).
Proof.
  intros Hbits. destruct o; cbn [step].
  - apply (keeps_bind _ busy_kept_trans);
      [apply keeps_busy_iderw_begin | intros; apply (keeps_ret _ busy_kept_refl)].
  - apply (keeps_bind _ busy_kept_trans);
      [apply keeps_busy_iderw_resume | intros; apply (keeps_ret _ busy_kept_refl)].
  - now apply keeps_busy_ideintr.
  - apply (keeps_bind _ busy_kept_trans);
      [apply keeps_busy_read_swap | intros; apply (keeps_ret _ busy_kept_refl)].
  - apply (keeps_bind _ busy_kept_trans);
      [apply keeps_busy_write_swap | intros; apply (keeps_ret _ busy_kept_refl)].
Qed.

Lemma keeps_busy_run ops : flag_bits -> keeps busy_kept (run ops).
Proof.
  intros Hbits. induction ops; cbn [run].
  - apply (keeps_ret _ busy_kept_refl).
  - apply (keeps_bind _ busy_kept_trans); [now apply keeps_busy_step | auto].
Qed.

(** iderw leaves its wait loop only on a settled flag word. *)
Lemma iderw_wait_true b s s' :
  iderw_wait b s = (Ok true, s') ->
  exists bf, bufs s !! b = Some bf /\
    Z.land (flags bf) (Z.lor B_VALID B_DIRTY) = B_VALID /\
    s' = with_lock false s.
Proof.
  unfold iderw_wait, bind, getbuf. destruct (bufs s !! b) as [bf|]; [|discriminate].
  destruct (Z.eqb_spec (Z.land (flags bf) (Z.lor B_VALID B_DIRTY)) B_VALID);
    simpl; intros E; inversion E. eauto.
Qed.

(** iderw gets past its entry checks only with BUSY set. *)
Lemma iderw_begin_busy b s r s' :
  iderw_begin b s = (Ok r, s') ->
  exists bf, bufs s !! b = Some bf /\ has_flag (flags bf) B_BUSY = true.
Proof.
  intros E. destruct (bufs s !! b) as [bf|] eqn:Hb.
  - exists bf. split; [reflexivity|].
    unfold iderw_begin in E. apply bind_inv in E as [(x & s1 & E1 & _)|(r0 & _ & Hf)];
      [|destruct r0; contradiction].
    rewrite (iderw_enqueue_eq b bf s Hb) in E1. unfold has_flag.
    destruct (Z.land (flags bf) B_BUSY =? 0); [discriminate | reflexivity].
  - unfold iderw_begin, iderw_enqueue, bind, getbuf in E. rewrite Hb in E.
    discriminate.
Qed.

(** C2.  Every return of iderw finds the flag word of its request with
    VALID set, DIRTY clear and BUSY set: at a return from the first pass
    through the wait loop, and at a return after any number of sleeps,
    whatever the driver did in between (other calls of iderw, resumed
    sleepers, interrupts, swap transfers). *)
Theorem iderw_returns_settled b s0 r0 s1 :
  flag_bits ->
  iderw_begin b s0 = (Ok r0, s1) ->
  (r0 = true ->
   exists f, flags_at s1 b = Some f /\ has_flag f B_VALID = true /\
     has_flag f B_DIRTY = false /\ has_flag f B_BUSY = true) /\
  (forall ops s2 s3,
     run ops s1 = (Ok tt, s2) ->
     iderw_resume b s2 = (Ok true, s3) ->
     exists f, flags_at s3 b = Some f /\ has_flag f B_VALID = true /\
       has_flag f B_DIRTY = false /\ has_flag f B_BUSY = true).
Proof.
  intros Hbits E0.
  destruct (iderw_begin_busy _ _ _ _ E0) as (bf0 & Hb0 & HB0).
  assert (Hf0 : flags_at s0 b = Some (flags bf0)) by (unfold flags_at; now rewrite Hb0).
  pose proof (keeps_busy_iderw_begin b _ _ _ E0) as K01.
  split.
  - intros ->. unfold iderw_begin in E0.
    apply bind_inv in E0 as [(x & se & _ & Ew)|(r0 & _ & Hf)];
      [|destruct r0; contradiction].
    apply iderw_wait_true in Ew as (bf & Hb & Hs & ->).
    apply Z.eqb_eq in Hs. rewrite (settled_test _ Hbits) in Hs.
    apply andb_true_iff in Hs as (HV & HD). apply negb_true_iff in HD.
    destruct (K01 b _ Hf0) as (f' & Hf' & EB).
    unfold flags_at in Hf'. simpl in Hf'. rewrite Hb in Hf'. inversion Hf'; subst.
    exists (flags bf). unfold flags_at. simpl. rewrite Hb.
    repeat split; auto. congruence.
  - intros ops s2 s3 Er Ew.
    pose proof (keeps_busy_run ops Hbits _ _ _ Er) as K12.
    pose proof (keeps_busy_iderw_resume b _ _ _ Ew) as K23.
    destruct (busy_kept_trans _ _ _ (busy_kept_trans _ _ _ K01 K12) K23 b _ Hf0)
      as (f3 & Hf3 & EB).
    exists f3. split; [exact Hf3|].
    unfold iderw_resume in Ew.
    apply bind_inv in Ew as [(x & sa & Ea & Ew)|(r1 & _ & Hf)];
      [|destruct r1; contradiction].
    apply iderw_wait_true in Ew as (bf & Hb & Hs & ->).
    unfold flags_at in Hf3. simpl in Hf3. rewrite Hb in Hf3. inversion Hf3; subst.
    apply Z.eqb_eq in Hs. rewrite (settled_test _ Hbits) in Hs.
    apply andb_true_iff in Hs as (HV & HD). apply negb_true_iff in HD.
    repeat split; auto. congruence.
Qed.

(** ** The swap path *)

Lemma store_dwords_app r a ws1 ws2 :
  store_dwords r a (ws1 ++ ws2)
  = store_dwords (store_dwords r a ws1) (a + 4 * Z.of_nat (length ws1)) ws2.
Proof.
  revert r a. induction ws1 as [|w ws1 IH]; intros r a; simpl.
  - now rewrite Z.add_0_r.
  - rewrite IH. f_equal. lia.
Qed.

Lemma store_dwords_outside r a ws x :
  x < a \/ a + 4 * Z.of_nat (length ws) <= x -> store_dwords r a ws x = r x.
Proof.
  revert r a. induction ws as [|w ws IH]; intros r a H; simpl; [reflexivity|].
  rewrite IH by (simpl length in H; lia). unfold store32.
  simpl length in H.
  destruct (Z.eqb_spec x a); [lia|].
  destruct (Z.eqb_spec x (a + 1)); [lia|].
  destruct (Z.eqb_spec x (a + 2)); [lia|].
  destruct (Z.eqb_spec x (a + 3)); [lia|]. reflexivity.
Qed.

Lemma port_dwords_length h t port n : length (port_dwords h t port n) = n.
Proof. revert t. induction n; intros; simpl; auto. Qed.

Lemma data_events_app t1 t2 : data_events (t1 ++ t2) = data_events t1 ++ data_events t2.
Proof. apply List.filter_app. Qed.

Lemma data_events_polls port vs : data_events (map (EvInb port) vs) = [].
Proof. induction vs; simpl; auto. Qed.

Lemma last_polls port vs v :
  last vs = Some v -> last (map (EvInb port) vs) = Some (EvInb port v).
Proof.
  revert v. induction vs as [|x vs IH]; intros v H; [discriminate|].
  destruct vs as [|y vs]; [inversion H; reflexivity|].
  apply (IH v H).
Qed.

Lemma swap_setup_inv secno cmd s r s' :
  swap_setup secno cmd s = (r, s') ->
  exists vs,
    (r = Spin /\ s' = after_polls 0x177 vs s) \/
    (r = Ok tt /\
     s' = advance (length vs) (map (EvInb 0x177) vs ++ swap_regs secno cmd) s).
Proof.
  unfold swap_setup. intros E.
  apply bind_inv in E as [(x & s1 & E1 & E2)|(r0 & E1 & Hf)].
  - apply idewait_inv in E1 as (vs & -> & _). exists vs. right.
    unfold after_polls in E2.
    repeat (rewrite bind_outb in E2; cbv beta in E2; rewrite advance_advance in E2).
    rewrite outb_eq, advance_advance in E2. inversion E2; subst; clear E2.
    split; [reflexivity|]. apply advance_eq; [lia|].
    unfold swap_regs. now rewrite <- !app_assoc.
  - apply idewait_inv in E1 as (vs & -> & Hr). exists vs. left.
    destruct r0, r; simpl in Hf; try contradiction. auto.
Qed.

Lemma read_swap_loop_inv n dst s r s' :
  read_swap_loop n IO_BASE1 dst s = (r, s') ->
  exists wss new,
    Forall (fun ws => length ws = 128%nat) wss /\
    trace s' = trace s ++ new /\
    data_events new = map (EvInsl 0x170) wss /\
    ram s' = store_dwords (ram s) dst (concat wss) /\
    idequeue s' = idequeue s /\ bufs s' = bufs s /\ hw_in s' = hw_in s /\
    swap_outcome n r (length wss) s' new.
Proof.
  revert dst s. induction n as [|n IH]; intros dst s E; simpl in E.
  - inversion E; subst. exists [], []. simpl. rewrite app_nil_r.
    repeat split; auto. left. auto.
  - apply bind_inv in E as [(x & sw & Ew & E)|(r0 & Ew & Hf)];
      apply idewait_inv in Ew as (vs & -> & Hr).
    + destruct Hr as (v & Hl & _ & ->). change (negb (1 =? 0)) with true in E.
      cbn [andb] in E. destruct (faulty v) eqn:Hfv.
      * inversion E; subst. exists [], (map (EvInb 0x177) vs).
        simpl. rewrite data_events_polls. repeat split; auto.
        right; left. repeat split; auto; [lia|].
        exists v. split; [now apply last_polls | auto].
      * simpl in E. unfold bind at 1 in E. unfold insl at 1 in E.
        apply IH in E
          as (wss & new & Hw & Et & Hd & Hram & Hq & Hb & Hh & Ho).
        cbn [trace ram idequeue bufs hw_in after_polls advance] in *.
        set (ws := port_dwords (hw_in s) (clock s + length vs) 0x170
                     (Z.to_nat (SECTSIZE `quot` 4))) in *.
        assert (Hlen : length ws = 128%nat) by apply port_dwords_length.
        exists (ws :: wss), (map (EvInb 0x177) vs ++ [EvInsl 0x170 ws] ++ new).
        split; [constructor; auto|].
        split; [rewrite Et; now rewrite <- !app_assoc|].
        split; [rewrite !data_events_app, data_events_polls, Hd; reflexivity|].
        split.
        { rewrite Hram. cbn [concat]. rewrite store_dwords_app, Hlen.
          reflexivity. }
        repeat split; auto.
        destruct Ho as [(-> & Hk & Hlk)|[(-> & Hk & Hlk & v' & Hlast & Hv')|(-> & Hk)]].
        -- left. simpl. auto.
        -- right; left. repeat split; auto; [simpl; lia|].
           exists v'. split; [|auto].
           rewrite !last_app, Hlast. reflexivity.
        -- right; right. simpl. split; [auto | lia].
    + destruct r0, r; simpl in Hf; try contradiction.
      exists [], (map (EvInb 0x177) vs). simpl. rewrite data_events_polls.
      repeat split; auto. right; right. split; [auto | lia].
Qed.

Lemma write_swap_loop_inv n src s r s' :
  write_swap_loop n IO_BASE1 src s = (r, s') ->
  exists k new,
    trace s' = trace s ++ new /\
    data_events new = map (EvOutsl 0x170) (load_sectors (ram s) src k) /\
    ram s' = ram s /\
    idequeue s' = idequeue s /\ bufs s' = bufs s /\ hw_in s' = hw_in s /\
    swap_outcome n r k s' new.
Proof.
  revert src s. induction n as [|n IH]; intros src s E; simpl in E.
  - inversion E; subst. exists 0%nat, []. simpl. rewrite app_nil_r.
    repeat split; auto. left. auto.
  - apply bind_inv in E as [(x & sw & Ew & E)|(r0 & Ew & Hf)];
      apply idewait_inv in Ew as (vs & -> & Hr).
    + destruct Hr as (v & Hl & _ & ->). change (negb (1 =? 0)) with true in E.
      cbn [andb] in E. destruct (faulty v) eqn:Hfv.
      * inversion E; subst. exists 0%nat, (map (EvInb 0x177) vs).
        simpl. rewrite data_events_polls. repeat split; auto.
        right; left. repeat split; auto; [lia|].
        exists v. split; [now apply last_polls | auto].
      * simpl in E. unfold bind at 1 in E. rewrite outsl_eq in E.
        apply IH in E
          as (k & new & Et & Hd & Hram & Hq & Hb & Hh & Ho).
        cbn [trace ram idequeue bufs hw_in after_polls advance] in *.
        exists (S k),
          (map (EvInb 0x177) vs
             ++ [EvOutsl 0x170 (load_dwords (ram s) src 128)] ++ new).
        split; [rewrite Et; now rewrite <- !app_assoc|].
        split; [rewrite !data_events_app, data_events_polls, Hd; reflexivity|].
        repeat split; auto.
        destruct Ho as [(-> & Hk & Hlk)|[(-> & Hk & Hlk & v' & Hlast & Hv')|(-> & Hk)]].
        -- left. auto.
        -- right; left. repeat split; auto; [lia|].
           exists v'. split; [|auto].
           rewrite !last_app, Hlast. reflexivity.
        -- right; right. split; [auto | lia].
    + destruct r0, r; simpl in Hf; try contradiction.
      exists 0%nat, (map (EvInb 0x177) vs). simpl. rewrite data_events_polls.
      repeat split; auto. right; right. split; [auto | lia].
Qed.

Lemma read_swap_loop_total n dst s :
  responsive (hw_in s) 0x177 ->
  exists x s', read_swap_loop n IO_BASE1 dst s = (Ok x, s').
Proof.
  revert dst s. induction n as [|n IH]; intros dst s Hr; simpl.
  - eauto.
  - destruct (idewait_total IO_BASE1 1 s Hr) as (x & vs & E).
    rewrite (bind_ok _ _ _ _ _ E). destruct (negb (x =? 0)); [eauto|].
    unfold bind at 1. unfold insl at 1. apply IH. exact Hr.
Qed.

Lemma write_swap_loop_total n src s :
  responsive (hw_in s) 0x177 ->
  exists x s', write_swap_loop n IO_BASE1 src s = (Ok x, s').
Proof.
  revert src s. induction n as [|n IH]; intros src s Hr; simpl.
  - eauto.
  - destruct (idewait_total IO_BASE1 1 s Hr) as (x & vs & E).
    rewrite (bind_ok _ _ _ _ _ E). destruct (negb (x =? 0)); [eauto|].
    unfold bind at 1. rewrite outsl_eq. apply IH. exact Hr.
Qed.

Lemma swap_setup_total secno cmd s :
  responsive (hw_in s) 0x177 ->
  exists s', swap_setup secno cmd s = (Ok tt, s') /\ hw_in s' = hw_in s.
Proof.
  intros Hr. destruct (swap_setup secno cmd s) as [r s'] eqn:E.
  pose proof E as E'. apply swap_setup_inv in E' as (vs & [(-> & ->)|(-> & ->)]).
  - exfalso. unfold swap_setup in E.
    destruct (idewait_total IO_BASE1 0 s Hr) as (x & vs' & Ew).
    rewrite (bind_ok _ _ _ _ _ Ew) in E.
    repeat (rewrite bind_outb in E; cbv beta in E).
    rewrite outb_eq in E. discriminate.
  - eauto.
Qed.

(** The polls of one busy-wait: every status but the last has the busy
    bit set. *)
Lemma idewait_poll_shape fuel port s r s' :
  idewait_poll fuel port s = (r, s') ->
  exists vs, s' = after_polls port vs s /\
    match r with
    | Ok v => exists bs, vs = bs ++ [v] /\
                Forall (fun u => ready u = false) bs /\ ready v = true
    | Spin => Forall (fun u => ready u = false) vs
    | _ => False
    end.
Proof.
  revert s. induction fuel as [|fuel IH]; intros s E; simpl in E.
  - inversion E; subst. exists []. split; [|constructor].
    unfold after_polls. now rewrite advance_0_nil.
  - unfold bind in E. rewrite inb_eq in E.
    set (v := uint8 (hw_in s (clock s) port)) in *.
    fold (ready v) in E. destruct (ready v) eqn:Hv.
    + inversion E; subst. exists [v]. split; [reflexivity|].
      exists []. split; [reflexivity|]. split; [constructor | exact Hv].
    + apply IH in E as (vs & -> & Hr). exists (v :: vs).
      split; [apply after_polls_cons|].
      destruct r; [|contradiction|constructor; auto|contradiction].
      destruct Hr as (bs & -> & Hbs & Ha). exists (v :: bs).
      split; [reflexivity|]. split; [constructor; auto | exact Ha].
Qed.

Lemma idewait_shape iobase check_error s r s' :
  idewait iobase check_error s = (r, s') ->
  exists vs, s' = after_polls (iobase + ATA_STATUS) vs s /\
    match r with
    | Ok x => exists bs v, vs = bs ++ [v] /\
                Forall (fun u => ready u = false) bs /\ ready v = true /\
                x = (if negb (check_error =? 0) && faulty v then -1 else 0)
    | Spin => Forall (fun u => ready u = false) vs
    | _ => False
    end.
Proof.
  unfold idewait. intros E.
  apply bind_inv in E as [(v & s1 & E1 & E2)|(r0 & E1 & Hf)].
  - apply idewait_poll_shape in E1 as (vs & -> & bs & -> & Hbs & Hv).
    exists (bs ++ [v]). fold (faulty v) in E2.
    destruct (negb (check_error =? 0) && faulty v) eqn:C;
      inversion E2; subst; split; auto; exists bs, v; rewrite C; auto.
  - apply idewait_poll_shape in E1 as (vs & -> & Hr). exists vs. split; auto.
    destruct r0, r; simpl in Hf; try contradiction; auto.
Qed.

Lemma calm_busy port bs :
  Forall (fun u => ready u = false) bs -> calm (map (EvInb port) bs).
Proof.
  induction 1 as [|u bs Hu _ IH]; simpl; constructor; auto.
  now rewrite Hu.
Qed.

Lemma served_app xfer prev t1 t2 :
  served xfer prev t1 -> (forall p, served xfer p t2) ->
  served xfer prev (t1 ++ t2).
Proof.
  revert prev. induction t1 as [|e t1 IH]; intros prev H1 H2; [apply H2|].
  destruct H1 as (He & H1). split; [exact He | now apply IH].
Qed.

Lemma served_polls xfer port vs prev :
  (forall v ws, xfer ws <> EvInb port v) -> served xfer prev (map (EvInb port) vs).
Proof.
  intros Hx. revert prev. induction vs as [|v vs IH]; intros prev; simpl; [exact I|].
  split; [|apply IH]. intros (ws & E). symmetry in E. now apply Hx in E.
Qed.

(** A fault that ends a busy-wait is not in a calm part of a trace. *)
Lemma calm_split body tl pre p v post :
  calm body ->
  body ++ tl = pre ++ EvInb p v :: post ->
  Z.land v ATA_SR_BSY = 0 -> faulty v = true ->
  exists pre', pre = body ++ pre' /\ tl = pre' ++ EvInb p v :: post.
Proof.
  intros Hc. revert pre. induction Hc as [|e body He _ IH]; intros pre E Hr Hf.
  - exists pre. auto.
  - destruct pre as [|e' pre]; simpl in E; inversion E; subst.
    + exfalso. unfold ready in He. rewrite Hr, Hf in He. discriminate.
    + destruct (IH pre H1 Hr Hf) as (pre' & -> & ->). exists pre'. auto.
Qed.

(** The event before a transfer of a served trace. *)
Lemma served_split xfer prev tr pre ws post :
  served xfer prev tr ->
  tr = pre ++ xfer ws :: post ->
  exists v, match last pre with Some x => Some x | None => prev end
            = Some (EvInb 0x177 v) /\
    Z.land v ATA_SR_BSY = 0 /\ faulty v = false.
Proof.
  revert prev tr. induction pre as [|a pre IH]; intros prev tr Hs ->.
  - destruct Hs as (He & _). destruct He as (v & -> & Hr & Hf); [eauto|].
    exists v. split; [reflexivity|]. split; [now apply Z.eqb_eq | exact Hf].
  - destruct Hs as (_ & Hs).
    destruct (IH (Some a) _ Hs eq_refl) as (v & Hl & Hr & Hf).
    exists v. split; [|auto].
    destruct pre as [|b pre]; [exact Hl|].
    change (last (a :: b :: pre)) with (last (b :: pre)).
    destruct (last (b :: pre)) eqn:El; [exact Hl|].
    apply last_None in El. discriminate.
Qed.

(** From the shape of the events of a transfer loop to its error check. *)
Lemma swap_checks_intro xfer r s' body tl :
  calm body -> served xfer None body ->
  (forall v ws, xfer ws <> EvInb 0x177 v) ->
  (tl = [] /\ r <> Ok (-1)) \/
  (exists v, tl = [EvInb 0x177 v] /\ r = Ok (-1) /\ idelock s' = false) ->
  swap_checks xfer r s' (body ++ tl).
Proof.
  intros Hc Hs Hx Ht. split.
  - intros pre v post E Hr Hf.
    destruct (calm_split body tl pre 0x177 v post Hc E Hr Hf) as (pre' & -> & Etl).
    destruct Ht as [(-> & _)|(w & -> & Hret & Hl)].
    + destruct pre'; discriminate.
    + destruct pre' as [|x pre']; [|destruct pre'; discriminate].
      inversion Etl; subst. auto.
  - intros pre ws post E.
    assert (Hs' : served xfer None (body ++ tl)).
    { apply served_app; [exact Hs|]. intros p.
      destruct Ht as [(-> & _)|(w & -> & _)]; [exact I|].
      split; [|exact I]. intros (ws' & E'). symmetry in E'. now apply Hx in E'. }
    destruct (served_split xfer None _ pre ws post Hs' E) as (v & Hl & Hr & Hf).
    destruct (last pre) as [x|] eqn:El; [|discriminate].
    inversion Hl; subst x. apply last_Some in El as (pre' & ->).
    exists pre', v. auto.
Qed.

(** The events of the transfer loops: rounds of polls that end in a good
    status and a transfer, and then nothing more or the status that made
    the call give up. *)
Lemma read_swap_loop_rounds n dst s r s' :
  read_swap_loop n IO_BASE1 dst s = (r, s') ->
  exists body tl,
    trace s' = trace s ++ body ++ tl /\
    calm body /\ (forall p, served (EvInsl 0x170) p body) /\
    ((tl = [] /\ r <> Ok (-1)) \/
     (exists v, tl = [EvInb 0x177 v] /\ r = Ok (-1) /\ idelock s' = false)).
Proof.
  revert dst s. induction n as [|n IH]; intros dst s E; simpl in E.
  - inversion E; subst. exists [], []. simpl. rewrite app_nil_r.
    split; [reflexivity|]. split; [constructor|]. split; [intros; exact I|].
    left. split; [reflexivity | discriminate].
  - apply bind_inv in E as [(x & sw & Ew & E)|(r0 & Ew & Hf)];
      apply idewait_shape in Ew as (vs & -> & Hr).
    + destruct Hr as (bs & v & -> & Hbs & Hv & ->).
      change (negb (1 =? 0)) with true in E. cbn [andb] in E.
      destruct (faulty v) eqn:Hfv.
      * inversion E; subst. exists (map (EvInb 0x177) bs), [EvInb 0x177 v].
        cbn [trace with_lock after_polls advance]. rewrite map_app.
        split; [reflexivity|]. split; [now apply calm_busy|].
        split; [intros; apply served_polls; discriminate|].
        right. exists v. auto.
      * simpl in E. unfold bind at 1 in E. unfold insl at 1 in E.
        apply IH in E as (body & tl & Et & Hc & Hs & Ht).
        cbn [trace idelock after_polls advance] in *.
        set (ws := port_dwords (hw_in s) (clock s + length (bs ++ [v])) 0x170
                     (Z.to_nat (SECTSIZE `quot` 4))) in *.
        exists (map (EvInb 0x177) bs ++ EvInb 0x177 v :: EvInsl 0x170 ws :: body), tl.
        split; [rewrite Et, map_app; cbn [map]; now rewrite <- !app_assoc|].
        split.
        { apply Forall_app. split; [now apply calm_busy|].
          constructor; [now rewrite Hv, Hfv|]. constructor; [exact I | exact Hc]. }
        split; [|exact Ht].
        intros p. apply served_app; [apply served_polls; discriminate|].
        intros q. split; [intros (? & ?); discriminate|].
        split; [intros _; eauto | apply Hs].
    + destruct r0, r; simpl in Hf; try contradiction.
      exists (map (EvInb 0x177) vs), []. rewrite app_nil_r.
      split; [reflexivity|]. split; [now apply calm_busy|].
      split; [intros; apply served_polls; discriminate|].
      left. split; [reflexivity | discriminate].
Qed.

Lemma write_swap_loop_rounds n src s r s' :
  write_swap_loop n IO_BASE1 src s = (r, s') ->
  exists body tl,
    trace s' = trace s ++ body ++ tl /\
    calm body /\ (forall p, served (EvOutsl 0x170) p body) /\
    ((tl = [] /\ r <> Ok (-1)) \/
     (exists v, tl = [EvInb 0x177 v] /\ r = Ok (-1) /\ idelock s' = false)).
Proof.
  revert src s. induction n as [|n IH]; intros src s E; simpl in E.
  - inversion E; subst. exists [], []. simpl. rewrite app_nil_r.
    split; [reflexivity|]. split; [constructor|]. split; [intros; exact I|].
    left. split; [reflexivity | discriminate].
  - apply bind_inv in E as [(x & sw & Ew & E)|(r0 & Ew & Hf)];
      apply idewait_shape in Ew as (vs & -> & Hr).
    + destruct Hr as (bs & v & -> & Hbs & Hv & ->).
      change (negb (1 =? 0)) with true in E. cbn [andb] in E.
      destruct (faulty v) eqn:Hfv.
      * inversion E; subst. exists (map (EvInb 0x177) bs), [EvInb 0x177 v].
        cbn [trace with_lock after_polls advance]. rewrite map_app.
        split; [reflexivity|]. split; [now apply calm_busy|].
        split; [intros; apply served_polls; discriminate|].
        right. exists v. auto.
      * simpl in E. unfold bind at 1 in E. rewrite outsl_eq in E.
        apply IH in E as (body & tl & Et & Hc & Hs & Ht).
        cbn [trace idelock ram after_polls advance] in *.
        set (ws := load_dwords (ram s) src (Z.to_nat (SECTSIZE `quot` 4))) in *.
        exists (map (EvInb 0x177) bs ++ EvInb 0x177 v :: EvOutsl 0x170 ws :: body), tl.
        split; [rewrite Et, map_app; cbn [map]; now rewrite <- !app_assoc|].
        split.
        { apply Forall_app. split; [now apply calm_busy|].
          constructor; [now rewrite Hv, Hfv|]. constructor; [exact I | exact Hc]. }
        split; [|exact Ht].
        intros p. apply served_app; [apply served_polls; discriminate|].
        intros q. split; [intros (? & ?); discriminate|].
        split; [intros _; eauto | apply Hs].
    + destruct r0, r; simpl in Hf; try contradiction.
      exists (map (EvInb 0x177) vs), []. rewrite app_nil_r.
      split; [reflexivity|]. split; [now apply calm_busy|].
      split; [intros; apply served_polls; discriminate|].
      left. split; [reflexivity | discriminate].
Qed.

(** The events of a whole swap call. *)
Lemma swap_trace_intro secno cmd xfer loop s r s' :
  (forall v ws, xfer ws <> EvInb 0x177 v) ->
  (forall s1 r1 s1', loop s1 = (r1, s1') ->
     exists body tl,
       trace s1' = trace s1 ++ body ++ tl /\
       calm body /\ (forall p, served xfer p body) /\
       ((tl = [] /\ r1 <> Ok (-1)) \/
        (exists v, tl = [EvInb 0x177 v] /\ r1 = Ok (-1) /\ idelock s1' = false))) ->
  (let* _ := swap_setup secno cmd in loop) s = (r, s') ->
  forall new, trace s' = trace s ++ new -> swap_trace secno cmd xfer r s' new.
Proof.
  intros Hx Hloop E new Et.
  apply bind_inv in E as [(x & s1 & E1 & E2)|(r0 & E1 & Hf)];
    apply swap_setup_inv in E1 as (vs & H1).
  - destruct H1 as [(? & _)|(_ & ->)]; [discriminate|].
    apply Hloop in E2 as (body & tl & Et2 & Hc & Hs & Ht).
    cbn [trace advance] in Et2. rewrite Et2, <- !app_assoc in Et.
    apply app_inv_head in Et. subst new.
    right. exists vs, (body ++ tl). split; [reflexivity|].
    now apply swap_checks_intro.
  - destruct H1 as [(-> & ->)|(-> & _)]; [|simpl in Hf; contradiction].
    destruct r; simpl in Hf; try contradiction.
    unfold after_polls in Et. cbn [trace advance] in Et.
    apply app_inv_head in Et. subst new. left. eauto.
Qed.

(** What the swap calls move, and how each of their outcomes comes
    about. *)
Lemma swap_moved secno mem s :
  idelock s = false ->
  (forall r s', read_swap secno mem s = (r, s') ->
     exists wss new,
       Forall (fun ws => length ws = 128%nat) wss /\
       trace s' = trace s ++ new /\
       (data_events new
        = swap_regs secno ATA_CMD_READ ++ map (EvInsl 0x170) wss \/
        (r = Spin /\ data_events new = [] /\ wss = [])) /\
       ram s' = store_dwords (ram s) mem (concat wss) /\
       (forall x, x < mem \/ mem + 512 * Z.of_nat (length wss) <= x ->
                  ram s' x = ram s x) /\
       idequeue s' = idequeue s /\ bufs s' = bufs s /\
       swap_outcome 8 r (length wss) s' new) /\
  (forall r s', write_swap secno mem s = (r, s') ->
     exists k new,
       trace s' = trace s ++ new /\
       (data_events new
        = swap_regs secno ATA_CMD_WRITE
            ++ map (EvOutsl 0x170) (load_sectors (ram s) mem k) \/
        (r = Spin /\ data_events new = [] /\ k = 0%nat)) /\
       ram s' = ram s /\
       idequeue s' = idequeue s /\ bufs s' = bufs s /\
       swap_outcome 8 r k s' new) /\
  (responsive (hw_in s) 0x177 ->
   (exists x s', read_swap secno mem s = (Ok x, s')) /\
   (exists x s', write_swap secno mem s = (Ok x, s'))).
Proof.
  intros Hl. split; [|split].
  - intros r s' E. unfold read_swap in E.
    unfold bind at 1 in E. unfold acquire in E. rewrite Hl in E.
    apply bind_inv in E as [(x & s1 & E1 & E2)|(r0 & E1 & Hf)];
      apply swap_setup_inv in E1 as (vs & H1).
    + destruct H1 as [(? & _)|(_ & ->)]; [discriminate|].
      apply read_swap_loop_inv in E2
        as (wss & new & Hw & Et & Hd & Hram & Hq & Hb & Hh & Ho).
      cbn [trace ram idequeue bufs hw_in advance with_lock] in *.
      exists wss, ((map (EvInb 0x177) vs ++ swap_regs secno ATA_CMD_READ) ++ new).
      split; [auto|]. split; [now rewrite Et, <- !app_assoc|].
      split.
      { left. rewrite !data_events_app, data_events_polls, Hd. reflexivity. }
      split; [auto|]. split.
      { intros y Hy. rewrite Hram. apply store_dwords_outside.
        assert (Hlen : length (concat wss) = (128 * length wss)%nat).
        { clear -Hw. induction Hw as [|ws wss Hws _ IH]; simpl; [reflexivity|].
          rewrite length_app, IH, Hws. lia. }
        rewrite Hlen. lia. }
      repeat split; auto.
      destruct Ho as [(-> & Hk & Hlk)|[(-> & Hk & Hlk & v' & Hlast & Hv')|(-> & Hk)]].
      * left. auto.
      * right; left. repeat split; auto. exists v'. split; [|auto].
        rewrite last_app, Hlast. reflexivity.
      * right; right. auto.
    + destruct H1 as [(-> & ->)|(-> & _)]; [|simpl in Hf; contradiction].
      destruct r; simpl in Hf; try contradiction.
      exists [], (map (EvInb 0x177) vs). split; [constructor|].
      split; [reflexivity|]. rewrite data_events_polls.
      split; [right; auto|]. split; [reflexivity|]. split; [reflexivity|].
      repeat split; auto. right; right. split; [auto | simpl; lia].
  - intros r s' E. unfold write_swap in E.
    unfold bind at 1 in E. unfold acquire in E. rewrite Hl in E.
    apply bind_inv in E as [(x & s1 & E1 & E2)|(r0 & E1 & Hf)];
      apply swap_setup_inv in E1 as (vs & H1).
    + destruct H1 as [(? & _)|(_ & ->)]; [discriminate|].
      apply write_swap_loop_inv in E2
        as (k & new & Et & Hd & Hram & Hq & Hb & Hh & Ho).
      cbn [trace ram idequeue bufs hw_in advance with_lock] in *.
      exists k, ((map (EvInb 0x177) vs ++ swap_regs secno ATA_CMD_WRITE) ++ new).
      split; [now rewrite Et, <- !app_assoc|].
      split.
      { left. rewrite !data_events_app, data_events_polls, Hd. reflexivity. }
      repeat split; auto.
      destruct Ho as [(-> & Hk & Hlk)|[(-> & Hk & Hlk & v' & Hlast & Hv')|(-> & Hk)]].
      * left. auto.
      * right; left. repeat split; auto. exists v'. split; [|auto].
        rewrite last_app, Hlast. reflexivity.
      * right; right. auto.
    + destruct H1 as [(-> & ->)|(-> & _)]; [|simpl in Hf; contradiction].
      destruct r; simpl in Hf; try contradiction.
      exists 0%nat, (map (EvInb 0x177) vs).
      split; [reflexivity|]. rewrite data_events_polls.
      split; [right; auto|].
      repeat split; auto. right; right. split; [auto | lia].
  - intros Hr. split.
    + unfold read_swap. unfold bind at 1. unfold acquire. rewrite Hl.
      destruct (swap_setup_total secno ATA_CMD_READ (with_lock true s) Hr)
        as (s1 & E1 & Hh).
      rewrite (bind_ok _ _ _ _ _ E1). apply read_swap_loop_total.
      now rewrite Hh.
    + unfold write_swap. unfold bind at 1. unfold acquire. rewrite Hl.
      destruct (swap_setup_total secno ATA_CMD_WRITE (with_lock true s) Hr)
        as (s1 & E1 & Hh).
      rewrite (bind_ok _ _ _ _ _ E1). apply write_swap_loop_total.
      now rewrite Hh.
Qed.

(** C8.  read_swap and write_swap move 8 sectors of 128 dwords (512
    bytes) each and return 0, or stop at the first sector whose status
    shows a fault or an error: they then return -1 right after that status
    was read, with the lock released, the sectors before it moved (into
    memory at dst for a read, to the data port for a write) and nothing of
    the later sectors touched.  The error check is made for every sector:
    each transfer comes right after a status that ended the busy-wait
    without a fault, and a status that ends a busy-wait with the fault or
    the error bit set ends the call, with nothing moved after it.  Neither
    call changes the queue or a buf, and with a controller that answers
    the busy-wait both return. *)
Theorem swap_transfer secno mem s :
  idelock s = false ->
  (forall r s', read_swap secno mem s = (r, s') ->
     exists wss new,
       Forall (fun ws => length ws = 128%nat) wss /\
       trace s' = trace s ++ new /\
       (data_events new
        = swap_regs secno ATA_CMD_READ ++ map (EvInsl 0x170) wss \/
        (r = Spin /\ data_events new = [] /\ wss = [])) /\
       ram s' = store_dwords (ram s) mem (concat wss) /\
       (forall x, x < mem \/ mem + 512 * Z.of_nat (length wss) <= x ->
                  ram s' x = ram s x) /\
       idequeue s' = idequeue s /\ bufs s' = bufs s /\
       swap_outcome 8 r (length wss) s' new /\
       swap_trace secno ATA_CMD_READ (EvInsl 0x170) r s' new) /\
  (forall r s', write_swap secno mem s = (r, s') ->
     exists k new,
       trace s' = trace s ++ new /\
       (data_events new
        = swap_regs secno ATA_CMD_WRITE
            ++ map (EvOutsl 0x170) (load_sectors (ram s) mem k) \/
        (r = Spin /\ data_events new = [] /\ k = 0%nat)) /\
       ram s' = ram s /\
       idequeue s' = idequeue s /\ bufs s' = bufs s /\
       swap_outcome 8 r k s' new /\
       swap_trace secno ATA_CMD_WRITE (EvOutsl 0x170) r s' new) /\
  (responsive (hw_in s) 0x177 ->
   (exists x s', read_swap secno mem s = (Ok x, s')) /\
   (exists x s', write_swap secno mem s = (Ok x, s'))).
Proof.
  intros Hl. destruct (swap_moved secno mem s Hl) as (Hread & Hwrite & Htotal).
  split; [|split; [|exact Htotal]].
  - intros r s' E.
    destruct (Hread r s' E) as (wss & new & H1 & Et & H3 & H4 & H5 & H6 & H7 & H8).
    exists wss, new. repeat (split; [assumption|]).
    unfold read_swap in E. unfold bind at 1 in E. unfold acquire in E.
    rewrite Hl in E.
    apply (swap_trace_intro secno ATA_CMD_READ (EvInsl 0x170)
             (read_swap_loop 8 IO_BASE1 mem) (with_lock true s) r s');
      [discriminate | apply read_swap_loop_rounds | exact E | exact Et].
  - intros r s' E.
    destruct (Hwrite r s' E) as (k & new & Et & H3 & H4 & H6 & H7 & H8).
    exists k, new. repeat (split; [assumption|]).
    unfold write_swap in E. unfold bind at 1 in E. unfold acquire in E.
    rewrite Hl in E.
    apply (swap_trace_intro secno ATA_CMD_WRITE (EvOutsl 0x170)
             (write_swap_loop 8 IO_BASE1 mem) (with_lock true s) r s');
      [discriminate | apply write_swap_loop_rounds | exact E | exact Et].
Qed.

(** ** The queue as a linked list *)

Lemma lseg_lookup m p l a : lseg m p l -> a ∈ l -> is_Some (m !! a).
Proof.
  revert p. induction l as [|x l IH]; intros p H Ha; [inversion Ha|].
  destruct H as (-> & bf & Hb & Hl).
  apply elem_of_cons in Ha as [->|Ha]; [eauto | eapply IH; eauto].
Qed.

Lemma lseg_length m p l : lseg m p l -> NoDup l -> (length l <= size m)%nat.
Proof.
  intros H Hnd.
  rewrite <- (size_list_to_set (C := gset nat) l Hnd), <- (size_dom m).
  apply subseteq_size. intros a Ha. apply elem_of_list_to_set in Ha.
  apply elem_of_dom. eapply lseg_lookup; eauto.
Qed.

Lemma lseg_chain m p l fuel :
  lseg m p l -> (length l <= fuel)%nat -> chain fuel m p = l.
Proof.
  revert p fuel. induction l as [|a l IH]; intros p fuel H Hf.
  - simpl in H. subst. now destruct fuel.
  - destruct H as (-> & bf & Hb & Hl). destruct fuel; [simpl in Hf; lia|].
    simpl. rewrite Hb. f_equal. apply IH; [auto | simpl in Hf; lia].
Qed.

Lemma lseg_head m p l : lseg m p l -> p = head l.
Proof. destruct l; simpl; [auto | now intros (-> & _)]. Qed.

Lemma lseg_insert_fresh m p l a x :
  a ∉ l -> lseg m p l -> lseg (<[a := x]> m) p l.
Proof.
  revert p. induction l as [|y l IH]; intros p Ha H; [exact H|].
  destruct H as (-> & bf & Hb & Hl). apply not_elem_of_cons in Ha as (Hne & Ha).
  split; [reflexivity|]. exists bf. split; [now rewrite lookup_insert_ne | auto].
Qed.

(** Linking a buf whose own link is null behind the last buf of the queue. *)
Lemma lseg_snoc m p l t bt b bfb :
  lseg m p l -> NoDup l -> last l = Some t -> m !! t = Some bt ->
  b ∉ l -> m !! b = Some bfb -> qnext bfb = None ->
  lseg (<[t := set_qnext (Some b) bt]> m) p (l ++ [b]).
Proof.
  revert p. induction l as [|a l IH]; intros p H Hnd Hlast Ht Hb Hmb Hq;
    [discriminate|].
  destruct H as (-> & bf & Hbf & Hl).
  apply NoDup_cons in Hnd as (Ha & Hnd).
  apply not_elem_of_cons in Hb as (Hba & Hbl).
  destruct l as [|a2 l].
  - inversion Hlast; subst t. simpl in Hl. rewrite Ht in Hbf. inversion Hbf; subst bf.
    simpl. split; [reflexivity|]. eexists. split; [apply lookup_insert_eq|].
    simpl. split; [reflexivity|]. exists bfb.
    split; [now rewrite lookup_insert_ne | auto].
  - assert (Hta : t <> a).
    { intros ->. apply Ha. change (last (a :: a2 :: l)) with (last (a2 :: l)) in Hlast.
      now apply last_Some_elem_of. }
    cbn [app]. split; [reflexivity|]. exists bf.
    split; [now rewrite lookup_insert_ne|].
    apply IH; auto.
Qed.

(** The append loop stops at the tail slot, and changes nothing. *)
Lemma find_tail_lseg fuel pp s p l :
  read_slot pp s = (Ok p, s) ->
  lseg (bufs s) p l ->
  (length l < fuel)%nat ->
  find_tail fuel pp s = (Ok (tail_slot pp l), s).
Proof.
  revert fuel pp p. induction l as [|a l IH]; intros fuel pp p Hr H Hf;
    (destruct fuel; [simpl in Hf; lia|]); simpl; unfold bind; rewrite Hr.
  - simpl in H. subst. reflexivity.
  - destruct H as (-> & bf & Hb & Hl).
    assert (Hr' : read_slot (SlotNext a) s = (Ok (qnext bf), s)).
    { simpl. unfold bind, getbuf. now rewrite Hb. }
    assert (Hf' : (length l < fuel)%nat) by (simpl in Hf; lia).
    rewrite (IH fuel (SlotNext a) (qnext bf) Hr' Hl Hf').
    f_equal. f_equal. unfold tail_slot.
    destruct l as [|a2 l]; [reflexivity|].
    change (last (a :: a2 :: l)) with (last (a2 :: l)).
    destruct (last (a2 :: l)) eqn:E; [reflexivity|].
    apply last_None in E. discriminate.
Qed.

(** ** Requests in flight *)

Lemma track_app c t1 t2 :
  track c (t1 ++ t2)
  = match track c t1 with
    | Some c' => track c' t2
    | None => None
    end.
Proof.
  revert c. induction t1 as [|e t1 IH]; intros c; [reflexivity|].
  destruct e; simpl; auto.
  - destruct (bool_decide (c = Some chan)); auto.
  - destruct c; auto.
Qed.

Lemma track_quiet c t : Forall (fun e => quiet e = true) t -> track c t = Some c.
Proof.
  induction 1 as [|e t He _ IH]; [reflexivity|].
  destruct e; simpl in *; auto; discriminate.
Qed.

Lemma starts_app t1 t2 : starts (t1 ++ t2) = starts t1 ++ starts t2.
Proof.
  induction t1 as [|e t1 IH]; [reflexivity|]. destruct e; simpl; auto.
  now rewrite IH.
Qed.

Lemma starts_quiet t : Forall (fun e => quiet e = true) t -> starts t = [].
Proof.
  induction 1 as [|e t He _ IH]; [reflexivity|].
  destruct e; simpl in *; auto; discriminate.
Qed.

(** ** Operations that leave the queue alone *)

Lemma aside_refl s : aside s s.
Proof.
  repeat split; auto. exists []. split; [now rewrite app_nil_r | constructor].
Qed.

Lemma aside_trans s1 s2 s3 : aside s1 s2 -> aside s2 s3 -> aside s1 s3.
Proof.
  intros (A1 & A2 & n1 & E1 & H1) (B1 & B2 & n2 & E2 & H2).
  repeat split; try congruence.
  exists (n1 ++ n2). split; [now rewrite E2, E1, app_assoc | now apply Forall_app].
Qed.

Lemma aside_silent s s' :
  idequeue s' = idequeue s -> bufs s' = bufs s -> trace s' = trace s -> aside s s'.
Proof.
  intros H1 H2 H3. repeat split; auto. exists [].
  split; [now rewrite app_nil_r | constructor].
Qed.

Lemma keeps_aside_io {A} (m : M A) : keeps io_only m -> keeps aside m.
Proof.
  intros H s r s' E. apply H in E as (_ & Hq & _ & _ & Hb & _ & _ & Hn).
  repeat split; auto.
Qed.

Lemma keeps_aside_acquire : keeps aside acquire.
Proof.
  intros s r s'. unfold acquire. destruct (idelock s); intros E; inversion E;
    subst; now apply aside_silent.
Qed.

Lemma keeps_aside_release : keeps aside release.
Proof. apply keeps_modify. intros. now apply aside_silent. Qed.

Lemma keeps_aside_sleep b : keeps aside (sleep b).
Proof.
  unfold sleep. apply (keeps_bind _ aside_trans); [|intros; apply keeps_aside_release].
  apply keeps_modify. intros s. repeat split; auto.
  exists [EvSleep b]. split; [reflexivity | repeat constructor].
Qed.

Lemma keeps_aside_insl port dst cnt : keeps aside (insl port dst cnt).
Proof.
  intros s r s' E. inversion E; subst. repeat split; auto.
  eexists. split; [reflexivity | repeat constructor].
Qed.

Ltac keeps_aside prim :=
  repeat first
    [ prim
    | apply (keeps_ret _ aside_refl)
    | apply (keeps_panic _ aside_refl)
    | apply (keeps_spinning _ aside_refl)
    | apply (keeps_gets _ aside_refl)
    | apply (keeps_getbuf _ aside_refl)
    | apply keeps_aside_acquire
    | apply keeps_aside_release
    | apply keeps_aside_sleep
    | apply keeps_aside_insl
    | apply keeps_aside_io; first [ apply keeps_io_idewait | apply keeps_io_outb
                                  | apply keeps_io_outsl ]
    | apply (keeps_bind _ aside_trans); [|intros ?]
    | match goal with
      | |- keeps _ (if ?c then _ else _) => destruct c
      | |- keeps _ (match ?x with _ => _ end) => destruct x
      end ].

Lemma keeps_aside_iderw_wait b : keeps aside (iderw_wait b).
Proof. unfold iderw_wait. keeps_aside fail. Qed.

Lemma keeps_aside_iderw_resume b : keeps aside (iderw_resume b).
Proof. unfold iderw_resume. keeps_aside ltac:(apply keeps_aside_iderw_wait). Qed.

Lemma keeps_aside_ideintr_read bf : keeps aside (ideintr_read bf).
Proof. unfold ideintr_read. keeps_aside fail. Qed.

Lemma keeps_aside_swap_setup secno cmd : keeps aside (swap_setup secno cmd).
Proof. unfold swap_setup. keeps_aside fail. Qed.

Lemma keeps_aside_read_swap secno dst : keeps aside (read_swap secno dst).
Proof.
  unfold read_swap.
  assert (H : forall n d, keeps aside (read_swap_loop n IO_BASE1 d)).
  { induction n; intros d; simpl; keeps_aside ltac:(apply IHn). }
  keeps_aside ltac:(first [ apply keeps_aside_swap_setup | apply H ]).
Qed.

Lemma keeps_aside_write_swap secno src : keeps aside (write_swap secno src).
Proof.
  unfold write_swap.
  assert (H : forall n d, keeps aside (write_swap_loop n IO_BASE1 d)).
  { induction n; intros d; simpl; keeps_aside ltac:(apply IHn). }
  keeps_aside ltac:(first [ apply keeps_aside_swap_setup | apply H ]).
Qed.

(** ** The queue invariant *)

Lemma queue_inv_intro s l :
  NoDup l ->
  lseg (bufs s) (idequeue s) l ->
  track None (trace s) = Some (idequeue s) ->
  queued s = l /\ queue_inv s.
Proof.
  intros Hnd Hl Ht.
  assert (E : queued s = l).
  { unfold queued. apply lseg_chain; [auto | now apply lseg_length with (idequeue s)]. }
  split; [exact E|]. unfold queue_inv. rewrite E. auto.
Qed.

Lemma queue_inv_idle s :
  idequeue s = None -> track None (trace s) = Some None -> queue_inv s.
Proof.
  intros Hq Ht.
  destruct (queue_inv_intro s []) as (_ & H); auto;
    first [ constructor | now rewrite Hq ].
Qed.

Lemma queue_inv_aside s s' :
  queue_inv s -> aside s s' ->
  queue_inv s' /\ queued s' = queued s /\
  exists new, trace s' = trace s ++ new /\ starts new = [] /\
    track (idequeue s) new = Some (idequeue s').
Proof.
  intros (Hnd & Hl & Ht) (Hq & Hb & new & Et & Hn).
  assert (E : queued s' = queued s) by (unfold queued; now rewrite Hq, Hb).
  split; [|split; [exact E|]].
  - unfold queue_inv. rewrite E, Hq, Hb, Et, track_app, Ht.
    repeat split; auto. now apply track_quiet.
  - exists new. split; [auto|]. split; [now apply starts_quiet|].
    rewrite Hq. now apply track_quiet.
Qed.

(** The append of iderw on a well-formed queue that does not hold [b]:
    [b] becomes the last request, and idestart is called exactly when the
    queue was empty. *)
Lemma iderw_append_inv b bf s r s' :
  queue_inv s ->
  bufs s !! b = Some bf ->
  b ∉ queued s ->
  idelock s = false ->
  iderw_append b s = (r, s') ->
  exists sq,
    trace sq = trace s /\
    NoDup (queued s ++ [b]) /\
    lseg (bufs sq) (idequeue sq) (queued s ++ [b]) /\
    ((queued s = [] /\ idequeue sq = Some b /\ idestart (Some b) sq = (r, s')) \/
     (queued s <> [] /\ idequeue sq = idequeue s /\ r = Ok tt /\ s' = sq)).
Proof.
  intros (Hnd & Hl & Ht) Hb Hfresh Hlock E.
  set (l := queued s) in *.
  assert (Hnd' : NoDup (l ++ [b])).
  { apply NoDup_app. split; [auto|]. split; [|apply NoDup_singleton].
    intros x Hx Hx'. apply list_elem_of_singleton in Hx'. now subst. }
  unfold iderw_append in E.
  unfold bind at 1 in E. unfold acquire in E. rewrite Hlock in E.
  cbn [write_slot] in E.
  rewrite (bind_ok _ _ _ _ _ (update_buf_eq b (set_qnext None) bf (with_lock true s) Hb)) in E.
  set (m2 := <[b := set_qnext None bf]> (bufs (with_lock true s))) in *.
  set (s2 := with_bufs m2 (with_lock true s)) in *.
  assert (Hl2 : lseg (bufs s2) (idequeue s2) l) by (now apply lseg_insert_fresh).
  assert (Hb2 : bufs s2 !! b = Some (set_qnext None bf)) by apply lookup_insert_eq.
  assert (Ef : queue_tail s2 = (Ok (tail_slot SlotHead l), s2)).
  { unfold queue_tail, bind, gets.
    apply find_tail_lseg with (idequeue s2); [reflexivity | exact Hl2 |].
    pose proof (lseg_length _ _ _ Hl2 Hnd). lia. }
  rewrite (bind_ok _ _ _ _ _ Ef) in E. unfold tail_slot in E.
  destruct (last l) as [t|] eqn:Hlast.
  - assert (Ht2 : is_Some (bufs s2 !! t)).
    { eapply lseg_lookup; [exact Hl2 | now apply last_Some_elem_of]. }
    destruct Ht2 as (bt & Ht2). cbn [write_slot] in E.
    rewrite (bind_ok _ _ _ _ _ (update_buf_eq t (set_qnext (Some b)) bt s2 Ht2)) in E.
    set (s3 := with_bufs (<[t := set_qnext (Some b) bt]> (bufs s2)) s2) in *.
    unfold bind, gets in E. change (idequeue s3) with (idequeue s) in E.
    assert (Hne : l <> []) by (intros El; rewrite El in Hlast; discriminate).
    assert (Hhd : idequeue s <> Some b).
    { rewrite (lseg_head _ _ _ Hl). destruct l as [|a l']; [congruence|].
      simpl. intros Ea. inversion Ea; subst. apply Hfresh. left. }
    rewrite bool_decide_eq_false_2 in E by exact Hhd.
    inversion E; subst r s'. exists s3. split; [reflexivity|]. split; [exact Hnd'|].
    split; [|right; auto].
    apply (lseg_snoc (bufs s2) (idequeue s) l t bt b (set_qnext None bf)); auto.
  - apply last_None in Hlast. cbn [write_slot] in E.
    unfold bind at 1 in E. unfold modify at 1 in E.
    set (s3 := with_queue (Some b) s2) in *.
    unfold bind, gets in E. change (idequeue s3) with (Some b) in E.
    rewrite bool_decide_eq_true_2 in E by reflexivity.
    exists s3. split; [reflexivity|]. split; [exact Hnd'|].
    split; [|left; auto].
    rewrite Hlast. simpl. split; [reflexivity|].
    exists (set_qnext None bf). split; [exact Hb2 | reflexivity].
Qed.

Lemma ideintr_locked s : idelock s = true -> ideintr s = (Spin, s).
Proof. intros H. unfold ideintr, bind, acquire. now rewrite H. Qed.

Lemma iderw_append_locked b s : idelock s = true -> iderw_append b s = (Spin, s).
Proof. intros H. unfold iderw_append, bind, acquire. now rewrite H. Qed.

(** What one operation does to the trace and to the invariant. *)
Lemma step_iderw_inv b s r s' :
  queue_inv s ->
  b ∉ queued s ->
  iderw_begin b s = (r, s') ->
  exists new cur,
    trace s' = trace s ++ new /\
    track (idequeue s) new = Some cur /\
    (starts new = [] \/ (queued s = [] /\ starts new = [Some b])) /\
    (forall x, r = Ok x -> queue_inv s' /\ queued s' = queued s ++ [b]).
Proof.
  intros Hinv Hfresh E.
  assert (Hnone : exists new cur, trace s = trace s ++ new /\
            track (idequeue s) new = Some cur /\
            (starts new = [] \/ (queued s = [] /\ starts new = [Some b]))).
  { exists [], (idequeue s). rewrite app_nil_r. auto. }
  unfold iderw_begin in E.
  apply bind_inv in E as [(x & se & Ee & Ew)|(r0 & Ee & Hf)].
  - destruct (bufs s !! b) as [bf|] eqn:Hb;
      [|unfold iderw_enqueue, bind, getbuf in Ee; rewrite Hb in Ee; discriminate].
    rewrite (iderw_enqueue_eq b bf s Hb) in Ee.
    destruct (_ =? 0); [discriminate|]. destruct (_ =? B_VALID); [discriminate|].
    destruct (_ && _); [discriminate|].
    destruct (idelock s) eqn:Hlock;
      [rewrite (iderw_append_locked b s Hlock) in Ee; discriminate|].
    apply (iderw_append_inv b bf s _ _ Hinv Hb Hfresh Hlock) in Ee
      as (sq & Etq & Hnd & Hlq & Hc).
    pose proof (keeps_aside_iderw_wait b _ _ _ Ew) as Ha.
    destruct Hinv as (_ & Hl & Ht).
    assert (Hse : exists new,
      trace se = trace s ++ new /\
      track (idequeue s) new = Some (idequeue se) /\
      (starts new = [] \/ (queued s = [] /\ starts new = [Some b])) /\
      lseg (bufs se) (idequeue se) (queued s ++ [b])).
    { destruct Hc as [(Hq & Hqh & Es)|(Hq & Hqh & _ & ->)].
      - apply idestart_frame in Es
          as (_ & A2 & _ & _ & A5 & _ & _ & new & Et & Hn).
        cbn [trace idequeue bufs emit] in *.
        exists (EvStart (Some b) :: new). rewrite Et, Etq.
        split; [now rewrite <- app_assoc|].
        split; [|split; [|now rewrite A2, A5]].
        + rewrite (lseg_head _ _ _ Hl), Hq. simpl. rewrite A2, Hqh.
          now apply track_quiet.
        + right. split; [auto|]. simpl. now rewrite (starts_quiet _ Hn).
      - exists []. rewrite app_nil_r. split; [auto|].
        split; [simpl; now rewrite Hqh|]. split; [left; reflexivity | exact Hlq]. }
    destruct Hse as (new1 & Et1 & Htr1 & Hst1 & Hl1).
    assert (Hinv1 : queued se = queued s ++ [b] /\ queue_inv se).
    { apply queue_inv_intro; auto.
      rewrite Et1, track_app, Ht. exact Htr1. }
    destruct Hinv1 as (Eq1 & Hinv1).
    destruct (queue_inv_aside se s' Hinv1 Ha) as (Hinv' & Eq' & new2 & Et2 & Hst2 & Htr2).
    exists (new1 ++ new2), (idequeue s').
    split; [rewrite Et2, Et1; now rewrite app_assoc|].
    split; [now rewrite track_app, Htr1|].
    split; [rewrite starts_app, Hst2, app_nil_r; exact Hst1|].
    intros _ _. split; [exact Hinv' | congruence].
  - assert (Hfail : forall y, r <> Ok y).
    { intros y ->. destruct r0; simpl in Hf; contradiction. }
    assert (Hstay : s' = s ->
      exists new cur,
        trace s' = trace s ++ new /\
        track (idequeue s) new = Some cur /\
        (starts new = [] \/ (queued s = [] /\ starts new = [Some b])) /\
        (forall x, r = Ok x -> queue_inv s' /\ queued s' = queued s ++ [b])).
    { intros ->. destruct Hnone as (new & cur & H1 & H2 & H3).
      exists new, cur. split; [exact H1|]. split; [exact H2|].
      split; [exact H3|]. intros y Hy. now apply Hfail in Hy. }
    destruct (bufs s !! b) as [bf|] eqn:Hb.
    2:{ unfold iderw_enqueue, bind, getbuf in Ee. rewrite Hb in Ee.
        inversion Ee; subst. now apply Hstay. }
    rewrite (iderw_enqueue_eq b bf s Hb) in Ee.
    destruct (_ =? 0); [inversion Ee; subst; now apply Hstay|].
    destruct (_ =? B_VALID); [inversion Ee; subst; now apply Hstay|].
    destruct (_ && _); [inversion Ee; subst; now apply Hstay|].
    destruct (idelock s) eqn:Hlock.
    { rewrite (iderw_append_locked b s Hlock) in Ee. inversion Ee; subst.
      now apply Hstay. }
    apply (iderw_append_inv b bf s _ _ Hinv Hb Hfresh Hlock) in Ee
      as (sq & Etq & Hnd & Hlq & Hc).
    destruct Hinv as (_ & Hl & Ht).
    destruct Hc as [(Hq & Hqh & Es)|(_ & _ & -> & _)];
      [|simpl in Hf; contradiction].
    apply idestart_frame in Es
      as (_ & A2 & _ & _ & A5 & _ & _ & new & Et & Hn).
    cbn [trace idequeue bufs emit] in *.
    exists (EvStart (Some b) :: new), (Some b). rewrite Et, Etq.
    split; [now rewrite <- app_assoc|].
    split; [|split].
    + rewrite (lseg_head _ _ _ Hl), Hq. simpl. now apply track_quiet.
    + right. split; [auto|]. simpl. now rewrite (starts_quiet _ Hn).
    + intros y Hy. now apply Hfail in Hy.
Qed.

Lemma step_intr_inv s r s' :
  queue_inv s ->
  ideintr s = (r, s') ->
  exists new cur,
    trace s' = trace s ++ new /\
    track (idequeue s) new = Some cur /\
    (starts new = [] \/
     exists a n rest, queued s = a :: n :: rest /\ starts new = [Some n]) /\
    (r = Ok tt -> queue_inv s' /\ queued s' = tail (queued s)).
Proof.
  intros Hinv E.
  assert (Hstay : s' = s ->
    exists new cur,
      trace s' = trace s ++ new /\
      track (idequeue s) new = Some cur /\
      (starts new = [] \/
       exists a n rest, queued s = a :: n :: rest /\ starts new = [Some n]) /\
      (queued s = [] -> queue_inv s' /\ queued s' = tail (queued s))).
  { intros ->. exists [], (idequeue s). rewrite app_nil_r.
    split; [auto|]. split; [auto|]. split; [auto|].
    intros ->. auto. }
  destruct (idelock s) eqn:Hlock.
  { rewrite (ideintr_locked s Hlock) in E. inversion E; subst.
    destruct (Hstay eq_refl) as (new & cur & H1 & H2 & H3 & _).
    exists new, cur. repeat split; auto; discriminate. }
  destruct Hinv as (Hnd & Hl & Ht).
  destruct (queued s) as [|a rest] eqn:Eq.
  { simpl in Hl. rewrite (ideintr_idle s Hl Hlock) in E. inversion E; subst.
    destruct (Hstay eq_refl) as (new & cur & H1 & H2 & H3 & H4).
    exists new, cur. auto. }
  clear Hstay. destruct Hl as (Hq & bf & Hb & Hl).
  apply NoDup_cons in Hnd as (Ha & Hnd).
  apply (ideintr_inv a bf s r s' Hlock Hq Hb) in E as (r1 & s1 & E1 & Hc).
  apply keeps_aside_ideintr_read in E1 as (A1 & A2 & pre & Et1 & Hpre).
  cbn [idequeue bufs trace with_queue with_lock] in A1, A2, Et1.
  destruct Hc as [(_ & -> & ->)|(_ & r2 & s2 & E2 & Hr)].
  { exists pre, (Some a). split; [auto|]. rewrite Hq.
    split; [now apply track_quiet|]. split; [left; now apply starts_quiet|].
    discriminate. }
  apply ideintr_next_frame in E2 as (_ & B2 & B3 & _ & post & Et2 & Hpost).
  cbn [idequeue bufs trace emit with_bufs] in B2, B3, Et2, Hpost.
  assert (Hs' : idequeue s' = idequeue s2 /\ bufs s' = bufs s2 /\
                trace s' = trace s2).
  { destruct Hr as [(_ & _ & ->)|(_ & _ & ->)]; auto. }
  destruct Hs' as (C1 & C2 & C3).
  assert (Htr : track (Some a) (pre ++ EvWakeup a :: post) = Some (idequeue s') /\
    (starts (pre ++ EvWakeup a :: post) = [] \/
     exists n rest', rest = n :: rest' /\
       starts (pre ++ EvWakeup a :: post) = [Some n])).
  { rewrite track_app, (track_quiet _ _ Hpre), starts_app, (starts_quiet _ Hpre).
    simpl. rewrite bool_decide_eq_true_2 by reflexivity.
    rewrite C1, B2, A1.
    destruct Hpost as [(Hn & -> & _)|(n & q & Hn & -> & Hquiet)].
    - rewrite <- A1, Hn. simpl. auto.
    - rewrite <- A1, Hn. simpl. rewrite (track_quiet _ _ Hquiet).
      split; [reflexivity|]. right.
      rewrite (starts_quiet _ Hquiet).
      rewrite A1 in Hn. rewrite Hn in Hl.
      destruct rest as [|n' rest']; [discriminate|].
      destruct Hl as (En & _). inversion En; subst. eauto. }
  destruct Htr as (Htr & Hst).
  exists (pre ++ EvWakeup a :: post), (idequeue s').
  split; [rewrite C3, Et2, Et1, <- !app_assoc; reflexivity|].
  split; [now rewrite Hq|].
  split.
  { destruct Hst as [Hst|(n & rest' & -> & Hst)]; [left; auto|].
    right. exists a, n, rest'. auto. }
  intros _. simpl.
  assert (H : queued s' = rest /\ queue_inv s').
  { apply queue_inv_intro; [exact Hnd | |].
    - rewrite C2, B3, C1, B2, A1, A2. now apply lseg_insert_fresh.
    - rewrite C3, Et2, Et1, <- !app_assoc, track_app, Ht, Hq. exact Htr. }
  destruct H; auto.
Qed.

Lemma step_inv o s r s' :
  queue_inv s ->
  fresh o s ->
  step o s = (r, s') ->
  exists new cur,
    trace s' = trace s ++ new /\
    track (idequeue s) new = Some cur /\
    starts_allowed o s new /\
    (r = Ok tt -> queue_inv s').
Proof.
  intros Hinv Hfresh E.
  assert (Haside : aside s s' ->
    exists new cur,
      trace s' = trace s ++ new /\
      track (idequeue s) new = Some cur /\
      starts new = [] /\ (r = Ok tt -> queue_inv s')).
  { intros Ha. destruct (queue_inv_aside s s' Hinv Ha)
      as (Hinv' & _ & new & Et & Hst & Htr).
    exists new, (idequeue s'). auto. }
  destruct o; cbn [step fresh starts_allowed] in *.
  - apply bind_inv in E as [(x & s1 & E1 & E2)|(r0 & E1 & Hf)].
    + inversion E2; subst.
      destruct (step_iderw_inv b s _ _ Hinv Hfresh E1)
        as (new & cur & H1 & H2 & H3 & H4).
      exists new, cur. split; [exact H1|]. split; [exact H2|]. split; [exact H3|].
      intros _. now destruct (H4 x eq_refl).
    + destruct (step_iderw_inv b s _ _ Hinv Hfresh E1)
        as (new & cur & H1 & H2 & H3 & H4).
      exists new, cur. split; [exact H1|]. split; [exact H2|]. split; [exact H3|].
      intros ->. destruct r0; simpl in Hf; contradiction.
  - apply Haside.
    apply bind_inv in E as [(x & s1 & E1 & E2)|(r0 & E1 & Hf)].
    + inversion E2; subst. eapply keeps_aside_iderw_resume; eauto.
    + eapply keeps_aside_iderw_resume; eauto.
  - destruct (step_intr_inv s r s' Hinv E) as (new & cur & H1 & H2 & H3 & H4).
    exists new, cur. split; [exact H1|]. split; [exact H2|]. split; [exact H3|].
    intros Hr. now destruct (H4 Hr).
  - apply Haside.
    apply bind_inv in E as [(x & s1 & E1 & E2)|(r0 & E1 & Hf)].
    + inversion E2; subst. eapply keeps_aside_read_swap; eauto.
    + eapply keeps_aside_read_swap; eauto.
  - apply Haside.
    apply bind_inv in E as [(x & s1 & E1 & E2)|(r0 & E1 & Hf)].
    + inversion E2; subst. eapply keeps_aside_write_swap; eauto.
    + eapply keeps_aside_write_swap; eauto.
Qed.

Lemma run_inv ops s r s' :
  queue_inv s ->
  fresh_run ops s ->
  run ops s = (r, s') ->
  (exists cur, track None (trace s') = Some cur) /\
  (r = Ok tt -> queue_inv s').
Proof.
  revert s. induction ops as [|o ops IH]; intros s Hinv Hfr E.
  - inversion E; subst. split; [|auto]. destruct Hinv as (_ & _ & Ht). eauto.
  - destruct Hfr as (Hf & Hfr). cbn [run] in E.
    apply bind_inv in E as [(x & s1 & E1 & E2)|(r0 & E1 & Hfail)].
    + destruct x. rewrite E1 in Hfr.
      destruct (step_inv o s _ _ Hinv Hf E1) as (new & cur & _ & _ & _ & H4).
      apply (IH s1); auto.
    + destruct (step_inv o s _ _ Hinv Hf E1) as (new & cur & Et & Htr & _ & _).
      split.
      * exists cur. destruct Hinv as (_ & _ & Ht).
        now rewrite Et, track_app, Ht.
      * intros ->. destruct r0; simpl in Hfail; contradiction.
Qed.

(** C1 as the code has it.  As long as no request is handed to iderw
    while it is still on idequeue, at most one request is in flight: over
    every sequence of driver operations from a well-formed queue, no call
    of idestart is made while a started request has not been completed, and
    after every operation that returns the request in flight is the head
    of the queue.  Operation by operation: iderw calls idestart at most
    once, for its own request and only when the queue was empty before the
    append; ideintr at most once, for the request that follows the one it
    completes; the other operations never. *)
Theorem one_request_in_flight :
  (forall ops s r s',
     queue_inv s -> fresh_run ops s -> run ops s = (r, s') ->
     (exists cur, track None (trace s') = Some cur) /\
     (r = Ok tt -> queue_inv s')) /\
  (forall o s r s',
     queue_inv s -> fresh o s -> step o s = (r, s') ->
     exists new cur,
       trace s' = trace s ++ new /\
       track (idequeue s) new = Some cur /\
       starts_allowed o s new) /\
  (forall s, idequeue s = None -> track None (trace s) = Some None ->
             queue_inv s).
Proof.
  split; [|split].
  - intros ops s r s'. apply run_inv.
  - intros o s r s' Hinv Hf E.
    destruct (step_inv o s r s' Hinv Hf E) as (new & cur & H1 & H2 & H3 & _).
    eauto.
  - apply queue_inv_idle.
Qed.

(** * Further properties of the driver *)

(** ** The busy-wait in terms of the controller *)

Lemma status_at_advance port v s i :
  status_at (advance 1 [EvInb port v] s) port i = status_at s port (S i).
Proof.
  unfold status_at. cbn [hw_in clock advance].
  now replace (clock s + 1 + i)%nat with (clock s + S i)%nat by lia.
Qed.

Lemma status_at_0 port s : status_at s port 0 = uint8 (hw_in s (clock s) port).
Proof. unfold status_at. now rewrite Nat.add_0_r. Qed.

Lemma statuses_shift port v s n :
  status_at s port 0 = v ->
  v :: map (status_at (advance 1 [EvInb port v] s) port) (seq 0 n)
  = map (status_at s port) (seq 0 (S n)).
Proof.
  intros <-. cbn [seq map]. f_equal. rewrite <- seq_shift, map_map.
  apply map_ext. intros i. apply status_at_advance.
Qed.

Lemma idewait_poll_first fuel port s n :
  (n < fuel)%nat ->
  (forall i, (i < n)%nat -> Z.land (status_at s port i) ATA_SR_BSY <> 0) ->
  Z.land (status_at s port n) ATA_SR_BSY = 0 ->
  idewait_poll fuel port s
  = (Ok (status_at s port n),
     after_polls port (map (status_at s port) (seq 0 (S n))) s).
Proof.
  revert fuel s. induction n as [|n IH]; intros fuel s Hn Hbusy Hready;
    (destruct fuel as [|fuel]; [lia|]); simpl idewait_poll; unfold bind;
    rewrite inb_eq, <- status_at_0.
  - rewrite Hready. reflexivity.
  - destruct (Z.eqb_spec (Z.land (status_at s port 0) ATA_SR_BSY) 0) as [Hz|_];
      [exfalso; apply (Hbusy 0%nat); [lia | exact Hz]|].
    rewrite (IH fuel (advance 1 [EvInb port (status_at s port 0)] s)).
    + rewrite status_at_advance, after_polls_cons.
      now rewrite statuses_shift.
    + lia.
    + intros i Hi. rewrite status_at_advance. apply Hbusy. lia.
    + now rewrite status_at_advance.
Qed.

Lemma idewait_poll_stuck fuel port s :
  (forall i, (i < fuel)%nat -> Z.land (status_at s port i) ATA_SR_BSY <> 0) ->
  idewait_poll fuel port s
  = (Spin, after_polls port (map (status_at s port) (seq 0 fuel)) s).
Proof.
  revert s. induction fuel as [|fuel IH]; intros s Hbusy; simpl idewait_poll.
  - unfold spinning, after_polls. now rewrite advance_0_nil.
  - unfold bind. rewrite inb_eq, <- status_at_0.
    destruct (Z.eqb_spec (Z.land (status_at s port 0) ATA_SR_BSY) 0) as [Hz|_];
      [exfalso; apply (Hbusy 0%nat); [lia | exact Hz]|].
    rewrite IH.
    + rewrite after_polls_cons. now rewrite statuses_shift.
    + intros i Hi. rewrite status_at_advance. apply Hbusy. lia.
Qed.

(** X1.  The busy-wait returns at the first status with the busy bit clear, and
    its result depends on that status alone: -1 when the caller asked for
    the error check and the status shows a drive fault or an error, 0
    otherwise.  While the controller stays busy it does not return. *)
Theorem idewait_first_ready iobase check_error s :
  (forall n,
     (n < spin)%nat ->
     (forall i, (i < n)%nat ->
        Z.land (status_at s (iobase + ATA_STATUS) i) ATA_SR_BSY <> 0) ->
     Z.land (status_at s (iobase + ATA_STATUS) n) ATA_SR_BSY = 0 ->
     idewait iobase check_error s
     = (Ok (if negb (check_error =? 0)
               && faulty (status_at s (iobase + ATA_STATUS) n)
            then -1 else 0),
        after_polls (iobase + ATA_STATUS)
          (map (status_at s (iobase + ATA_STATUS)) (seq 0 (S n))) s)) /\
  ((forall i, (i < spin)%nat ->
      Z.land (status_at s (iobase + ATA_STATUS) i) ATA_SR_BSY <> 0) ->
   idewait iobase check_error s
   = (Spin, after_polls (iobase + ATA_STATUS)
              (map (status_at s (iobase + ATA_STATUS)) (seq 0 spin)) s)).
Proof.
  split.
  - intros n Hn Hbusy Hready. unfold idewait.
    rewrite (bind_ok _ _ _ _ _ (idewait_poll_first spin _ s n Hn Hbusy Hready)).
    fold (faulty (status_at s (iobase + ATA_STATUS) n)).
    now destruct (_ && _).
  - intros Hbusy. unfold idewait, bind.
    now rewrite (idewait_poll_stuck spin _ s Hbusy).
Qed.

(** ** Initialization *)

(** The presence loop reads the status until it is nonzero, at most [n]
    times. *)
Lemma probe_inv n port f s r s' :
  probe n port (modify f) s = (r, s') ->
  r = Ok tt /\
  (s' = after_polls port (repeat 0 n) s \/
   exists z v, (z < n)%nat /\ v <> 0 /\
     s' = f (after_polls port (repeat 0 z ++ [v]) s)).
Proof.
  revert s. induction n as [|n IH]; intros s E; simpl probe in E.
  - inversion E; subst. split; [reflexivity|]. left.
    unfold after_polls. simpl. now rewrite advance_0_nil.
  - unfold bind in E. rewrite inb_eq in E.
    set (v := uint8 (hw_in s (clock s) port)) in *.
    destruct (Z.eqb_spec v 0) as [Hv|Hv]; cbn [negb] in E.
    + apply IH in E as (-> & Hc). split; [reflexivity|].
      rewrite Hv in Hc.
      destruct Hc as [->|(z & w & Hz & Hw & ->)].
      * left. now rewrite after_polls_cons.
      * right. exists (S z), w. split; [lia|]. split; [exact Hw|].
        now rewrite after_polls_cons.
    + inversion E; subst. split; [reflexivity|]. right.
      exists 0%nat, v. split; [lia|]. split; [exact Hv | reflexivity].
Qed.

(** The loops of ideinit other than the two busy-waits are bounded. *)
Lemma ideinit_no_spin s s' :
  responsive (hw_in s) 0x1f7 -> responsive (hw_in s) 0x177 ->
  ideinit s <> (Spin, s').
Proof.
  intros R1 R2 E. unfold ideinit in E.
  unfold bind at 1 in E. unfold modify at 1 in E.
  destruct (idewait_total IO_BASE0 0 (with_lock false s) R1) as (x & vs & Et).
  rewrite (bind_ok _ _ _ _ _ Et) in E. rewrite bind_outb in E. cbv beta in E.
  apply bind_inv in E as [(x2 & sb & Eb & E)|(r0 & Eb & Hf)];
    apply probe_inv in Eb as (Er & Hp); [|subst r0; contradiction].
  unfold bind at 1 in E. unfold gets at 1 in E.
  destruct (havedisk1 sb =? 0); [discriminate|].
  assert (Hh : hw_in sb = hw_in s).
  { destruct Hp as [->|(z & v & _ & _ & ->)]; reflexivity. }
  rewrite <- Hh in R2.
  destruct (idewait_total IO_BASE1 0 sb R2) as (x' & vs' & Et').
  rewrite (bind_ok _ _ _ _ _ Et') in E. rewrite bind_outb in E. cbv beta in E.
  apply bind_inv in E as [(x4 & sd & Ed & E)|(r0 & Ed & Hf)];
    apply probe_inv in Ed as (Er' & Hp'); [|subst r0; contradiction].
  unfold bind at 1 in E. unfold gets at 1 in E.
  destruct (havedisk2 sd =? 0); [discriminate|].
  rewrite outb_eq in E. discriminate.
Qed.

(** X2.  ideinit from the boot state (both presence flags as their
    initializers leave them).  It selects the slave of the primary channel
    and reads its status up to 1000 times, then the master of the secondary
    channel likewise; a disk is taken as present at the first nonzero
    status.  It panics exactly after 1000 zero statuses of a channel (for
    disk 1 before anything of the secondary channel was touched), and when
    it returns both flags are 1, the last write has switched the primary
    channel back to its master, and idelock is free.  It changes neither
    the queue, nor a buf, nor memory, and with a controller that answers
    the two busy-waits it returns or panics. *)
Theorem ideinit_outcomes s r s' :
  havedisk1 s = 0 -> havedisk2 s = 0 ->
  ideinit s = (r, s') ->
  (responsive (hw_in s) 0x1f7 -> responsive (hw_in s) 0x177 -> r <> Spin) /\
  idequeue s' = idequeue s /\ bufs s' = bufs s /\ ram s' = ram s /\
  exists vs1,
    let sel1 := map (EvInb 0x1f7) vs1 ++ [EvOutb 0x1f6 0xf0] in
    (r = Spin /\ trace s' = trace s ++ map (EvInb 0x1f7) vs1) \/
    (r = Panic "ide disk 1 not present" /\ havedisk1 s' = 0 /\
     trace s' = trace s ++ sel1 ++ map (EvInb 0x1f7) (repeat 0 1000)) \/
    exists z1 v1 vs2,
      (z1 < 1000)%nat /\ v1 <> 0 /\ havedisk1 s' = 1 /\
      let found1 := sel1 ++ map (EvInb 0x1f7) (repeat 0 z1 ++ [v1]) in
      let sel2 := map (EvInb 0x177) vs2 ++ [EvOutb 0x176 0xe0] in
      (r = Spin /\ trace s' = trace s ++ found1 ++ map (EvInb 0x177) vs2) \/
      (r = Panic "ide disk 2(swap disk) not present" /\ havedisk2 s' = 0 /\
       trace s' = trace s ++ found1 ++ sel2 ++ map (EvInb 0x177) (repeat 0 1000)) \/
      exists z2 v2,
        (z2 < 1000)%nat /\ v2 <> 0 /\
        r = Ok tt /\ havedisk2 s' = 1 /\ idelock s' = false /\
        trace s' = trace s ++ found1 ++ sel2
                     ++ map (EvInb 0x177) (repeat 0 z2 ++ [v2])
                     ++ [EvOutb 0x1f6 0xe0].
Proof.
  intros H1 H2 E.
  split; [intros R1 R2 ->; exact (ideinit_no_spin s s' R1 R2 E)|].
  unfold ideinit in E.
  unfold bind at 1 in E. unfold modify at 1 in E.
  apply bind_inv in E as [(x1 & sa & Ea & E)|(r0 & Ea & Hf)];
    apply idewait_inv in Ea as (vs1 & -> & Hr1).
  2:{ destruct r0, r; simpl in Hf; try contradiction.
      repeat split; auto. exists vs1. left. split; reflexivity. }
  rewrite bind_outb in E. cbv beta in E.
  change (uint8 (Z.lor 0xe0 (Z.shiftl (Z.land FS_DEVNO 1) 4))) with 0xf0 in E.
  apply bind_inv in E as [(x2 & sb & Eb & E)|(r0 & Eb & Hf)];
    apply probe_inv in Eb as (Er & Hp);
    [|subst r0; contradiction].
  unfold bind at 1 in E. unfold gets at 1 in E.
  destruct Hp as [->|(z1 & v1 & Hz1 & Hv1 & ->)];
    cbn [havedisk1 after_polls advance with_lock with_havedisk1] in E.
  { rewrite H1 in E. inversion E; subst.
    repeat split; auto. exists vs1. right; left.
    split; [reflexivity|]. split; [exact H1|].
    cbn [trace after_polls advance with_lock]. now rewrite <- !app_assoc. }
  cbn [Z.eqb] in E.
  apply bind_inv in E as [(x3 & sc & Ec & E)|(r0 & Ec & Hf)];
    apply idewait_inv in Ec as (vs2 & -> & Hr2).
  2:{ destruct r0, r; simpl in Hf; try contradiction.
      repeat split; auto. exists vs1. right; right. exists z1, v1, vs2.
      split; [exact Hz1|]. split; [exact Hv1|]. split; [reflexivity|].
      left. split; [reflexivity|].
      cbn [trace after_polls advance with_lock with_havedisk1].
      now rewrite <- !app_assoc. }
  rewrite bind_outb in E. cbv beta in E.
  change (uint8 (Z.lor 0xe0 (Z.shiftl (Z.land SWAP_DEVNO 1) 4))) with 0xe0 in E.
  apply bind_inv in E as [(x4 & sd & Ed & E)|(r0 & Ed & Hf)];
    apply probe_inv in Ed as (Er' & Hp);
    [|subst r0; contradiction].
  unfold bind at 1 in E. unfold gets at 1 in E.
  destruct Hp as [->|(z2 & v2 & Hz2 & Hv2 & ->)];
    cbn [havedisk2 after_polls advance with_lock with_havedisk1 with_havedisk2] in E.
  { rewrite H2 in E. inversion E; subst.
    repeat split; auto. exists vs1. right; right. exists z1, v1, vs2.
    split; [exact Hz1|]. split; [exact Hv1|]. split; [reflexivity|].
    right; left. split; [reflexivity|]. split; [exact H2|].
    cbn [trace after_polls advance with_lock with_havedisk1].
    now rewrite <- !app_assoc. }
  cbn [Z.eqb] in E. rewrite outb_eq in E.
  change (uint8 (Z.lor 0xe0 (Z.shiftl 0 4))) with 0xe0 in E.
  inversion E; subst.
  repeat split; auto. exists vs1. right; right. exists z1, v1, vs2.
  split; [exact Hz1|]. split; [exact Hv1|]. split; [reflexivity|].
  right; right. exists z2, v2.
  split; [exact Hz2|]. split; [exact Hv2|]. split; [reflexivity|].
  split; [reflexivity|]. split; [reflexivity|].
  cbn [trace after_polls advance with_lock with_havedisk1 with_havedisk2].
  now rewrite <- !app_assoc.
Qed.

(** ** The block address a channel is programmed with *)

Lemma lba_bytes z :
  Z.land z 0xff + 2 ^ 8 * Z.land (Z.shiftr z 8) 0xff
  + 2 ^ 16 * Z.land (Z.shiftr z 16) 0xff + 2 ^ 24 * Z.land (Z.shiftr z 24) 0x0f
  = z mod 2 ^ 28.
Proof.
  change 0xff with (Z.ones 8). change 0x0f with (Z.ones 4).
  rewrite !Z.land_ones, !Z.shiftr_div_pow2 by lia.
  change (2 ^ 8) with 256. change (2 ^ 16) with 65536.
  change (2 ^ 24) with 16777216. change (2 ^ 4) with 16.
  change (2 ^ 28) with 268435456.
  Z.to_euclidean_division_equations. lia.
Qed.

Lemma uint8_byte x : uint8 (Z.land x 0xff) = Z.land x 0xff.
Proof.
  unfold uint8. apply Z.mod_small.
  change 0xff with (Z.ones 8). rewrite Z.land_ones by lia.
  apply Z.mod_pos_bound. lia.
Qed.

Lemma sint32_mod28 x : sint32 x mod 2 ^ 28 = x mod 2 ^ 28.
Proof.
  unfold sint32. cbv zeta.
  change (2 ^ 31) with 2147483648. change (2 ^ 32) with 4294967296.
  change (2 ^ 28) with 268435456.
  destruct (_ <? _); Z.to_euclidean_division_equations; lia.
Qed.

Lemma nibble_cases n :
  0 <= n < 16 -> In n [0; 1; 2; 3; 4; 5; 6; 7; 8; 9; 10; 11; 12; 13; 14; 15].
Proof. intros H. simpl. lia. Qed.

(** The drive/head byte [0xe0 | ((d&1)<<4) | (y & 0x0f)]: it fits a byte,
    its low four bits are those of [y], bits 5 to 7 are set (LBA
    addressing) and bit 4 is the low bit of [d]. *)
Lemma drive_byte d y :
  let v := Z.lor (Z.lor 0xe0 (Z.shiftl (Z.land d 1) 4)) (Z.land y 0x0f) in
  uint8 v = v /\ Z.land v 0x0f = Z.land y 0x0f /\ Z.land v 0xe0 = 0xe0 /\
  Z.testbit v 4 = Z.odd d.
Proof.
  intros v. subst v. unfold uint8.
  assert (Hn : 0 <= Z.land y 0x0f < 16).
  { change 0x0f with (Z.ones 4). rewrite Z.land_ones by lia.
    apply Z.mod_pos_bound. lia. }
  assert (Hd : Z.land d 1 = if Z.odd d then 1 else 0).
  { change 1 with (Z.ones 1) at 1. rewrite Z.land_ones by lia.
    change (2 ^ 1) with 2. rewrite Zmod_odd. reflexivity. }
  rewrite Hd. generalize (Z.land y 0x0f) Hn. intros n Hn'.
  pose proof (nibble_cases n Hn') as Hc. simpl in Hc.
  destruct (Z.odd d);
    repeat (destruct Hc as [<-|Hc]; [repeat split; reflexivity|]);
    contradiction.
Qed.

Lemma regfile_app t1 t2 rf : regfile (t1 ++ t2) rf = regfile t2 (regfile t1 rf).
Proof.
  revert rf. induction t1 as [|e t1 IH]; intros rf; [reflexivity|].
  destruct e; simpl; apply IH.
Qed.

(** A trace without byte writes leaves every register as it was. *)
Lemma regfile_no_outb tr rf :
  Forall (fun e => match e with EvOutb _ _ => False | _ => True end) tr ->
  regfile tr rf = rf.
Proof.
  intros H. revert rf. induction H as [|e tr He _ IH]; intros rf; [reflexivity|].
  destruct e; simpl; try apply IH. contradiction.
Qed.

Lemma regfile_polls port vs rf : regfile (map (EvInb port) vs) rf = rf.
Proof. apply regfile_no_outb. induction vs; simpl; constructor; auto. Qed.

Lemma regfile_data_events tr rf : regfile (data_events tr) rf = regfile tr rf.
Proof.
  revert rf. induction tr as [|e tr IH]; intros rf; [reflexivity|].
  destruct e; simpl; apply IH.
Qed.

Lemma regfile_primary v0 v2 v3 v4 v5 v6 rf :
  let rf' := regfile [EvOutb 0x3f6 v0; EvOutb 0x1f2 v2; EvOutb 0x1f3 v3;
                      EvOutb 0x1f4 v4; EvOutb 0x1f5 v5; EvOutb 0x1f6 v6] rf in
  rf' 0x3f6 = v0 /\ rf' 0x1f2 = v2 /\ rf' 0x1f3 = v3 /\ rf' 0x1f4 = v4 /\
  rf' 0x1f5 = v5 /\ rf' 0x1f6 = v6.
Proof. repeat split; reflexivity. Qed.

Lemma regfile_secondary v0 v2 v3 v4 v5 v6 v7 rf :
  let rf' := regfile [EvOutb 0x376 v0; EvOutb 0x172 v2; EvOutb 0x173 v3;
                      EvOutb 0x174 v4; EvOutb 0x175 v5; EvOutb 0x176 v6;
                      EvOutb 0x177 v7] rf in
  rf' 0x376 = v0 /\ rf' 0x172 = v2 /\ rf' 0x173 = v3 /\ rf' 0x174 = v4 /\
  rf' 0x175 = v5 /\ rf' 0x176 = v6 /\ rf' 0x177 = v7.
Proof. repeat split; reflexivity. Qed.

(** The command of idestart writes no register but the command register. *)
Lemma regfile_start_cmd bf r rf p :
  p <> 0x1f7 -> regfile (start_cmd bf r) rf p = rf p.
Proof.
  intros Hp. unfold start_cmd. destruct (has_flag _ _); simpl;
    destruct (Z.eqb_spec p 0x1f7); congruence.
Qed.

(** What the task file of the primary channel holds after idestart. *)
Lemma idestart_regfile a bf s s' :
  bufs s !! a = Some bf ->
  idestart (Some a) s = (Ok tt, s') ->
  blockno bf < uint32 FSSIZE /\
  exists new, trace s' = trace s ++ new /\
    forall rf,
      let sector := sint32 (blockno bf * Z.quot BSIZE SECTSIZE) in
      let rf' := regfile new rf in
      rf' 0x3f6 = uint8 0 /\
      rf' 0x1f2 = uint8 (Z.quot BSIZE SECTSIZE) /\
      rf' 0x1f3 = uint8 (Z.land sector 0xff) /\
      rf' 0x1f4 = uint8 (Z.land (Z.shiftr sector 8) 0xff) /\
      rf' 0x1f5 = uint8 (Z.land (Z.shiftr sector 16) 0xff) /\
      rf' 0x1f6 = uint8 (Z.lor (Z.lor 0xe0 (Z.shiftl (Z.land (dev bf) 1) 4))
                               (Z.land (Z.shiftr sector 24) 0x0f)).
Proof.
  intros Hb E. apply (idestart_inv a bf s _ _ Hb) in E.
  destruct E as [(_ & ? & _)|[(_ & _ & ? & _)|(Hlt & _ & vs & Hc)]];
    try discriminate.
  destruct Hc as [(? & _)|(_ & ->)]; [discriminate|].
  split; [exact Hlt|]. eexists. split; [reflexivity|]. intros rf.
  cbv zeta. change (EvStart (Some a) :: ?l) with ([EvStart (Some a)] ++ l).
  rewrite !regfile_app. cbn [regfile]. rewrite regfile_polls.
  rewrite !regfile_start_cmd by discriminate.
  unfold start_regs. apply regfile_primary.
Qed.

Lemma geometry_sectors :
  geometry ->
  Z.quot BSIZE SECTSIZE = BSIZE / SECTSIZE /\ 1 <= BSIZE / SECTSIZE <= 7.
Proof.
  intros (_ & Hpos & Hmod & Hle).
  split; [apply Z.quot_div_nonneg; unfold SECTSIZE; lia|].
  split; [|exact Hle]. unfold SECTSIZE in *.
  Z.to_euclidean_division_equations. lia.
Qed.

(** X3.  The address idestart programs.  After a call that returns, the task
    file of the primary channel holds the sector count BSIZE/512, LBA
    addressing with the drive bit taken from the device id, interrupts
    enabled, and as block address the low 28 bits of
    blockno * (BSIZE/512); when the file system fits 28-bit addressing
    that is the first sector of the block itself. *)
Theorem idestart_lba a bf s s' :
  geometry ->
  bufs s !! a = Some bf ->
  idestart (Some a) s = (Ok tt, s') ->
  exists new, trace s' = trace s ++ new /\
    forall rf,
      let rf' := regfile new rf in
      lba28 IO_BASE0 rf' = (blockno bf * (BSIZE / SECTSIZE)) mod 2 ^ 28 /\
      rf' (IO_BASE0 + ATA_SECCNT) = BSIZE / SECTSIZE /\
      rf' (IO_CTRL0 + ATA_CTRL) = 0 /\
      Z.land (rf' (IO_BASE0 + ATA_SDH)) 0xe0 = 0xe0 /\
      Z.testbit (rf' (IO_BASE0 + ATA_SDH)) 4 = Z.odd (dev bf) /\
      (0 <= blockno bf -> FSSIZE * (BSIZE / SECTSIZE) <= 2 ^ 28 ->
       lba28 IO_BASE0 rf' = blockno bf * (BSIZE / SECTSIZE)).
Proof.
  intros Hg Hb E.
  destruct (idestart_regfile a bf s s' Hb E) as (Hlt & new & Et & Hrf).
  destruct (geometry_sectors Hg) as (Eq & Hspb).
  rewrite (geometry_fssize Hg) in Hlt.
  exists new. split; [exact Et|]. intros rf. cbv zeta.
  destruct (Hrf rf) as (R0 & R2 & R3 & R4 & R5 & R6). cbv zeta in *.
  rewrite Eq in *.
  set (sector := sint32 (blockno bf * (BSIZE / SECTSIZE))) in *.
  destruct (drive_byte (dev bf) (Z.shiftr sector 24)) as (D1 & D2 & D3 & D4).
  cbv zeta in *. rewrite D1 in R6. rewrite !uint8_byte in *.
  assert (Hlba : lba28 IO_BASE0 (regfile new rf)
                 = (blockno bf * (BSIZE / SECTSIZE)) mod 2 ^ 28).
  { unfold lba28.
    change (IO_BASE0 + ATA_SECTOR) with 0x1f3.
    change (IO_BASE0 + ATA_CYL_LO) with 0x1f4.
    change (IO_BASE0 + ATA_CYL_HI) with 0x1f5.
    change (IO_BASE0 + ATA_SDH) with 0x1f6.
    rewrite R3, R4, R5, R6, D2, lba_bytes. apply sint32_mod28. }
  change (IO_BASE0 + ATA_SECCNT) with 0x1f2.
  change (IO_CTRL0 + ATA_CTRL) with 0x3f6.
  change (IO_BASE0 + ATA_SDH) with 0x1f6.
  split; [exact Hlba|].
  split; [rewrite R2; unfold uint8; apply Z.mod_small; lia|].
  split; [rewrite R0; reflexivity|].
  split; [rewrite R6; exact D3|].
  split; [rewrite R6; exact D4|].
  intros H0 Hfit. rewrite Hlba. apply Z.mod_small. split; [nia|].
  apply Z.lt_le_trans with (FSSIZE * (BSIZE / SECTSIZE)); [nia | exact Hfit].
Qed.

(** X4.  Two blocks never share a sector: when the file system fits 28-bit
    addressing, the sector ranges idestart programs for two different
    block numbers are disjoint. *)
Theorem blocks_do_not_overlap a1 bf1 s1 s1' a2 bf2 s2 s2' :
  geometry ->
  FSSIZE * (BSIZE / SECTSIZE) <= 2 ^ 28 ->
  bufs s1 !! a1 = Some bf1 -> bufs s2 !! a2 = Some bf2 ->
  0 <= blockno bf1 -> 0 <= blockno bf2 -> blockno bf1 <> blockno bf2 ->
  idestart (Some a1) s1 = (Ok tt, s1') ->
  idestart (Some a2) s2 = (Ok tt, s2') ->
  exists new1 new2,
    trace s1' = trace s1 ++ new1 /\ trace s2' = trace s2 ++ new2 /\
    forall rf1 rf2,
      let first1 := lba28 IO_BASE0 (regfile new1 rf1) in
      let count1 := regfile new1 rf1 (IO_BASE0 + ATA_SECCNT) in
      let first2 := lba28 IO_BASE0 (regfile new2 rf2) in
      let count2 := regfile new2 rf2 (IO_BASE0 + ATA_SECCNT) in
      first1 + count1 <= first2 \/ first2 + count2 <= first1.
Proof.
  intros Hg Hfit Hb1 Hb2 H1 H2 Hne E1 E2.
  destruct (idestart_regfile a1 bf1 s1 s1' Hb1 E1) as (Hlt1 & new1 & Et1 & Hrf1).
  destruct (idestart_regfile a2 bf2 s2 s2' Hb2 E2) as (Hlt2 & new2 & Et2 & Hrf2).
  destruct (geometry_sectors Hg) as (Eq & Hspb).
  rewrite (geometry_fssize Hg) in Hlt1, Hlt2.
  exists new1, new2. split; [exact Et1|]. split; [exact Et2|].
  intros rf1 rf2. cbv zeta.
  destruct (Hrf1 rf1) as (_ & P2 & P3 & P4 & P5 & P6).
  destruct (Hrf2 rf2) as (_ & Q2 & Q3 & Q4 & Q5 & Q6). cbv zeta in *.
  rewrite Eq in *.
  set (sec1 := sint32 (blockno bf1 * (BSIZE / SECTSIZE))) in *.
  set (sec2 := sint32 (blockno bf2 * (BSIZE / SECTSIZE))) in *.
  destruct (drive_byte (dev bf1) (Z.shiftr sec1 24)) as (D1 & D2 & _).
  destruct (drive_byte (dev bf2) (Z.shiftr sec2 24)) as (G1 & G2 & _).
  cbv zeta in *. rewrite D1 in P6. rewrite G1 in Q6. rewrite !uint8_byte in *.
  unfold lba28.
  change (IO_BASE0 + ATA_SECTOR) with 0x1f3.
  change (IO_BASE0 + ATA_CYL_LO) with 0x1f4.
  change (IO_BASE0 + ATA_CYL_HI) with 0x1f5.
  change (IO_BASE0 + ATA_SDH) with 0x1f6.
  change (IO_BASE0 + ATA_SECCNT) with 0x1f2.
  rewrite P2, P3, P4, P5, P6, D2, Q2, Q3, Q4, Q5, Q6, G2, !lba_bytes.
  unfold sec1, sec2. rewrite !sint32_mod28.
  assert (Hs : uint8 (BSIZE / SECTSIZE) = BSIZE / SECTSIZE)
    by (unfold uint8; apply Z.mod_small; lia).
  rewrite Hs.
  rewrite !Z.mod_small by (split; [nia|];
    apply Z.lt_le_trans with (FSSIZE * (BSIZE / SECTSIZE)); [nia | exact Hfit]).
  nia.
Qed.

(** ** The swap calls: what they program and what they move *)

Lemma port_dwords_range h t port n :
  Forall (fun w => 0 <= w < 2 ^ 32) (port_dwords h t port n).
Proof.
  revert t. induction n as [|n IH]; intros t; simpl; constructor; auto.
  unfold uint32. apply Z.mod_pos_bound. lia.
Qed.

(** A swap read that returns: the sectors it pulled, each 128 dwords as
    the port delivered them. *)
Lemma read_swap_loop_ok n dst s x s' :
  read_swap_loop n IO_BASE1 dst s = (Ok x, s') ->
  exists wss new,
    Forall (fun ws => length ws = 128%nat /\ Forall (fun w => 0 <= w < 2 ^ 32) ws)
           wss /\
    trace s' = trace s ++ new /\
    data_events new = map (EvInsl 0x170) wss /\
    ram s' = store_dwords (ram s) dst (concat wss) /\
    ((x = 0 /\ length wss = n) \/ (x = -1 /\ (length wss < n)%nat)).
Proof.
  revert dst s. induction n as [|n IH]; intros dst s E; simpl in E.
  - inversion E; subst. exists [], []. simpl. rewrite app_nil_r.
    repeat split; auto.
  - apply bind_inv in E as [(y & sw & Ew & E)|(r0 & Ew & Hf)];
      [|destruct r0; contradiction].
    apply idewait_inv in Ew as (vs & -> & v & Hl & _ & ->).
    change (negb (1 =? 0)) with true in E. cbn [andb] in E.
    destruct (faulty v).
    + inversion E; subst. exists [], (map (EvInb 0x177) vs).
      simpl. rewrite data_events_polls. repeat split; auto.
      right. split; [reflexivity | lia].
    + simpl in E. unfold bind at 1 in E. unfold insl at 1 in E.
      apply IH in E as (wss & new & Hw & Et & Hd & Hram & Hx).
      cbn [trace ram hw_in clock after_polls advance] in *.
      set (ws := port_dwords (hw_in s) (clock s + length vs) 0x170
                   (Z.to_nat (SECTSIZE `quot` 4))) in *.
      assert (Hlen : length ws = 128%nat) by apply port_dwords_length.
      exists (ws :: wss), (map (EvInb 0x177) vs ++ [EvInsl 0x170 ws] ++ new).
      split; [constructor; [split; [exact Hlen | apply port_dwords_range] | exact Hw]|].
      split; [rewrite Et; now rewrite <- !app_assoc|].
      split; [rewrite !data_events_app, data_events_polls, Hd; reflexivity|].
      split.
      { rewrite Hram. cbn [concat]. rewrite store_dwords_app, Hlen. reflexivity. }
      destruct Hx as [(-> & Hk)|(-> & Hk)]; [left | right]; simpl; split; auto; lia.
Qed.

Lemma read_swap_ok secno mem s x s' :
  read_swap secno mem s = (Ok x, s') ->
  exists wss new,
    Forall (fun ws => length ws = 128%nat /\ Forall (fun w => 0 <= w < 2 ^ 32) ws)
           wss /\
    trace s' = trace s ++ new /\
    data_events new = swap_regs secno ATA_CMD_READ ++ map (EvInsl 0x170) wss /\
    ram s' = store_dwords (ram s) mem (concat wss) /\
    ((x = 0 /\ length wss = 8%nat) \/ (x = -1 /\ (length wss < 8)%nat)).
Proof.
  intros E. unfold read_swap in E.
  unfold bind at 1 in E. unfold acquire in E.
  destruct (idelock s); [discriminate|].
  apply bind_inv in E as [(y & s1 & E1 & E2)|(r0 & E1 & Hf)];
    [|destruct r0; contradiction].
  apply swap_setup_inv in E1 as (vs & [(? & _)|(_ & ->)]); [discriminate|].
  apply read_swap_loop_ok in E2 as (wss & new & Hw & Et & Hd & Hram & Hx).
  cbn [trace ram advance with_lock] in *.
  exists wss, ((map (EvInb 0x177) vs ++ swap_regs secno ATA_CMD_READ) ++ new).
  split; [exact Hw|]. split; [now rewrite Et, <- !app_assoc|].
  split; [|split; [exact Hram | exact Hx]].
  rewrite !data_events_app, data_events_polls, Hd. reflexivity.
Qed.

Lemma write_swap_ok secno mem s x s' :
  write_swap secno mem s = (Ok x, s') ->
  exists k new,
    trace s' = trace s ++ new /\
    data_events new
    = swap_regs secno ATA_CMD_WRITE
        ++ map (EvOutsl 0x170) (load_sectors (ram s) mem k) /\
    ((x = 0 /\ k = 8%nat) \/ (x = -1 /\ (k < 8)%nat)).
Proof.
  intros E. unfold write_swap in E.
  unfold bind at 1 in E. unfold acquire in E.
  destruct (idelock s); [discriminate|].
  apply bind_inv in E as [(y & s1 & E1 & E2)|(r0 & E1 & Hf)];
    [|destruct r0; contradiction].
  apply swap_setup_inv in E1 as (vs & [(? & _)|(_ & ->)]); [discriminate|].
  apply write_swap_loop_inv in E2 as (k & new & Et & Hd & _ & _ & _ & _ & Ho).
  cbn [trace ram advance with_lock] in *.
  exists k, ((map (EvInb 0x177) vs ++ swap_regs secno ATA_CMD_WRITE) ++ new).
  split; [now rewrite Et, <- !app_assoc|].
  split; [rewrite !data_events_app, data_events_polls, Hd; reflexivity|].
  destruct Ho as [(Hr & Hk & _)|[(Hr & Hk & _)|(? & _)]]; [| |discriminate];
    inversion Hr; subst; auto.
Qed.

Lemma regfile_transfers (f : list Z -> event) wss rf :
  (forall ws, match f ws with EvOutb _ _ => False | _ => True end) ->
  regfile (map f wss) rf = rf.
Proof.
  intros Hf. apply regfile_no_outb.
  induction wss; simpl; constructor; [apply Hf | auto].
Qed.

(** What the task file of the secondary channel holds after the writes
    [swap_regs secno cmd]. *)
Lemma swap_regs_regfile secno cmd rf :
  0 <= cmd < 256 ->
  let rf' := regfile (swap_regs secno cmd) rf in
  lba28 IO_BASE1 rf' = secno mod 2 ^ 28 /\
  rf' (IO_BASE1 + ATA_SECCNT) = 8 /\
  rf' (IO_CTRL1 + ATA_CTRL) = 0 /\
  Z.land (rf' (IO_BASE1 + ATA_SDH)) 0xe0 = 0xe0 /\
  Z.testbit (rf' (IO_BASE1 + ATA_SDH)) 4 = false /\
  rf' (IO_BASE1 + ATA_COMMAND) = cmd.
Proof.
  intros Hc. cbv zeta. unfold swap_regs.
  destruct (regfile_secondary (uint8 0) (uint8 8)
              (uint8 (Z.land secno 0xFF))
              (uint8 (Z.land (Z.shiftr secno 8) 0xFF))
              (uint8 (Z.land (Z.shiftr secno 16) 0xFF))
              (uint8 (Z.lor (Z.lor 0xE0 (Z.shiftl (Z.land SWAP_DEVNO 1) 4))
                            (Z.land (Z.shiftr secno 24) 0xF)))
              (uint8 cmd) rf) as (R0 & R2 & R3 & R4 & R5 & R6 & R7).
  cbv zeta in *.
  unfold lba28.
  change (IO_BASE1 + ATA_SECTOR) with 0x173.
  change (IO_BASE1 + ATA_CYL_LO) with 0x174.
  change (IO_BASE1 + ATA_CYL_HI) with 0x175.
  change (IO_BASE1 + ATA_SDH) with 0x176.
  change (IO_BASE1 + ATA_SECCNT) with 0x172.
  change (IO_CTRL1 + ATA_CTRL) with 0x376.
  change (IO_BASE1 + ATA_COMMAND) with 0x177.
  rewrite R0, R2, R3, R4, R5, R6, R7.
  destruct (drive_byte SWAP_DEVNO (Z.shiftr secno 24)) as (D1 & D2 & D3 & D4).
  cbv zeta in *. rewrite D1, !uint8_byte, D2, lba_bytes.
  repeat split; auto.
  unfold uint8. apply Z.mod_small. exact Hc.
Qed.

(** X5.  The address the swap calls program.  After a call that returns (with
    0 or with -1) the task file of the secondary channel holds the sector
    count 8, LBA addressing of the master drive, interrupts enabled, the
    read or the write command, and as block address the low 28 bits of
    secno. *)
Theorem swap_lba secno mem s x s' :
  (read_swap secno mem s = (Ok x, s') ->
   exists new, trace s' = trace s ++ new /\
     forall rf,
       let rf' := regfile new rf in
       lba28 IO_BASE1 rf' = secno mod 2 ^ 28 /\
       rf' (IO_BASE1 + ATA_SECCNT) = 8 /\
       rf' (IO_CTRL1 + ATA_CTRL) = 0 /\
       Z.land (rf' (IO_BASE1 + ATA_SDH)) 0xe0 = 0xe0 /\
       Z.testbit (rf' (IO_BASE1 + ATA_SDH)) 4 = false /\
       rf' (IO_BASE1 + ATA_COMMAND) = ATA_CMD_READ) /\
  (write_swap secno mem s = (Ok x, s') ->
   exists new, trace s' = trace s ++ new /\
     forall rf,
       let rf' := regfile new rf in
       lba28 IO_BASE1 rf' = secno mod 2 ^ 28 /\
       rf' (IO_BASE1 + ATA_SECCNT) = 8 /\
       rf' (IO_CTRL1 + ATA_CTRL) = 0 /\
       Z.land (rf' (IO_BASE1 + ATA_SDH)) 0xe0 = 0xe0 /\
       Z.testbit (rf' (IO_BASE1 + ATA_SDH)) 4 = false /\
       rf' (IO_BASE1 + ATA_COMMAND) = ATA_CMD_WRITE).
Proof.
  split; intros E.
  - apply read_swap_ok in E as (wss & new & _ & Et & Hd & _).
    exists new. split; [exact Et|]. intros rf. cbv zeta.
    rewrite <- (regfile_data_events new), Hd, regfile_app.
    rewrite regfile_transfers by (intros; exact I).
    apply swap_regs_regfile. unfold ATA_CMD_READ. lia.
  - apply write_swap_ok in E as (k & new & Et & Hd & _).
    exists new. split; [exact Et|]. intros rf. cbv zeta.
    rewrite <- (regfile_data_events new), Hd, regfile_app.
    rewrite regfile_transfers by (intros; exact I).
    apply swap_regs_regfile. unfold ATA_CMD_WRITE. lia.
Qed.

(** Memory keeps what was stored: a dword, a run of dwords, a run of
    sectors. *)
Lemma load32_ext r r' a :
  (forall x, a <= x < a + 4 -> r' x = r x) -> load32 r' a = load32 r a.
Proof. intros H. unfold load32. rewrite !H by lia. reflexivity. Qed.

Lemma load32_store32 r a w : 0 <= w < 2 ^ 32 -> load32 (store32 r a w) a = w.
Proof.
  intros Hw. unfold load32, store32, uint8.
  rewrite Z.eqb_refl.
  destruct (Z.eqb_spec (a + 1) a); [lia|]. rewrite Z.eqb_refl.
  destruct (Z.eqb_spec (a + 2) a); [lia|].
  destruct (Z.eqb_spec (a + 2) (a + 1)); [lia|]. rewrite Z.eqb_refl.
  destruct (Z.eqb_spec (a + 3) a); [lia|].
  destruct (Z.eqb_spec (a + 3) (a + 1)); [lia|].
  destruct (Z.eqb_spec (a + 3) (a + 2)); [lia|]. rewrite Z.eqb_refl.
  change (2 ^ 8) with 256. change (2 ^ 16) with 65536.
  change (2 ^ 24) with 16777216. change (2 ^ 32) with 4294967296 in Hw.
  Z.to_euclidean_division_equations. lia.
Qed.

Lemma load_dwords_ext r r' a n :
  (forall x, a <= x < a + 4 * Z.of_nat n -> r' x = r x) ->
  load_dwords r' a n = load_dwords r a n.
Proof.
  revert a. induction n as [|n IH]; intros a H; [reflexivity|].
  cbn [load_dwords]. f_equal.
  - apply load32_ext. intros x Hx. apply H. lia.
  - apply IH. intros x Hx. apply H. lia.
Qed.

Lemma load_store_dwords r a ws :
  Forall (fun w => 0 <= w < 2 ^ 32) ws ->
  load_dwords (store_dwords r a ws) a (length ws) = ws.
Proof.
  intros H. revert r a. induction H as [|w ws Hw _ IH]; intros r a; [reflexivity|].
  cbn [store_dwords length load_dwords]. f_equal.
  - rewrite <- (load32_store32 r a w Hw) at 2. apply load32_ext.
    intros x Hx. apply store_dwords_outside. lia.
  - apply IH.
Qed.

Lemma load_sectors_ext r r' a n :
  (forall x, a <= x < a + 512 * Z.of_nat n -> r' x = r x) ->
  load_sectors r' a n = load_sectors r a n.
Proof.
  revert a. induction n as [|n IH]; intros a H; [reflexivity|].
  cbn [load_sectors]. f_equal.
  - apply load_dwords_ext. intros x Hx. apply H. lia.
  - apply IH. intros x Hx. apply H. lia.
Qed.

Lemma load_store_sectors r a wss :
  Forall (fun ws => length ws = 128%nat /\ Forall (fun w => 0 <= w < 2 ^ 32) ws)
         wss ->
  load_sectors (store_dwords r a (concat wss)) a (length wss) = wss.
Proof.
  intros H. revert r a. induction H as [|ws wss (Hlen & Hws) _ IH]; intros r a;
    [reflexivity|].
  cbn [concat length load_sectors]. rewrite store_dwords_app, Hlen.
  change (4 * Z.of_nat 128) with 512. f_equal.
  - rewrite <- (load_store_dwords r a ws Hws) at 2. rewrite Hlen.
    apply load_dwords_ext. intros x Hx. apply store_dwords_outside. lia.
  - apply IH.
Qed.

(** X6.  A page that was swapped in is swapped out unchanged.  When read_swap
    has returned 0 and the eight sectors at [mem] have not been written
    since, a write_swap of the same memory that returns 0 puts on the data
    port the 1024 dwords the read took from it, in the same order. *)
Theorem swap_round_trip secno1 secno2 mem s s1 s2 s3 :
  read_swap secno1 mem s = (Ok 0, s1) ->
  (forall x, mem <= x < mem + 4096 -> ram s2 x = ram s1 x) ->
  write_swap secno2 mem s2 = (Ok 0, s3) ->
  exists wss new1 new2,
    length (concat wss) = 1024%nat /\
    trace s1 = trace s ++ new1 /\ trace s3 = trace s2 ++ new2 /\
    data_events new1 = swap_regs secno1 ATA_CMD_READ ++ map (EvInsl 0x170) wss /\
    data_events new2 = swap_regs secno2 ATA_CMD_WRITE ++ map (EvOutsl 0x170) wss.
Proof.
  intros Er Hsame Ew.
  apply read_swap_ok in Er as (wss & new1 & Hw & Et1 & Hd1 & Hram & Hx).
  apply write_swap_ok in Ew as (k & new2 & Et2 & Hd2 & Hk).
  destruct Hx as [(_ & Hlen)|(? & _)]; [|discriminate].
  destruct Hk as [(_ & ->)|(? & _)]; [|discriminate].
  exists wss, new1, new2.
  split.
  { assert (H : length (concat wss) = (128 * length wss)%nat).
    { clear -Hw. induction Hw as [|ws wss (Hws & _) _ IH]; simpl; [reflexivity|].
      rewrite length_app, IH, Hws. lia. }
    rewrite H, Hlen. reflexivity. }
  split; [exact Et1|]. split; [exact Et2|]. split; [exact Hd1|].
  rewrite Hd2. do 2 f_equal.
  rewrite (load_sectors_ext (ram s1) (ram s2) mem 8) by (intros; apply Hsame; lia).
  rewrite Hram, <- Hlen. apply load_store_sectors. exact Hw.
Qed.

(** ** What iderw leaves alone *)

Lemma links_only_refl s : links_only s s.
Proof. split; auto. Qed.

Lemma links_only_trans s1 s2 s3 :
  links_only s1 s2 -> links_only s2 s3 -> links_only s1 s3.
Proof.
  intros (A1 & A2) (B1 & B2). split; [|congruence].
  intros a. now rewrite B1, A1.
Qed.

Lemma links_only_same s s' : bufs s' = bufs s -> ram s' = ram s -> links_only s s'.
Proof. intros E1 E2. split; [|exact E2]. intros a. now rewrite E1. Qed.

Lemma keeps_links_modify f :
  (forall s, bufs (f s) = bufs s) -> (forall s, ram (f s) = ram s) ->
  keeps links_only (modify f).
Proof. intros H1 H2. apply keeps_modify. intros. now apply links_only_same. Qed.

Lemma keeps_links_io {A} (m : M A) : keeps io_only m -> keeps links_only m.
Proof.
  intros H s r s' E. apply H in E as (_ & _ & _ & _ & Hb & Hr & _).
  now apply links_only_same.
Qed.

Lemma keeps_links_acquire : keeps links_only acquire.
Proof.
  intros s r s'. unfold acquire. destruct (idelock s); intros E; inversion E;
    subst; now apply links_only_same.
Qed.

Lemma keeps_links_update_qnext a q : keeps links_only (update_buf a (set_qnext q)).
Proof.
  intros s r s' E. unfold update_buf, bind, getbuf in E.
  destruct (bufs s !! a) as [bf|] eqn:Hb; inversion E; subst;
    [|apply links_only_refl].
  split; [|reflexivity]. intros a'. cbn [bufs with_bufs].
  destruct (decide (a = a')) as [<-|Hne].
  - now rewrite lookup_insert_eq, Hb.
  - now rewrite lookup_insert_ne by auto.
Qed.

Lemma keeps_links_idestart b : keeps links_only (idestart b).
Proof.
  intros s r s' E. apply idestart_frame in E as (_ & _ & _ & _ & Hb & Hr & _).
  now apply links_only_same.
Qed.

Ltac keeps_links prim :=
  repeat first
    [ prim
    | apply (keeps_ret _ links_only_refl)
    | apply (keeps_panic _ links_only_refl)
    | apply (keeps_spinning _ links_only_refl)
    | apply (keeps_gets _ links_only_refl)
    | apply (keeps_getbuf _ links_only_refl)
    | apply keeps_links_acquire
    | apply keeps_links_update_qnext
    | apply keeps_links_idestart
    | apply keeps_links_io; first [ apply keeps_io_idewait | apply keeps_io_outb
                                  | apply keeps_io_outsl ]
    | apply keeps_links_modify; reflexivity
    | apply (keeps_bind _ links_only_trans); [|intros ?]
    | match goal with
      | |- keeps _ (if ?c then _ else _) => destruct c
      | |- keeps _ (match ?x with _ => _ end) => destruct x
      end ].

Lemma keeps_links_find_tail fuel pp : keeps links_only (find_tail fuel pp).
Proof.
  revert pp. induction fuel; intros pp; simpl; unfold read_slot;
    keeps_links ltac:(apply IHfuel).
Qed.

Lemma keeps_links_iderw_wait b : keeps links_only (iderw_wait b).
Proof. unfold iderw_wait, sleep, release. keeps_links fail. Qed.

Lemma keeps_links_iderw_append b : keeps links_only (iderw_append b).
Proof.
  unfold iderw_append, queue_tail, write_slot.
  keeps_links ltac:(apply keeps_links_find_tail).
Qed.

Lemma keeps_links_iderw_begin b : keeps links_only (iderw_begin b).
Proof.
  unfold iderw_begin, iderw_enqueue.
  keeps_links ltac:(first [ apply keeps_links_iderw_append
                          | apply keeps_links_iderw_wait ]).
Qed.

Lemma keeps_links_iderw_resume b : keeps links_only (iderw_resume b).
Proof. unfold iderw_resume. keeps_links ltac:(apply keeps_links_iderw_wait). Qed.

(** X7.  iderw writes queue links and nothing else.  Whatever its outcome and
    at each of its scheduling points, every buf is still there with its
    flags, device, block number and data as they were, and memory is
    unchanged: flags are set and memory is filled by the interrupt handler
    alone. *)
Theorem iderw_links_only b s r s' :
  iderw_begin b s = (r, s') \/ iderw_resume b s = (r, s') ->
  (forall a : addr, payload <$> bufs s' !! a = payload <$> bufs s !! a) /\
  ram s' = ram s.
Proof.
  intros [E|E].
  - exact (keeps_links_iderw_begin b s r s' E).
  - exact (keeps_links_iderw_resume b s r s' E).
Qed.

(** A call of iderw that gets past its checks reaches the wait loop with
    the flag word it was called with. *)
Lemma iderw_enqueue_flags b s se :
  iderw_enqueue b s = (Ok tt, se) ->
  exists bf', bufs se !! b = Some bf' /\
    Z.land (flags bf') (Z.lor B_VALID B_DIRTY) <> B_VALID.
Proof.
  intros E. destruct (bufs s !! b) as [bf|] eqn:Hb;
    [|unfold iderw_enqueue, bind, getbuf in E; rewrite Hb in E; discriminate].
  rewrite (iderw_enqueue_eq b bf s Hb) in E.
  destruct (_ =? 0); [discriminate|].
  destruct (Z.eqb_spec (Z.land (flags bf) (Z.lor B_VALID B_DIRTY)) B_VALID) as [|Hs];
    [discriminate|].
  destruct (_ && _); [discriminate|].
  apply keeps_links_iderw_append in E as (Hp & _).
  specialize (Hp b). rewrite Hb in Hp.
  destruct (bufs se !! b) as [bf'|]; [|discriminate].
  exists bf'. split; [reflexivity|]. inversion Hp as [Hf]. now rewrite Hf.
Qed.

(** ** The interrupt handler, operation by operation *)

Lemma wakeups_app t1 t2 : wakeups (t1 ++ t2) = wakeups t1 ++ wakeups t2.
Proof.
  induction t1 as [|e t1 IH]; [reflexivity|]. destruct e; simpl; auto.
  now rewrite IH.
Qed.

Lemma wakeups_quiet t : Forall (fun e => quiet e = true) t -> wakeups t = [].
Proof.
  induction 1 as [|e t He _ IH]; [reflexivity|].
  destruct e; simpl in *; auto; discriminate.
Qed.

(** The start of the next request, as far as the handler's caller sees
    it: one call of idestart for the new head, or nothing. *)
Lemma ideintr_next_io s r s' :
  ideintr_next s = (r, s') ->
  hw_in s' = hw_in s /\ havedisk1 s' = havedisk1 s /\ havedisk2 s' = havedisk2 s /\
  exists post, trace s' = trace s ++ post /\ wakeups post = [] /\
    starts post = match idequeue s with Some n => [Some n] | None => [] end.
Proof.
  intros E. apply ideintr_next_inv in E as [(Hq & -> & ->)|(n & Hq & E)].
  - repeat split; auto. exists []. rewrite Hq, app_nil_r. auto.
  - apply idestart_frame in E as (_ & _ & A3 & A4 & _ & _ & A7 & new & Et & Hn).
    repeat split; auto. exists (EvStart (Some n) :: new). rewrite Hq.
    split; [rewrite Et; simpl; now rewrite <- app_assoc|].
    simpl. now rewrite (wakeups_quiet _ Hn), (starts_quiet _ Hn).
Qed.

(** The data pull of the handler: it reads ports and, for a read with a
    good status, fills the block image of the buf. *)
Lemma ideintr_read_io bf s r s1 :
  ideintr_read bf s = (r, s1) ->
  idelock s1 = idelock s /\ hw_in s1 = hw_in s /\
  havedisk1 s1 = havedisk1 s /\ havedisk2 s1 = havedisk2 s /\
  (ram s1 = ram s \/
   exists ws, length ws = Z.to_nat (Z.quot BSIZE 4) /\
     ram s1 = store_dwords (ram s) (data bf) ws).
Proof.
  intros E. apply ideintr_read_inv in E.
  destruct E as [(_ & _ & ->)|(_ & rw & vs & _ & [(_ & _ & ->)|(v & _ & _ & _ & H)])];
    [repeat split; auto..|].
  destruct H as [(_ & _ & ->)|(_ & _ & ->)]; [repeat split; auto|].
  unfold pulled, insl.
  cbn [snd idelock hw_in havedisk1 havedisk2 ram after_polls advance].
  repeat split; auto. right. eexists. split; [|reflexivity].
  apply port_dwords_length.
Qed.

(** An interrupt that returns, on a queue with head [a]. *)
Lemma ideintr_done a bf s s' :
  idelock s = false -> idequeue s = Some a -> bufs s !! a = Some bf ->
  ideintr s = (Ok tt, s') ->
  idelock s' = false /\ idequeue s' = qnext bf /\
  bufs s' = <[a := set_flags (completed (flags bf)) bf]> (bufs s) /\
  hw_in s' = hw_in s /\ havedisk1 s' = havedisk1 s /\ havedisk2 s' = havedisk2 s /\
  (ram s' = ram s \/
   exists ws, length ws = Z.to_nat (Z.quot BSIZE 4) /\
     ram s' = store_dwords (ram s) (data bf) ws) /\
  exists pre post,
    trace s' = trace s ++ pre ++ EvWakeup a :: post /\
    Forall (fun e => quiet e = true) pre /\ wakeups post = [] /\
    starts post = match qnext bf with Some n => [Some n] | None => [] end.
Proof.
  intros Hl Hq Hb E.
  apply (ideintr_inv a bf s _ s' Hl Hq Hb) in E as (r1 & s1 & E1 & Hc).
  destruct Hc as [(_ & ? & _)|(_ & r2 & s2 & E2 & Hr)]; [discriminate|].
  destruct Hr as [(-> & _ & ->)|(Hne & <- & _)]; [|congruence].
  pose proof (keeps_aside_ideintr_read bf _ _ _ E1) as (A1 & A2 & pre & Et1 & Hpre).
  apply ideintr_read_io in E1 as (B1 & B2 & B3 & B4 & Hram).
  pose proof (ideintr_next_frame _ _ _ E2) as (C1 & C2 & C3 & C4 & _).
  apply ideintr_next_io in E2 as (D1 & D2 & D3 & post & Et2 & Hw & Hs).
  cbn [idelock idequeue bufs ram hw_in havedisk1 havedisk2 trace emit with_bufs
       with_queue with_lock] in *.
  split; [reflexivity|]. split; [congruence|].
  split; [rewrite C3, A2; reflexivity|].
  split; [congruence|]. split; [congruence|]. split; [congruence|].
  split; [rewrite C4; exact Hram|].
  exists pre, post. split; [rewrite Et2, Et1, <- !app_assoc; reflexivity|].
  split; [exact Hpre|]. split; [exact Hw|]. now rewrite Hs, A1.
Qed.

(** With a controller that answers the busy-wait and a next request
    whose block is in range, the handler returns. *)
Lemma ideintr_total a bf s :
  geometry ->
  idelock s = false -> idequeue s = Some a -> bufs s !! a = Some bf ->
  responsive (hw_in s) 0x1f7 ->
  (forall n, qnext bf = Some n ->
     n <> a /\ exists bn, bufs s !! n = Some bn /\ blockno bn < FSSIZE) ->
  exists s', ideintr s = (Ok tt, s').
Proof.
  intros Hg Hl Hq Hb Hresp Hnext.
  destruct (ideintr s) as [r s'] eqn:E. exists s'. f_equal.
  apply (ideintr_inv a bf s _ s' Hl Hq Hb) in E as (r1 & s1 & E1 & Hc).
  pose proof (ideintr_read_io _ _ _ _ E1) as (_ & B2 & _).
  pose proof (keeps_aside_ideintr_read bf _ _ _ E1) as (A1 & A2 & _).
  cbn [idequeue bufs hw_in with_queue with_lock] in *.
  assert (Hr1 : r1 = Ok tt).
  { apply ideintr_read_inv in E1.
    destruct E1 as [(_ & -> & _)|(_ & rw & vs & Ew & [(-> & _)|(v & _ & _ & -> & _)])];
      auto.
    destruct (idewait_total IO_BASE0 1 (with_queue (qnext bf) (with_lock true s)) Hresp)
      as (x & vs' & Et).
    rewrite Et in Ew. discriminate. }
  destruct Hc as [(? & _)|(_ & r2 & s2 & E2 & Hr)]; [congruence|].
  assert (Hr2 : r2 = Ok tt).
  { apply ideintr_next_inv in E2 as [(_ & -> & _)|(n & Hn & E2)]; [reflexivity|].
    cbn [idequeue emit with_bufs] in Hn. rewrite A1 in Hn.
    destruct (Hnext n Hn) as (Hne & bn & Hbn & Hlt).
    edestruct (idestart_total n bn) as (vs & Et); [| | | |rewrite Et in E2].
    - cbn [bufs emit with_bufs]. rewrite lookup_insert_ne by auto.
      rewrite A2. exact Hbn.
    - now rewrite (geometry_fssize Hg).
    - now apply geometry_quot.
    - cbn [hw_in emit with_bufs]. now rewrite B2.
    - now inversion E2. }
  destruct Hr as [(_ & -> & _)|(Hne & _)]; [reflexivity | contradiction].
Qed.

(** ** Lock discipline *)

Lemma iderw_wait_unlocks b s x s' :
  iderw_wait b s = (Ok x, s') -> idelock s' = false.
Proof.
  unfold iderw_wait, bind, getbuf. destruct (bufs s !! b); [|discriminate].
  destruct (negb _); intros E; inversion E; reflexivity.
Qed.

Lemma ideintr_unlocks s s' : ideintr s = (Ok tt, s') -> idelock s' = false.
Proof.
  unfold ideintr. intros E.
  apply bind_inv in E as [(? & s1 & _ & E)|(r0 & _ & Hf)];
    [|destruct r0; contradiction].
  unfold bind at 1 in E. unfold gets at 1 in E.
  destruct (idequeue s1); [|now inversion E].
  apply bind_inv in E as [(? & s2 & _ & E)|(r0 & _ & Hf)];
    [|destruct r0; contradiction].
  unfold bind at 1 in E. unfold modify at 1 in E.
  apply bind_inv in E as [(? & s3 & _ & E)|(r0 & _ & Hf)];
    [|destruct r0; contradiction].
  apply bind_inv in E as [(? & s4 & _ & E)|(r0 & _ & Hf)];
    [|destruct r0; contradiction].
  apply bind_inv in E as [(? & s5 & _ & E)|(r0 & _ & Hf)];
    [|destruct r0; contradiction].
  now inversion E.
Qed.

Lemma read_swap_loop_unlocks n dst s x s' :
  read_swap_loop n IO_BASE1 dst s = (Ok x, s') -> idelock s' = false.
Proof.
  revert dst s. induction n as [|n IH]; intros dst s E; simpl in E.
  - now inversion E.
  - apply bind_inv in E as [(y & sw & _ & E)|(r0 & _ & Hf)];
      [|destruct r0; contradiction].
    destruct (negb (y =? 0)); [now inversion E|].
    unfold bind at 1 in E. unfold insl at 1 in E. now apply IH in E.
Qed.

Lemma write_swap_loop_unlocks n src s x s' :
  write_swap_loop n IO_BASE1 src s = (Ok x, s') -> idelock s' = false.
Proof.
  revert src s. induction n as [|n IH]; intros src s E; simpl in E.
  - now inversion E.
  - apply bind_inv in E as [(y & sw & _ & E)|(r0 & _ & Hf)];
      [|destruct r0; contradiction].
    destruct (negb (y =? 0)); [now inversion E|].
    unfold bind at 1 in E. rewrite outsl_eq in E. now apply IH in E.
Qed.

Lemma step_unlocks o s s' : step o s = (Ok tt, s') -> idelock s' = false.
Proof.
  destruct o; cbn [step]; intros E.
  - apply bind_inv in E as [(x & s1 & E1 & E2)|(r0 & _ & Hf)];
      [|destruct r0; contradiction].
    inversion E2; subst. unfold iderw_begin in E1.
    apply bind_inv in E1 as [(? & s2 & _ & E1)|(r0 & _ & Hf)];
      [|destruct r0; contradiction].
    now apply iderw_wait_unlocks in E1.
  - apply bind_inv in E as [(x & s1 & E1 & E2)|(r0 & _ & Hf)];
      [|destruct r0; contradiction].
    inversion E2; subst. unfold iderw_resume in E1.
    apply bind_inv in E1 as [(? & s2 & _ & E1)|(r0 & _ & Hf)];
      [|destruct r0; contradiction].
    now apply iderw_wait_unlocks in E1.
  - exact (ideintr_unlocks s s' E).
  - apply bind_inv in E as [(x & s1 & E1 & E2)|(r0 & _ & Hf)];
      [|destruct r0; contradiction].
    inversion E2; subst. unfold read_swap in E1.
    apply bind_inv in E1 as [(? & s2 & _ & E1)|(r0 & _ & Hf)];
      [|destruct r0; contradiction].
    apply bind_inv in E1 as [(? & s3 & _ & E1)|(r0 & _ & Hf)];
      [|destruct r0; contradiction].
    now apply read_swap_loop_unlocks in E1.
  - apply bind_inv in E as [(x & s1 & E1 & E2)|(r0 & _ & Hf)];
      [|destruct r0; contradiction].
    inversion E2; subst. unfold write_swap in E1.
    apply bind_inv in E1 as [(? & s2 & _ & E1)|(r0 & _ & Hf)];
      [|destruct r0; contradiction].
    apply bind_inv in E1 as [(? & s3 & _ & E1)|(r0 & _ & Hf)];
      [|destruct r0; contradiction].
    now apply write_swap_loop_unlocks in E1.
Qed.

Lemma step_locked o s r s' :
  idelock s = true -> step o s = (r, s') -> r <> Ok tt /\ s' = s.
Proof.
  intros Hl. destruct o; cbn [step]; intros E.
  - unfold iderw_begin in E. unfold bind at 1 2 in E.
    destruct (bufs s !! b) as [bf|] eqn:Hb.
    + rewrite (iderw_enqueue_eq b bf s Hb) in E.
      rewrite (iderw_append_locked b s Hl) in E.
      destruct (_ =? 0); [inversion E; split; [discriminate | reflexivity]|].
      destruct (_ =? B_VALID); [inversion E; split; [discriminate | reflexivity]|].
      destruct (_ && _); inversion E; split; first [discriminate | reflexivity].
    + unfold iderw_enqueue, bind, getbuf in E. rewrite Hb in E.
      inversion E; split; [discriminate | reflexivity].
  - unfold iderw_resume, bind, acquire in E. rewrite Hl in E.
    inversion E; split; [discriminate | reflexivity].
  - rewrite (ideintr_locked s Hl) in E.
    inversion E; split; [discriminate | reflexivity].
  - unfold read_swap, bind, acquire in E. rewrite Hl in E.
    inversion E; split; [discriminate | reflexivity].
  - unfold write_swap, bind, acquire in E. rewrite Hl in E.
    inversion E; split; [discriminate | reflexivity].
Qed.

(** X9.  No driver operation returns with idelock held: whenever iderw reaches
    a scheduling point, and whenever the interrupt handler or a swap call
    returns (the swap calls also on their early exit with -1), the lock is
    free.  And none of them gets past its acquire while the lock is held:
    entered with idelock taken, an operation does not return and leaves
    the driver state as it found it. *)
Theorem lock_discipline o s r s' :
  step o s = (r, s') ->
  (r = Ok tt -> idelock s' = false) /\
  (idelock s = true -> r <> Ok tt /\ s' = s).
Proof.
  intros E. split.
  - intros ->. exact (step_unlocks o s s' E).
  - intros Hl. exact (step_locked o s r s' Hl E).
Qed.

(** ** idestart writes the whole task file or nothing *)

Lemma filter_writes_polls port vs : List.filter port_write (map (EvInb port) vs) = [].
Proof. induction vs; simpl; auto. Qed.

Lemma filter_writes_start bf r :
  List.filter port_write (start_regs bf ++ start_cmd bf r)
  = start_regs bf ++ start_cmd bf r.
Proof. unfold start_regs, start_cmd. destruct (has_flag _ _); reflexivity. Qed.

(** X10.  Every way idestart has of not returning (a null or dangling request,
    a block number out of range, too many sectors per block, a controller
    that stays busy) comes before its first port write: then no register
    of the controller has been written.  When it returns, it has written
    the six registers and the command, in this order, and after the write
    command the block image. *)
Theorem idestart_all_or_nothing b s r s' :
  idestart b s = (r, s') ->
  exists new, trace s' = trace s ++ new /\
    (r <> Ok tt ->
     List.filter port_write new = [] /\ forall rf, regfile new rf = rf) /\
    (r = Ok tt ->
     exists a bf, b = Some a /\ bufs s !! a = Some bf /\
       List.filter port_write new = start_regs bf ++ start_cmd bf (ram s)).
Proof.
  intros E.
  destruct b as [a|].
  2:{ unfold idestart, idestart_body, bind, modify, panic in E.
      rewrite emit_advance in E. inversion E; subst.
      exists [EvStart None]. split; [reflexivity|].
      split; [auto | discriminate]. }
  destruct (bufs s !! a) as [bf|] eqn:Hb.
  2:{ unfold idestart, idestart_body, bind, modify, getbuf in E.
      rewrite emit_advance in E. cbn [bufs advance] in E. rewrite Hb in E.
      inversion E; subst.
      exists [EvStart (Some a)]. split; [reflexivity|].
      split; [auto | discriminate]. }
  apply (idestart_inv a bf s r s' Hb) in E.
  destruct E as [(_ & -> & ->)|[(_ & _ & -> & ->)|(_ & _ & vs & Hc)]].
  - exists [EvStart (Some a)]. split; [reflexivity|].
    split; [auto | discriminate].
  - exists [EvStart (Some a)]. split; [reflexivity|].
    split; [auto | discriminate].
  - destruct Hc as [(-> & ->)|(-> & ->)].
    + eexists. split; [reflexivity|]. split; [|discriminate].
      intros _. cbn [List.filter port_write]. rewrite filter_writes_polls.
      split; [reflexivity|]. intros rf. cbn [regfile]. apply regfile_polls.
    + eexists. split; [reflexivity|]. split; [congruence|].
      intros _. exists a, bf. split; [reflexivity|]. split; [exact Hb|].
      cbn [List.filter port_write].
      rewrite List.filter_app, filter_writes_polls, filter_writes_start.
      reflexivity.
Qed.

(** ** What the interrupt handler changes *)

Lemma geometry_dwords :
  geometry -> 4 * Z.of_nat (Z.to_nat (Z.quot BSIZE 4)) = BSIZE.
Proof.
  intros (_ & Hpos & Hmod & _). unfold SECTSIZE in Hmod.
  rewrite Z.quot_div_nonneg by lia. rewrite Z2Nat.id by (apply Z.div_pos; lia).
  Z.to_euclidean_division_equations. lia.
Qed.

(** X11.  An interrupt that returns has changed one flag word and at most one
    block image.  The head of the queue is completed and taken off the
    queue (its own link is left as it was); every other buf, and every
    other field of the completed one, is untouched; memory outside the
    BSIZE bytes of its block image is untouched; the presence flags are
    untouched. *)
Theorem ideintr_frame a bf s s' :
  geometry ->
  idelock s = false -> idequeue s = Some a -> bufs s !! a = Some bf ->
  ideintr s = (Ok tt, s') ->
  idequeue s' = qnext bf /\
  bufs s' !! a = Some (mkbuf (completed (flags bf)) (dev bf) (blockno bf)
                             (qnext bf) (data bf)) /\
  (forall x : addr, x <> a -> bufs s' !! x = bufs s !! x) /\
  (forall x, x < data bf \/ data bf + BSIZE <= x -> ram s' x = ram s x) /\
  havedisk1 s' = havedisk1 s /\ havedisk2 s' = havedisk2 s.
Proof.
  intros Hg Hl Hq Hb E.
  destruct (ideintr_done a bf s s' Hl Hq Hb E)
    as (_ & A2 & A3 & _ & A5 & A6 & Hram & _).
  split; [exact A2|]. split; [rewrite A3; apply lookup_insert_eq|].
  split; [intros x Hx; rewrite A3; now apply lookup_insert_ne|].
  split; [|split; [exact A5 | exact A6]].
  intros x Hx. destruct Hram as [->|(ws & Hlen & ->)]; [reflexivity|].
  apply store_dwords_outside. rewrite Hlen, (geometry_dwords Hg). exact Hx.
Qed.

(** ** The controller is the same after every operation *)

Lemma same_hw_trans (s1 s2 s3 : state) :
  hw_in s2 = hw_in s1 -> hw_in s3 = hw_in s2 -> hw_in s3 = hw_in s1.
Proof. congruence. Qed.

Lemma keeps_hw_acquire : keeps (fun s s' => hw_in s' = hw_in s) acquire.
Proof.
  intros s r s'. unfold acquire. destruct (idelock s); intros E; now inversion E.
Qed.

Lemma keeps_hw_io {A} (m : M A) :
  keeps io_only m -> keeps (fun s s' => hw_in s' = hw_in s) m.
Proof. intros H s r s' E. now apply H in E as (_ & _ & _ & _ & _ & _ & Hh & _). Qed.

Lemma keeps_hw_idestart b : keeps (fun s s' => hw_in s' = hw_in s) (idestart b).
Proof.
  intros s r s' E. now apply idestart_frame in E as (_ & _ & _ & _ & _ & _ & Hh & _).
Qed.

Lemma keeps_hw_update_buf a g : keeps (fun s s' => hw_in s' = hw_in s) (update_buf a g).
Proof.
  intros s r s' E. unfold update_buf, bind, getbuf in E.
  destruct (bufs s !! a); now inversion E.
Qed.

Ltac keeps_hw prim :=
  repeat first
    [ prim
    | apply keeps_ret; reflexivity
    | apply keeps_panic; reflexivity
    | apply keeps_spinning; reflexivity
    | apply keeps_gets; reflexivity
    | apply keeps_getbuf; reflexivity
    | apply keeps_hw_acquire
    | apply keeps_hw_update_buf
    | apply keeps_hw_idestart
    | apply keeps_hw_io; first [ apply keeps_io_idewait | apply keeps_io_outb
                               | apply keeps_io_outsl ]
    | apply keeps_modify; reflexivity
    | apply (keeps_bind _ same_hw_trans); [|intros ?]
    | match goal with
      | |- keeps _ (if ?c then _ else _) => destruct c
      | |- keeps _ (match ?x with _ => _ end) => destruct x
      end ].

Lemma keeps_hw_find_tail fuel pp :
  keeps (fun s s' => hw_in s' = hw_in s) (find_tail fuel pp).
Proof.
  revert pp. induction fuel; intros pp; simpl; unfold read_slot;
    keeps_hw ltac:(apply IHfuel).
Qed.

Lemma keeps_hw_iderw_begin b :
  keeps (fun s s' => hw_in s' = hw_in s) (iderw_begin b).
Proof.
  unfold iderw_begin, iderw_enqueue, iderw_append, queue_tail, write_slot,
    iderw_wait, sleep, release.
  keeps_hw ltac:(apply keeps_hw_find_tail).
Qed.

(** ** A request queued behind another one *)

Lemma iderw_begin_queued b bf s :
  queue_inv s -> idelock s = false -> queued s <> [] -> b ∉ queued s ->
  bufs s !! b = Some bf ->
  Z.land (flags bf) B_BUSY <> 0 ->
  Z.land (flags bf) (Z.lor B_VALID B_DIRTY) <> B_VALID ->
  dev bf = 0 \/ havedisk1 s <> 0 ->
  exists s', iderw_begin b s = (Ok false, s') /\
    trace s' = trace s ++ [EvSleep b] /\
    idelock s' = false /\ hw_in s' = hw_in s /\
    queue_inv s' /\ queued s' = queued s ++ [b].
Proof.
  intros Hinv Hl Hne Hfresh Hb HB HS HD.
  destruct (iderw_begin b s) as [r s'] eqn:E. pose proof E as E0.
  unfold iderw_begin in E. unfold bind at 1 in E.
  rewrite (iderw_enqueue_eq b bf s Hb) in E.
  destruct (Z.eqb_spec (Z.land (flags bf) B_BUSY) 0); [contradiction|].
  destruct (Z.eqb_spec (Z.land (flags bf) (Z.lor B_VALID B_DIRTY)) B_VALID);
    [contradiction|].
  assert (Hgate : negb (dev bf =? 0) && (havedisk1 s =? 0) = false).
  { destruct HD as [->|HD]; [reflexivity|].
    destruct (Z.eqb_spec (havedisk1 s) 0); [contradiction|]. apply andb_false_r. }
  rewrite Hgate in E.
  destruct (iderw_append b s) as [ra sa] eqn:Ea.
  pose proof (keeps_links_iderw_append b _ _ _ Ea) as (Hp & _).
  apply (iderw_append_inv b bf s _ _ Hinv Hb Hfresh Hl) in Ea
    as (sq & Etq & _ & _ & [(Hq & _)|(_ & _ & -> & ->)]); [contradiction|].
  specialize (Hp b). rewrite Hb in Hp.
  destruct (bufs sq !! b) as [bf'|] eqn:Hb'; [|discriminate].
  inversion Hp as [Hf].
  unfold iderw_wait, bind at 1, getbuf in E. rewrite Hb', Hf in E.
  destruct (Z.eqb_spec (Z.land (flags bf) (Z.lor B_VALID B_DIRTY)) B_VALID);
    [contradiction|].
  cbn [negb] in E. inversion E; subst r s'.
  exists (with_lock false (emit (EvSleep b) sq)).
  split; [reflexivity|]. cbn [trace idelock hw_in with_lock emit].
  split; [now rewrite Etq|]. split; [reflexivity|].
  destruct (step_iderw_inv b s _ _ Hinv Hfresh E0) as (_ & _ & _ & _ & _ & Hsi).
  destruct (Hsi false eq_refl) as (Hinv' & Hq').
  split; [|split; [exact Hinv' | exact Hq']].
  exact (keeps_hw_iderw_begin b _ _ _ E0).
Qed.

(** X12.  A request that arrives while another one is in flight is linked
    behind the queue and its caller put to sleep, and that is all: no port
    is read or written for it (the trace grows by the sleep alone), the
    request in flight stays the head, and idelock is free again.  This
    holds whatever its block number is. *)
Theorem iderw_behind_queue b bf s :
  queue_inv s -> idelock s = false -> queued s <> [] -> b ∉ queued s ->
  bufs s !! b = Some bf ->
  Z.land (flags bf) B_BUSY <> 0 ->
  Z.land (flags bf) (Z.lor B_VALID B_DIRTY) <> B_VALID ->
  dev bf = 0 \/ havedisk1 s <> 0 ->
  exists s', iderw_begin b s = (Ok false, s') /\
    trace s' = trace s ++ [EvSleep b] /\
    idelock s' = false /\
    head (queued s') = head (queued s) /\
    queued s' = queued s ++ [b].
Proof.
  intros Hinv Hl Hne Hfresh Hb HB HS HD.
  destruct (iderw_begin_queued b bf s Hinv Hl Hne Hfresh Hb HB HS HD)
    as (s' & E & Et & Hl' & _ & _ & Hq).
  exists s'. split; [exact E|]. split; [exact Et|]. split; [exact Hl'|].
  split; [|exact Hq]. rewrite Hq. destruct (queued s); [contradiction | reflexivity].
Qed.

(** ** A block number out of range, found late *)

Lemma ideintr_read_ok bf s r s1 :
  (has_flag (flags bf) B_DIRTY = false -> responsive (hw_in s) 0x1f7) ->
  ideintr_read bf s = (r, s1) -> r = Ok tt.
Proof.
  intros Hresp E. apply ideintr_read_inv in E.
  destruct E as [(_ & -> & _)|(Hd & rw & vs & Ew & [(-> & _)|(v & _ & _ & -> & _)])];
    auto.
  destruct (idewait_total IO_BASE0 1 s (Hresp Hd)) as (x & vs' & Et).
  rewrite Et in Ew. discriminate.
Qed.

(** The handler on a queue whose second request has a block number out
    of range: the head is completed and its sleeper woken, then the start
    of the second request panics, in the handler and with idelock held. *)
Lemma ideintr_next_out_of_range a n rest bf bn s :
  geometry ->
  queue_inv s -> idelock s = false -> queued s = a :: n :: rest ->
  bufs s !! a = Some bf -> bufs s !! n = Some bn ->
  FSSIZE <= blockno bn ->
  (has_flag (flags bf) B_DIRTY = false -> responsive (hw_in s) 0x1f7) ->
  exists s' pre,
    ideintr s = (Panic "incorrect blockno", s') /\
    idelock s' = true /\ idequeue s' = Some n /\
    flags_at s' a = Some (completed (flags bf)) /\
    trace s' = trace s ++ pre ++ [EvWakeup a; EvStart (Some n)] /\
    Forall (fun e => quiet e = true) pre.
Proof.
  intros Hg (Hnd & Hls & _) Hl Hq Hb Hbn Hge Hresp.
  rewrite Hq in Hnd, Hls. destruct Hls as (Hhead & bf0 & Hb0 & Hn0 & _).
  rewrite Hb in Hb0. inversion Hb0; subst bf0. clear Hb0.
  assert (Hne : a <> n).
  { intros ->. apply NoDup_cons in Hnd as (Hin & _). apply Hin. left. }
  destruct (ideintr s) as [r s'] eqn:E.
  apply (ideintr_inv a bf s _ s' Hl Hhead Hb) in E as (r1 & s1 & E1 & Hc).
  pose proof (ideintr_read_ok bf (with_queue (qnext bf) (with_lock true s))
                _ _ Hresp E1) as ->.
  pose proof (keeps_aside_ideintr_read bf _ _ _ E1) as (A1 & A2 & pre & Et1 & Hpre).
  apply ideintr_read_io in E1 as (B1 & _).
  cbn [idelock idequeue bufs trace with_queue with_lock] in *.
  destruct Hc as [(? & _)|(_ & r2 & s2 & E2 & Hr)]; [discriminate|].
  apply ideintr_next_inv in E2 as [(Hq2 & _)|(n' & Hq2 & E2)];
    cbn [idequeue emit with_bufs] in Hq2; rewrite A1, Hn0 in Hq2; [discriminate|].
  inversion Hq2; subst n'. clear Hq2.
  eapply idestart_inv in E2;
    [|cbn [bufs emit with_bufs]; rewrite lookup_insert_ne by exact Hne;
      rewrite A2; exact Hbn].
  rewrite (geometry_fssize Hg) in E2.
  destruct E2 as [(_ & -> & ->)|[(? & _)|(? & _)]]; [|lia..].
  destruct Hr as [(? & _)|(_ & -> & ->)]; [discriminate|].
  eexists _, pre. split; [reflexivity|].
  cbn [idelock idequeue trace advance emit with_bufs].
  split; [exact B1|]. split; [now rewrite A1|].
  split; [unfold flags_at; cbn [bufs advance emit with_bufs];
          now rewrite lookup_insert_eq|].
  split; [|exact Hpre]. rewrite Et1, <- !app_assoc. reflexivity.
Qed.

(** X13.  The range check on the block number is made when a request is
    started, not when it is submitted.  A request for a block past the end
    of the file system that arrives while another one is in flight is
    accepted and its caller put to sleep; the panic comes with the next
    interrupt, inside the handler and with idelock held, after the request
    in flight has been completed and its sleeper woken. *)
Theorem blockno_check_deferred a bf n bn s :
  geometry ->
  queue_inv s -> idelock s = false -> queued s = [a] -> n <> a ->
  bufs s !! a = Some bf -> bufs s !! n = Some bn ->
  Z.land (flags bn) B_BUSY <> 0 ->
  Z.land (flags bn) (Z.lor B_VALID B_DIRTY) <> B_VALID ->
  dev bn = 0 \/ havedisk1 s <> 0 ->
  FSSIZE <= blockno bn ->
  (has_flag (flags bf) B_DIRTY = false -> responsive (hw_in s) 0x1f7) ->
  exists s1 s2 pre,
    iderw_begin n s = (Ok false, s1) /\
    trace s1 = trace s ++ [EvSleep n] /\
    ideintr s1 = (Panic "incorrect blockno", s2) /\
    idelock s2 = true /\
    flags_at s2 a = Some (completed (flags bf)) /\
    trace s2 = trace s1 ++ pre ++ [EvWakeup a; EvStart (Some n)] /\
    Forall (fun e => quiet e = true) pre.
Proof.
  intros Hg Hinv Hl Hq Hne Hb Hbn HB HS HD Hge Hresp.
  assert (Hfresh : n ∉ queued s).
  { rewrite Hq. intros Hin. apply list_elem_of_singleton in Hin. contradiction. }
  assert (Hnon : queued s <> []) by (rewrite Hq; discriminate).
  destruct (iderw_begin_queued n bn s Hinv Hl Hnon Hfresh Hbn HB HS HD)
    as (s1 & E1 & Et1 & Hl1 & Hh1 & Hinv1 & Hq1).
  rewrite Hq in Hq1. cbn [app] in Hq1.
  destruct (keeps_links_iderw_begin n _ _ _ E1) as (Hp & _).
  pose proof (Hp a) as Hpa. rewrite Hb in Hpa.
  destruct (bufs s1 !! a) as [bf'|] eqn:Hb'; [|discriminate].
  pose proof (Hp n) as Hpn. rewrite Hbn in Hpn.
  destruct (bufs s1 !! n) as [bn'|] eqn:Hbn'; [|discriminate].
  unfold payload in Hpa, Hpn. simpl in Hpa, Hpn.
  assert (Hfa : flags bf' = flags bf) by congruence.
  assert (Hbl : blockno bn' = blockno bn) by congruence.
  destruct (ideintr_next_out_of_range a n [] bf' bn' s1 Hg Hinv1 Hl1 Hq1 Hb' Hbn')
    as (s2 & pre & E2 & Hl2 & _ & Hf2 & Et2 & Hpre).
  - now rewrite Hbl.
  - rewrite Hfa, Hh1. exact Hresp.
  - exists s1, s2, pre. rewrite Hfa in Hf2. auto 10.
Qed.

(** ** The queue is first in, first out *)

Lemma iderw_begin_quiet b s x s' :
  queue_inv s -> b ∉ queued s ->
  iderw_begin b s = (Ok x, s') ->
  exists new, trace s' = trace s ++ new /\ wakeups new = [].
Proof.
  intros Hinv Hfresh E. unfold iderw_begin in E.
  apply bind_inv in E as [(y & se & Ee & Ew)|(r0 & _ & Hf)];
    [|destruct r0; contradiction].
  apply keeps_aside_iderw_wait in Ew as (_ & _ & new2 & Et2 & Hn2).
  assert (He : exists new1, trace se = trace s ++ new1 /\ wakeups new1 = []).
  { destruct (bufs s !! b) as [bf|] eqn:Hb;
      [|unfold iderw_enqueue, bind, getbuf in Ee; rewrite Hb in Ee; discriminate].
    rewrite (iderw_enqueue_eq b bf s Hb) in Ee.
    destruct (_ =? 0); [discriminate|]. destruct (_ =? B_VALID); [discriminate|].
    destruct (_ && _); [discriminate|].
    destruct (idelock s) eqn:Hlock;
      [rewrite (iderw_append_locked b s Hlock) in Ee; discriminate|].
    apply (iderw_append_inv b bf s _ _ Hinv Hb Hfresh Hlock) in Ee
      as (sq & Etq & _ & _ & [(_ & _ & Es)|(_ & _ & _ & ->)]).
    - apply idestart_frame in Es as (_ & _ & _ & _ & _ & _ & _ & new & Et & Hn).
      cbn [trace emit] in Et. exists (EvStart (Some b) :: new).
      split; [rewrite Et, Etq; now rewrite <- app_assoc|].
      simpl. now apply wakeups_quiet.
    - exists []. now rewrite app_nil_r. }
  destruct He as (new1 & Et1 & Hn1).
  exists (new1 ++ new2). split; [rewrite Et2, Et1; now rewrite app_assoc|].
  now rewrite wakeups_app, Hn1, (wakeups_quiet _ Hn2).
Qed.

Lemma aside_fifo s s' :
  queue_inv s -> aside s s' ->
  queue_inv s' /\
  exists new, trace s' = trace s ++ new /\ wakeups new ++ queued s' = queued s.
Proof.
  intros Hinv Ha. destruct (queue_inv_aside s s' Hinv Ha) as (Hinv' & Hq & _).
  split; [exact Hinv'|]. destruct Ha as (_ & _ & new & Et & Hn).
  exists new. split; [exact Et|]. now rewrite (wakeups_quiet _ Hn), Hq.
Qed.

Lemma step_fifo o s s' :
  queue_inv s -> fresh o s -> step o s = (Ok tt, s') ->
  queue_inv s' /\
  exists new, trace s' = trace s ++ new /\
    wakeups new ++ queued s' = queued s ++ submitted [o].
Proof.
  intros Hinv Hfresh E. destruct o; cbn [step fresh submitted] in *;
    rewrite ?app_nil_r.
  - apply bind_inv in E as [(x & s1 & E1 & E2)|(r0 & _ & Hf)];
      [|destruct r0; contradiction].
    inversion E2; subst s1. clear E2.
    destruct (step_iderw_inv b s _ _ Hinv Hfresh E1) as (_ & _ & _ & _ & _ & Hsi).
    destruct (Hsi x eq_refl) as (Hinv' & Hq).
    destruct (iderw_begin_quiet b s x s' Hinv Hfresh E1) as (new & Et & Hn).
    split; [exact Hinv'|]. exists new. split; [exact Et|]. now rewrite Hn, Hq.
  - apply bind_inv in E as [(x & s1 & E1 & E2)|(r0 & _ & Hf)];
      [|destruct r0; contradiction].
    inversion E2; subst s1. apply (aside_fifo s s' Hinv).
    exact (keeps_aside_iderw_resume b _ _ _ E1).
  - destruct (step_intr_inv s _ s' Hinv E) as (_ & _ & _ & _ & _ & Hsi).
    destruct (Hsi eq_refl) as (Hinv' & Hq). split; [exact Hinv'|].
    destruct (idelock s) eqn:Hl;
      [rewrite (ideintr_locked s Hl) in E; discriminate|].
    destruct Hinv as (_ & Hls & _).
    destruct (queued s) as [|a rest] eqn:Hqs.
    + simpl in Hls. rewrite (ideintr_idle s Hls Hl) in E. inversion E; subst s'.
      exists []. rewrite app_nil_r. split; [reflexivity|]. now rewrite Hqs.
    + destruct Hls as (Hhead & bf & Hb & _).
      destruct (ideintr_done a bf s s' Hl Hhead Hb E)
        as (_ & _ & _ & _ & _ & _ & _ & pre & post & Et & Hpre & Hw & _).
      exists (pre ++ EvWakeup a :: post). split; [exact Et|].
      rewrite wakeups_app, (wakeups_quiet _ Hpre). simpl. now rewrite Hw, Hq.
  - apply bind_inv in E as [(x & s1 & E1 & E2)|(r0 & _ & Hf)];
      [|destruct r0; contradiction].
    inversion E2; subst s1. apply (aside_fifo s s' Hinv).
    exact (keeps_aside_read_swap secno dst _ _ _ E1).
  - apply bind_inv in E as [(x & s1 & E1 & E2)|(r0 & _ & Hf)];
      [|destruct r0; contradiction].
    inversion E2; subst s1. apply (aside_fifo s s' Hinv).
    exact (keeps_aside_write_swap secno src _ _ _ E1).
Qed.

Lemma run_fifo ops s s' :
  queue_inv s -> fresh_run ops s -> run ops s = (Ok tt, s') ->
  queue_inv s' /\
  exists new, trace s' = trace s ++ new /\
    wakeups new ++ queued s' = queued s ++ submitted ops.
Proof.
  revert s. induction ops as [|o ops IH]; intros s Hinv Hfr E.
  - inversion E; subst. split; [exact Hinv|]. exists [].
    simpl. now rewrite !app_nil_r.
  - destruct Hfr as (Hf & Hfr). cbn [run] in E.
    apply bind_inv in E as [(x & s1 & E1 & E2)|(r0 & _ & Hfail)];
      [|destruct r0; contradiction].
    destruct x. rewrite E1 in Hfr.
    destruct (step_fifo o s s1 Hinv Hf E1) as (Hinv1 & new1 & Et1 & Hq1).
    destruct (IH s1 Hinv1 Hfr E2) as (Hinv' & new2 & Et2 & Hq2).
    split; [exact Hinv'|]. exists (new1 ++ new2).
    split; [rewrite Et2, Et1; now rewrite app_assoc|].
    rewrite wakeups_app, <- app_assoc, Hq2, app_assoc, Hq1, <- app_assoc.
    f_equal. destruct o; reflexivity.
Qed.

(** X14.  idequeue is a first-in first-out queue.  Over every run of driver
    operations that hands no request to iderw twice, the requests
    completed (in the order their sleepers were woken) followed by the
    requests still queued are the requests queued at the start followed by
    the requests submitted, in the order of submission: no request is
    lost, duplicated or overtaken. *)
Theorem queue_fifo ops s s' :
  queue_inv s -> fresh_run ops s -> run ops s = (Ok tt, s') ->
  exists new, trace s' = trace s ++ new /\
    wakeups new ++ queued s' = queued s ++ submitted ops.
Proof.
  intros Hinv Hfr E. now destruct (run_fifo ops s s' Hinv Hfr E).
Qed.

(** ** The checks of iderw and the acquire *)

(** In the model that runs the checks at the acquire, the first test of
    the wait loop sends the caller to sleep. *)
Lemma iderw_begin_sleeps b s x s' :
  iderw_begin b s = (Ok x, s') ->
  x = false /\ last (trace s') = Some (EvSleep b) /\ idelock s' = false.
Proof.
  intros E. unfold iderw_begin in E.
  apply bind_inv in E as [(y & se & Ee & Ew)|(r0 & _ & Hf)];
    [|destruct r0; contradiction].
  destruct y. apply iderw_enqueue_flags in Ee as (bf' & Hb & Hs).
  unfold iderw_wait, bind at 1, getbuf in Ew. rewrite Hb in Ew.
  destruct (Z.eqb_spec (Z.land (flags bf') (Z.lor B_VALID B_DIRTY)) B_VALID);
    [contradiction|].
  cbn [negb] in Ew. inversion Ew; subst.
  split; [reflexivity|]. split; [|reflexivity].
  cbn [trace with_lock emit]. now rewrite last_snoc.
Qed.

(** [iderw_begin] is the checks followed by the locked part. *)
Lemma iderw_begin_cut b s :
  iderw_begin b s = (let* _ := iderw_check b in iderw_enter b) s.
Proof.
  unfold iderw_begin, iderw_enter, iderw_enqueue, iderw_check.
  unfold bind, getbuf, gets, panic, ret.
  destruct (bufs s !! b) as [bf|]; [|reflexivity].
  destruct (_ =? 0); [reflexivity|].
  destruct (_ =? B_VALID); [reflexivity|].
  destruct (_ && _); reflexivity.
Qed.

(** The checks read the flags and the device of the buf and havedisk1,
    and change nothing. *)
Lemma iderw_check_ok b s s' :
  iderw_check b s = (Ok tt, s') ->
  s' = s /\
  exists bf, bufs s !! b = Some bf /\
    (Z.land (flags bf) B_BUSY =? 0) = false /\
    (Z.land (flags bf) (Z.lor B_VALID B_DIRTY) =? B_VALID) = false /\
    negb (dev bf =? 0) && (havedisk1 s =? 0) = false.
Proof.
  unfold iderw_check, bind at 1, getbuf.
  destruct (bufs s !! b) as [bf|] eqn:Hb; [|discriminate].
  destruct (_ =? 0) eqn:H1; [discriminate|].
  destruct (_ =? B_VALID) eqn:H2; [discriminate|].
  unfold bind, gets. destruct (_ && _) eqn:H3; [discriminate|].
  intros E. inversion E; subst s'. split; [reflexivity|].
  exists bf. repeat split; auto.
Qed.

(** An operation leaves a buf alone that is not on the queue and that it
    is not called for. *)
Lemma step_other (b : addr) o s s' :
  queue_inv s -> fresh o s -> step o s = (Ok tt, s') ->
  (b ∉ queued s) -> (b ∉ submitted [o]) ->
  (b ∉ queued s') /\ payload <$> bufs s' !! b = payload <$> bufs s !! b.
Proof.
  intros Hinv Hfresh E Hq Hsub. split.
  - destruct (step_fifo o s s' Hinv Hfresh E) as (_ & new & _ & Hfifo).
    intros Hin.
    assert (Hin' : b ∈ wakeups new ++ queued s') by (apply elem_of_app; auto).
    rewrite Hfifo in Hin'. apply elem_of_app in Hin' as [?|?]; contradiction.
  - destruct o; cbn [step] in E.
    + apply bind_inv in E as [(x & s1 & E1 & E2)|(r0 & _ & Hf)];
        [|destruct r0; contradiction].
      inversion E2; subst s1.
      apply keeps_links_iderw_begin in E1 as (Hp & _). apply Hp.
    + apply bind_inv in E as [(x & s1 & E1 & E2)|(r0 & _ & Hf)];
        [|destruct r0; contradiction].
      inversion E2; subst s1.
      apply keeps_aside_iderw_resume in E1 as (_ & -> & _). reflexivity.
    + destruct (idelock s) eqn:Hl;
        [rewrite (ideintr_locked s Hl) in E; discriminate|].
      destruct Hinv as (_ & Hls & _).
      destruct (queued s) as [|a rest] eqn:Hqs.
      * simpl in Hls. rewrite (ideintr_idle s Hls Hl) in E. now inversion E.
      * destruct Hls as (Hhead & bf & Hb & _).
        destruct (ideintr_done a bf s s' Hl Hhead Hb E) as (_ & _ & -> & _).
        apply not_elem_of_cons in Hq as (Hne & _).
        now rewrite lookup_insert_ne by auto.
    + apply bind_inv in E as [(x & s1 & E1 & E2)|(r0 & _ & Hf)];
        [|destruct r0; contradiction].
      inversion E2; subst s1.
      apply keeps_aside_read_swap in E1 as (_ & -> & _). reflexivity.
    + apply bind_inv in E as [(x & s1 & E1 & E2)|(r0 & _ & Hf)];
        [|destruct r0; contradiction].
      inversion E2; subst s1.
      apply keeps_aside_write_swap in E1 as (_ & -> & _). reflexivity.
Qed.

Lemma run_other (b : addr) ops s s' :
  queue_inv s -> fresh_run ops s -> run ops s = (Ok tt, s') ->
  (b ∉ queued s) -> (b ∉ submitted ops) ->
  queue_inv s' /\ (b ∉ queued s') /\
  payload <$> bufs s' !! b = payload <$> bufs s !! b.
Proof.
  revert s. induction ops as [|o ops IH]; intros s Hinv Hfr E Hq Hsub.
  - inversion E; subst. auto.
  - destruct Hfr as (Hf & Hfr). cbn [run] in E.
    apply bind_inv in E as [(x & s1 & E1 & E2)|(r0 & _ & Hfail)];
      [|destruct r0; contradiction].
    destruct x. rewrite E1 in Hfr.
    assert (Hsub1 : (b ∉ submitted [o]) /\ (b ∉ submitted ops)).
    { destruct o; cbn [submitted] in *; try (split; [apply not_elem_of_nil|auto]).
      apply not_elem_of_cons in Hsub as (Hne & Hsub).
      split; [|exact Hsub].
      apply not_elem_of_cons. split; [exact Hne | apply not_elem_of_nil]. }
    destruct Hsub1 as (Hso & Hsops).
    destruct (step_fifo o s s1 Hinv Hf E1) as (Hinv1 & _).
    destruct (step_other b o s s1 Hinv Hf E1 Hq Hso) as (Hq1 & Hp1).
    destruct (IH s1 Hinv1 Hfr E2 Hq1 Hsops) as (Hinv' & Hq' & Hp').
    split; [exact Hinv'|]. split; [exact Hq'|]. now rewrite Hp', Hp1.
Qed.

(** X8.  iderw called for a request that is not on the queue never
    returns without having slept.  The checks of lines 175-180 let
    through only a request that still has work to do; they are made
    before idelock is taken, and whatever the other threads and the
    interrupt handler do between the checks and the acquire (operations
    on other requests: the request is not on the queue and is handed to
    iderw by its owner only), the flags, the device and havedisk1 that the
    checks read are what they were when the lock is taken.  So the locked
    part of iderw does what the whole of iderw does when entered at that
    point, and the first test of the wait loop sends the caller to sleep on
    its buf, with idelock released: only an interrupt can let it return.
    (For a request that is on the queue already this fails: an interrupt
    between the checks and the acquire can complete it, and the call then
    returns at once.) *)
Theorem iderw_always_sleeps b ops s sc s1 x s' :
  queue_inv s -> (b ∉ queued s) ->
  fresh_run ops s -> (b ∉ submitted ops) ->
  iderw_check b s = (Ok tt, sc) ->
  run ops sc = (Ok tt, s1) ->
  iderw_enter b s1 = (Ok x, s') ->
  x = false /\ last (trace s') = Some (EvSleep b) /\ idelock s' = false /\
  (b ∉ queued s1) /\ iderw_begin b s1 = (Ok x, s').
Proof.
  intros Hinv Hq Hfr Hsub Ec Er Ee.
  apply iderw_check_ok in Ec as (-> & bf & Hb & H1 & H2 & H3).
  destruct (run_other b ops s s1 Hinv Hfr Er Hq Hsub) as (_ & Hq1 & Hp).
  pose proof (keeps_presence_run ops _ _ _ Er) as (Hh & _).
  assert (Eb : iderw_begin b s1 = (Ok x, s')).
  { rewrite iderw_begin_cut. unfold bind at 1.
    rewrite Hb in Hp. destruct (bufs s1 !! b) as [bf1|] eqn:Hb1; [|discriminate].
    inversion Hp as [[Hfl Hdv Hbn Hda]].
    unfold iderw_check, bind at 1, getbuf. rewrite Hb1, Hfl, H1, H2.
    unfold bind at 1, gets. rewrite Hdv, Hh, H3. exact Ee. }
  destruct (iderw_begin_sleeps b s1 x s' Eb) as (Hx & Hlast & Hl).
  auto.
Qed.

(** ** Every queued request is served *)

Lemma fresh_run_intr n s : fresh_run (repeat OpIntr n) s.
Proof.
  revert s. induction n as [|n IH]; intros s; simpl; [exact I|].
  split; [exact I|]. destruct (ideintr s) as [[] s1]; auto.
Qed.

Lemma elem_of_tail (x : addr) l : x ∈ tail l -> x ∈ l.
Proof. destruct l; simpl; [auto | now right]. Qed.

Lemma drain l : forall s,
  geometry ->
  queue_inv s -> queued s = l -> idelock s = false ->
  responsive (hw_in s) 0x1f7 ->
  (forall n bn, n ∈ tail l -> bufs s !! n = Some bn -> blockno bn < FSSIZE) ->
  exists s',
    run (repeat OpIntr (length l)) s = (Ok tt, s') /\
    idequeue s' = None /\ idelock s' = false /\
    (forall a bf, a ∈ l -> bufs s !! a = Some bf ->
       bufs s' !! a = Some (set_flags (completed (flags bf)) bf)) /\
    (forall x : addr, x ∉ l -> bufs s' !! x = bufs s !! x).
Proof.
  induction l as [|a rest IH]; intros s Hg Hinv Hq Hl Hresp Hrange.
  - exists s. split; [reflexivity|]. destruct Hinv as (_ & Hls & _).
    rewrite Hq in Hls. simpl in Hls. split; [exact Hls|]. split; [exact Hl|].
    split; [|auto]. intros a bf Ha. inversion Ha.
  - pose proof Hinv as (Hnd & Hls & _). rewrite Hq in Hnd, Hls.
    destruct Hls as (Hhead & bf & Hb & Hrest).
    apply NoDup_cons in Hnd as (Hnotin & Hnd).
    destruct (ideintr_total a bf s Hg Hl Hhead Hb Hresp) as (s1 & E1).
    { intros n Hn. rewrite Hn in Hrest. destruct rest as [|n' rest'];
        [discriminate|].
      destruct Hrest as (En & bn & Hbn & _). inversion En; subst n'.
      split; [intros ->; apply Hnotin; left|].
      exists bn. split; [exact Hbn|]. apply (Hrange n bn); [left | exact Hbn]. }
    destruct (ideintr_done a bf s s1 Hl Hhead Hb E1)
      as (Hl1 & _ & Hb1 & Hh1 & _).
    destruct (step_intr_inv s _ s1 Hinv E1) as (_ & _ & _ & _ & _ & Hsi).
    destruct (Hsi eq_refl) as (Hinv1 & Hq1). rewrite Hq in Hq1. cbn [tail] in Hq1.
    destruct (IH s1 Hg Hinv1 Hq1 Hl1) as (s' & Er & Hq' & Hl' & Hdone & Hframe).
    { now rewrite Hh1. }
    { intros n bn Hn Hbn. apply elem_of_tail in Hn as Hn'.
      rewrite Hb1, lookup_insert_ne in Hbn by (intros ->; contradiction).
      apply (Hrange n bn); [exact Hn' | exact Hbn]. }
    exists s'. cbn [length repeat run step].
    rewrite (bind_ok _ _ _ _ _ E1).
    split; [exact Er|]. split; [exact Hq'|]. split; [exact Hl'|]. split.
    + intros x bfx Hx Hbx. apply elem_of_cons in Hx as [->|Hx].
      * rewrite Hb in Hbx. inversion Hbx; subst bfx.
        rewrite (Hframe a Hnotin), Hb1. apply lookup_insert_eq.
      * apply Hdone; [exact Hx|].
        rewrite Hb1, lookup_insert_ne by (intros ->; contradiction). exact Hbx.
    + intros x Hx. apply not_elem_of_cons in Hx as (Hxa & Hx).
      rewrite (Hframe x Hx), Hb1. now apply lookup_insert_ne.
Qed.

(** X15.  Every queued request is served.  From a well-formed queue of n
    requests whose block numbers (beyond the one in flight) are in range,
    with a controller that answers the busy-wait, n interrupts in a row
    all return; they complete the requests in queue order and leave the
    queue empty, idelock free and every request that was queued with
    VALID set and DIRTY clear. *)
Theorem queue_drains s :
  flag_bits -> geometry ->
  queue_inv s -> idelock s = false ->
  responsive (hw_in s) 0x1f7 ->
  (forall n bn, n ∈ tail (queued s) -> bufs s !! n = Some bn ->
     blockno bn < FSSIZE) ->
  exists s' new,
    run (repeat OpIntr (length (queued s))) s = (Ok tt, s') /\
    idequeue s' = None /\ idelock s' = false /\
    trace s' = trace s ++ new /\ wakeups new = queued s /\
    forall a, a ∈ queued s ->
      exists f, flags_at s' a = Some f /\
        has_flag f B_VALID = true /\ has_flag f B_DIRTY = false.
Proof.
  intros Hbits Hg Hinv Hl Hresp Hrange.
  destruct (drain (queued s) s Hg Hinv eq_refl Hl Hresp Hrange)
    as (s' & Er & Hq' & Hl' & Hdone & _).
  destruct (run_fifo _ s s' Hinv (fresh_run_intr _ s) Er)
    as ((_ & Hls' & _) & new & Et & Hw).
  assert (Hempty : queued s' = []).
  { destruct (queued s') as [|x l]; [reflexivity|].
    destruct Hls' as (Hx & _). congruence. }
  assert (Hsub : forall n, submitted (repeat OpIntr n) = []).
  { induction n; simpl; auto. }
  rewrite Hempty, Hsub, !app_nil_r in Hw.
  exists s', new. split; [exact Er|]. split; [exact Hq'|]. split; [exact Hl'|].
  split; [exact Et|]. split; [exact Hw|].
  intros a Ha. destruct Hinv as (Hnd & Hls & _).
  destruct (lseg_lookup _ _ _ a Hls Ha) as (bf & Hb).
  exists (completed (flags bf)). unfold flags_at.
  rewrite (Hdone a bf Ha Hb). split; [reflexivity|].
  destruct (completed_flags (flags bf) Hbits) as (HV & HD & _). auto.
Qed.

(** ** One request on an idle driver, from submission to return *)

(** iderw on an empty queue, up to its call of idestart: the request has
    become the head. *)
Lemma iderw_enqueue_idle b bf s :
  idelock s = false -> idequeue s = None -> bufs s !! b = Some bf ->
  Z.land (flags bf) B_BUSY <> 0 ->
  Z.land (flags bf) (Z.lor B_VALID B_DIRTY) <> B_VALID ->
  dev bf = 0 \/ havedisk1 s <> 0 ->
  iderw_enqueue b s
  = idestart (Some b)
      (with_queue (Some b)
         (with_bufs (<[b := set_qnext None bf]> (bufs s)) (with_lock true s))).
Proof.
  intros Hl Hq Hb HB HS HD.
  set (s2 := with_bufs (<[b := set_qnext None bf]> (bufs s)) (with_lock true s)).
  assert (Ef : queue_tail s2 = (Ok SlotHead, s2)).
  { unfold queue_tail, bind, gets. cbn [find_tail read_slot]. unfold bind, gets.
    change (idequeue s2) with (idequeue s). now rewrite Hq. }
  rewrite (iderw_enqueue_eq b bf s Hb).
  destruct (Z.eqb_spec (Z.land (flags bf) B_BUSY) 0); [contradiction|].
  destruct (Z.eqb_spec (Z.land (flags bf) (Z.lor B_VALID B_DIRTY)) B_VALID);
    [contradiction|].
  assert (Hgate : negb (dev bf =? 0) && (havedisk1 s =? 0) = false).
  { destruct HD as [->|HD]; [reflexivity|].
    destruct (Z.eqb_spec (havedisk1 s) 0); [contradiction|]. apply andb_false_r. }
  rewrite Hgate. unfold iderw_append.
  unfold bind at 1. unfold acquire. rewrite Hl. cbn [write_slot].
  rewrite (bind_ok _ _ _ _ _
             (update_buf_eq b (set_qnext None) bf (with_lock true s) Hb)).
  change (bufs (with_lock true s)) with (bufs s). fold s2.
  rewrite (bind_ok _ _ _ _ _ Ef). cbn [write_slot].
  unfold bind at 1. unfold modify at 1.
  unfold bind at 1. unfold gets at 1.
  change (idequeue (with_queue (Some b) s2)) with (Some b).
  now rewrite bool_decide_eq_true_2 by reflexivity.
Qed.

(** iderw on an empty queue: the request becomes the head, is started at
    once, and the caller sleeps. *)
Lemma iderw_begin_idle b bf s :
  geometry ->
  idelock s = false -> idequeue s = None -> bufs s !! b = Some bf ->
  Z.land (flags bf) B_BUSY <> 0 ->
  Z.land (flags bf) (Z.lor B_VALID B_DIRTY) <> B_VALID ->
  dev bf = 0 \/ havedisk1 s <> 0 ->
  blockno bf < FSSIZE ->
  responsive (hw_in s) 0x1f7 ->
  exists vs s1,
    iderw_begin b s = (Ok false, s1) /\
    trace s1 = trace s ++ (EvStart (Some b) :: map (EvInb 0x1f7) vs
                             ++ start_regs bf ++ start_cmd bf (ram s))
                       ++ [EvSleep b] /\
    idelock s1 = false /\ idequeue s1 = Some b /\
    bufs s1 = <[b := set_qnext None bf]> (bufs s) /\
    ram s1 = ram s /\ hw_in s1 = hw_in s.
Proof.
  intros Hg Hl Hq Hb HB HS HD Hlt Hresp.
  pose proof (iderw_enqueue_idle b bf s Hl Hq Hb HB HS HD) as Ee.
  set (sq := with_queue (Some b)
               (with_bufs (<[b := set_qnext None bf]> (bufs s)) (with_lock true s)))
    in *.
  assert (Hbq : bufs sq !! b = Some (set_qnext None bf)) by apply lookup_insert_eq.
  destruct (idestart_total b (set_qnext None bf) sq Hbq) as (vs & Et).
  { cbn [blockno set_qnext]. now rewrite (geometry_fssize Hg). }
  { now apply geometry_quot. }
  { exact Hresp. }
  rewrite Et in Ee.
  exists vs. eexists. unfold iderw_begin. rewrite (bind_ok _ _ _ _ _ Ee).
  unfold iderw_wait, bind at 1, getbuf. cbn [bufs advance]. rewrite Hbq.
  cbn [flags set_qnext].
  destruct (Z.eqb_spec (Z.land (flags bf) (Z.lor B_VALID B_DIRTY)) B_VALID);
    [contradiction|].
  cbn [negb]. split; [reflexivity|].
  cbn [trace idelock idequeue bufs ram hw_in with_lock emit advance].
  repeat split; auto. now rewrite <- !app_assoc.
Qed.

(** X16.  A request submitted to an idle driver is served by one interrupt.
    With a controller that answers the busy-wait, iderw on an empty queue
    starts the request and sleeps; the next interrupt completes it and
    empties the queue; the sleeper, resumed, returns.  Along the way
    idestart was called once and the sleeper woken once, and in the end
    the request has VALID set and DIRTY clear, the queue is empty and
    idelock is free. *)
Theorem request_served b bf s :
  flag_bits -> geometry ->
  idelock s = false -> idequeue s = None -> bufs s !! b = Some bf ->
  Z.land (flags bf) B_BUSY <> 0 ->
  Z.land (flags bf) (Z.lor B_VALID B_DIRTY) <> B_VALID ->
  dev bf = 0 \/ havedisk1 s <> 0 ->
  blockno bf < FSSIZE ->
  responsive (hw_in s) 0x1f7 ->
  exists s1 s2 s3 new,
    iderw_begin b s = (Ok false, s1) /\
    ideintr s1 = (Ok tt, s2) /\
    iderw_resume b s2 = (Ok true, s3) /\
    idequeue s3 = None /\ idelock s3 = false /\
    flags_at s3 b = Some (completed (flags bf)) /\
    has_flag (completed (flags bf)) B_VALID = true /\
    has_flag (completed (flags bf)) B_DIRTY = false /\
    trace s3 = trace s ++ new /\ starts new = [Some b] /\ wakeups new = [b].
Proof.
  intros Hbits Hg Hl Hq Hb HB HS HD Hlt Hresp.
  destruct (iderw_begin_idle b bf s Hg Hl Hq Hb HB HS HD Hlt Hresp)
    as (vs & s1 & E1 & Et1 & Hl1 & Hq1 & Hb1 & _ & Hh1).
  assert (Hbb : bufs s1 !! b = Some (set_qnext None bf))
    by (rewrite Hb1; apply lookup_insert_eq).
  destruct (ideintr_total b (set_qnext None bf) s1 Hg Hl1 Hq1 Hbb) as (s2 & E2).
  { now rewrite Hh1. }
  { intros n Hn. discriminate. }
  destruct (ideintr_done b _ s1 s2 Hl1 Hq1 Hbb E2)
    as (Hl2 & Hq2 & Hb2 & _ & _ & _ & _ & pre & post & Et2 & Hpre & Hw & Hs).
  cbn [qnext flags set_qnext] in *.
  destruct (completed_flags (flags bf) Hbits) as (HV & HD' & _).
  fold (completed (flags bf)) in HV, HD'.
  assert (Hb2' : bufs s2 !! b
                 = Some (set_flags (completed (flags bf)) (set_qnext None bf)))
    by (rewrite Hb2; apply lookup_insert_eq).
  exists s1, s2, (with_lock false (with_lock true s2)).
  exists ((EvStart (Some b) :: map (EvInb 0x1f7) vs
             ++ start_regs bf ++ start_cmd bf (ram s)) ++ [EvSleep b]
          ++ pre ++ EvWakeup b :: post).
  split; [exact E1|]. split; [exact E2|]. split.
  { unfold iderw_resume, bind at 1, acquire. rewrite Hl2.
    unfold iderw_wait, bind at 1, getbuf. cbn [bufs with_lock]. rewrite Hb2'.
    cbn [flags set_flags].
    rewrite (settled_test _ Hbits), HV, HD'. reflexivity. }
  cbn [idequeue idelock bufs trace with_lock].
  split; [exact Hq2|]. split; [reflexivity|].
  split; [unfold flags_at; cbn [bufs with_lock]; now rewrite Hb2'|].
  split; [exact HV|]. split; [exact HD'|].
  split; [rewrite Et2, Et1, <- !app_assoc; reflexivity|].
  assert (Hqs : Forall (fun e => quiet e = true)
                  (map (EvInb 0x1f7) vs ++ start_regs bf ++ start_cmd bf (ram s))).
  { apply Forall_app. split; [apply quiet_polls|].
    apply Forall_app. unfold start_regs, start_cmd.
    destruct (has_flag (flags bf) B_DIRTY); split; repeat constructor. }
  split.
  - rewrite !starts_app. cbn [starts app].
    rewrite (starts_quiet _ Hqs), (starts_quiet _ Hpre), Hs. reflexivity.
  - rewrite !wakeups_app. cbn [wakeups app].
    rewrite (wakeups_quiet _ Hqs), (wakeups_quiet _ Hpre), Hw. reflexivity.
Qed.

(** ** A controller that stays busy *)

Lemma idestart_stuck a bf s :
  bufs s !! a = Some bf ->
  blockno bf < uint32 FSSIZE ->
  Z.quot BSIZE SECTSIZE <= 7 ->
  (forall i, (i < spin)%nat -> Z.land (status_at s 0x1f7 i) ATA_SR_BSY <> 0) ->
  idestart (Some a) s
  = (Spin, advance spin (EvStart (Some a)
                           :: map (EvInb 0x1f7)
                                (map (status_at s 0x1f7) (seq 0 spin))) s).
Proof.
  intros Hb Hlt Hle Hbusy. unfold idestart, idestart_body.
  unfold bind at 1. unfold modify at 1.
  unfold bind at 1. unfold getbuf at 1. cbn [bufs emit]. rewrite Hb.
  destruct (Z.geb_spec (blockno bf) (uint32 FSSIZE)); [lia|].
  destruct (Z.gtb_spec (Z.quot BSIZE SECTSIZE) 7); [lia|].
  unfold bind at 1. unfold idewait, bind at 1.
  rewrite (idewait_poll_stuck spin (IO_BASE0 + ATA_STATUS)
             (emit (EvStart (Some a)) s) Hbusy).
  change (status_at (emit (EvStart (Some a)) s) (IO_BASE0 + ATA_STATUS))
    with (status_at s 0x1f7).
  unfold after_polls. rewrite emit_advance, advance_advance.
  rewrite length_map, length_seq. reflexivity.
Qed.

(** X17.  The busy-wait of idestart runs with idelock held.  While the
    controller of the primary channel keeps its busy bit set, iderw on an
    idle driver does not get past idestart: it has queued its request, has
    written no register, and holds idelock, so that no other driver
    operation (the interrupt handler and the swap calls of the other
    channel included) can return either. *)
Theorem busy_controller_holds_lock b bf s :
  geometry ->
  idelock s = false -> idequeue s = None -> bufs s !! b = Some bf ->
  Z.land (flags bf) B_BUSY <> 0 ->
  Z.land (flags bf) (Z.lor B_VALID B_DIRTY) <> B_VALID ->
  dev bf = 0 \/ havedisk1 s <> 0 ->
  blockno bf < FSSIZE ->
  (forall i, (i < spin)%nat -> Z.land (status_at s 0x1f7 i) ATA_SR_BSY <> 0) ->
  exists s1 new,
    iderw_begin b s = (Spin, s1) /\
    idelock s1 = true /\ idequeue s1 = Some b /\
    trace s1 = trace s ++ new /\ List.filter port_write new = [] /\
    forall o r s2, step o s1 = (r, s2) -> r <> Ok tt /\ s2 = s1.
Proof.
  intros Hg Hl Hq Hb HB HS HD Hlt Hbusy.
  pose proof (iderw_enqueue_idle b bf s Hl Hq Hb HB HS HD) as Ee.
  rewrite (idestart_stuck b (set_qnext None bf)) in Ee.
  - eexists. eexists. unfold iderw_begin, bind at 1. rewrite Ee.
    split; [reflexivity|]. cbn [idelock idequeue trace advance with_queue
                                with_bufs with_lock].
    split; [reflexivity|]. split; [reflexivity|]. split; [reflexivity|].
    split; [cbn [List.filter port_write]; apply filter_writes_polls|].
    intros o r s2 E. eapply step_locked; [|exact E]. reflexivity.
  - apply lookup_insert_eq.
  - cbn [blockno set_qnext]. now rewrite (geometry_fssize Hg).
  - now apply geometry_quot.
  - exact Hbusy.
Qed.

(** ** The flag words of the bufs over a run *)

(** Completing a completed request changes nothing. *)
Lemma completed_idem f : completed (completed f) = completed f.
Proof.
  unfold completed. apply Z.bits_inj'. intros n Hn.
  rewrite !Z.land_spec, !Z.lor_spec, !Z.land_spec, !Z.lor_spec.
  destruct (Z.testbit f n), (Z.testbit B_VALID n), (Z.testbit (Z.lnot B_DIRTY) n);
    reflexivity.
Qed.

Lemma only_completed_refl s : only_completed s s.
Proof. intros a bf Hb. exists bf. auto. Qed.

Lemma only_completed_trans s1 s2 s3 :
  only_completed s1 s2 -> only_completed s2 s3 -> only_completed s1 s3.
Proof.
  intros H1 H2 a bf Hb.
  destruct (H1 a bf Hb) as (bf1 & Hb1 & Hf1 & Hd1 & Hn1 & Ha1).
  destruct (H2 a bf1 Hb1) as (bf2 & Hb2 & Hf2 & Hd2 & Hn2 & Ha2).
  exists bf2. split; [exact Hb2|]. split; [|repeat split; congruence].
  destruct Hf1 as [E1|E1], Hf2 as [E2|E2]; rewrite E2, E1;
    rewrite ?completed_idem; auto.
Qed.

Lemma only_completed_same s s' : bufs s' = bufs s -> only_completed s s'.
Proof. intros E a bf Hb. exists bf. rewrite E. auto. Qed.

Lemma keeps_completed_links {A} (m : M A) :
  keeps links_only m -> keeps only_completed m.
Proof.
  intros H s r s' E a bf Hb. apply H in E as (Hp & _).
  specialize (Hp a). rewrite Hb in Hp.
  destruct (bufs s' !! a) as [bf'|]; [|discriminate].
  unfold payload in Hp. simpl in Hp. exists bf'.
  split; [reflexivity|]. split; [left; congruence|]. repeat split; congruence.
Qed.

Lemma keeps_completed_aside {A} (m : M A) :
  keeps aside m -> keeps only_completed m.
Proof.
  intros H s r s' E. apply H in E as (_ & Hb & _). now apply only_completed_same.
Qed.

Lemma keeps_completed_modify f :
  (forall s, bufs (f s) = bufs s) -> keeps only_completed (modify f).
Proof. intros H. apply keeps_modify. intros. now apply only_completed_same. Qed.

Lemma keeps_completed_acquire : keeps only_completed acquire.
Proof.
  intros s r s'. unfold acquire. destruct (idelock s); intros E; inversion E;
    subst; now apply only_completed_same.
Qed.

Lemma keeps_completed_ideintr_wake a : keeps only_completed (ideintr_wake a).
Proof.
  intros s r s' E. destruct (bufs s !! a) as [bf|] eqn:Hb.
  - rewrite (ideintr_wake_eq a bf s Hb) in E. inversion E; subst.
    intros a' bf' Hb'. cbn [bufs emit with_bufs].
    destruct (decide (a = a')) as [<-|Hne].
    + rewrite lookup_insert_eq. rewrite Hb in Hb'. inversion Hb'; subst.
      eexists. split; [reflexivity|]. cbn [flags dev blockno data set_flags].
      auto.
    + rewrite lookup_insert_ne by auto. exists bf'. auto.
  - unfold ideintr_wake, update_buf, bind, getbuf in E. rewrite Hb in E.
    inversion E; subst. apply only_completed_refl.
Qed.

Lemma keeps_completed_ideintr_next : keeps only_completed ideintr_next.
Proof.
  intros s r s' E. apply ideintr_next_frame in E as (_ & _ & Hb & _).
  now apply only_completed_same.
Qed.

Lemma keeps_completed_ideintr : keeps only_completed ideintr.
Proof.
  unfold ideintr, release.
  repeat first
    [ apply keeps_completed_acquire
    | apply keeps_completed_ideintr_wake
    | apply keeps_completed_ideintr_next
    | apply keeps_completed_aside; apply keeps_aside_ideintr_read
    | apply (keeps_gets _ only_completed_refl)
    | apply (keeps_getbuf _ only_completed_refl)
    | apply keeps_completed_modify; reflexivity
    | apply (keeps_bind _ only_completed_trans); [|intros ?]
    | match goal with
      | |- keeps _ (match ?x with _ => _ end) => destruct x
      end ].
Qed.

Lemma keeps_completed_step o : keeps only_completed (step o).
Proof.
  destruct o; cbn [step].
  - apply (keeps_bind _ only_completed_trans);
      [apply keeps_completed_links, keeps_links_iderw_begin
      | intros; apply (keeps_ret _ only_completed_refl)].
  - apply (keeps_bind _ only_completed_trans);
      [apply keeps_completed_links, keeps_links_iderw_resume
      | intros; apply (keeps_ret _ only_completed_refl)].
  - apply keeps_completed_ideintr.
  - apply (keeps_bind _ only_completed_trans);
      [apply keeps_completed_aside, keeps_aside_read_swap
      | intros; apply (keeps_ret _ only_completed_refl)].
  - apply (keeps_bind _ only_completed_trans);
      [apply keeps_completed_aside, keeps_aside_write_swap
      | intros; apply (keeps_ret _ only_completed_refl)].
Qed.

Lemma keeps_completed_run ops : keeps only_completed (run ops).
Proof.
  induction ops; cbn [run].
  - apply (keeps_ret _ only_completed_refl).
  - apply (keeps_bind _ only_completed_trans); [apply keeps_completed_step | auto].
Qed.

(** ** The memory the driver writes *)

Lemma same_arrays_refl s : same_arrays s s.
Proof. intros a. reflexivity. Qed.

Lemma same_arrays_trans s1 s2 s3 :
  same_arrays s1 s2 -> same_arrays s2 s3 -> same_arrays s1 s3.
Proof. intros H1 H2 a. now rewrite H2, H1. Qed.

Lemma same_arrays_links s s' : links_only s s' -> same_arrays s s'.
Proof.
  intros (Hp & _) a. specialize (Hp a).
  destruct (bufs s' !! a) as [bf'|], (bufs s !! a) as [bf|]; try discriminate;
    [|reflexivity].
  unfold payload in Hp. simpl in *. congruence.
Qed.

Lemma same_arrays_bufs s s' : bufs s' = bufs s -> same_arrays s s'.
Proof. intros E a. now rewrite E. Qed.

Lemma store_dwords_changed r a ws x :
  store_dwords r a ws x <> r x -> a <= x < a + 4 * Z.of_nat (length ws).
Proof.
  intros H. destruct (Z_lt_le_dec x a) as [Hlo|Hlo];
    [exfalso; apply H; apply store_dwords_outside; lia|].
  destruct (Z_lt_le_dec x (a + 4 * Z.of_nat (length ws))) as [Hhi|Hhi]; [lia|].
  exfalso. apply H. apply store_dwords_outside. lia.
Qed.

(** An interrupt, whatever its outcome: a block image is written only
    for the request whose completion is then signalled. *)
Lemma ideintr_writes s r s' :
  ideintr s = (r, s') ->
  same_arrays s s' /\
  exists new, trace s' = trace s ++ new /\
    (ram s' = ram s \/
     exists (a : addr) bf ws, a ∈ wakeups new /\ bufs s !! a = Some bf /\
       length ws = Z.to_nat (Z.quot BSIZE 4) /\
       ram s' = store_dwords (ram s) (data bf) ws).
Proof.
  intros E.
  assert (Hsame : forall t, trace t = trace s -> bufs t = bufs s -> ram t = ram s ->
            same_arrays s t /\
            exists new, trace t = trace s ++ new /\
              (ram t = ram s \/
               exists (a : addr) bf ws, a ∈ wakeups new /\ bufs s !! a = Some bf /\
                 length ws = Z.to_nat (Z.quot BSIZE 4) /\
                 ram t = store_dwords (ram s) (data bf) ws)).
  { intros t Ht Hb Hr. split; [now apply same_arrays_bufs|].
    exists []. rewrite app_nil_r. auto. }
  destruct (idelock s) eqn:Hl.
  { rewrite (ideintr_locked s Hl) in E. injection E as _ <-.
    apply Hsame; reflexivity. }
  destruct (idequeue s) as [a|] eqn:Hq.
  2:{ rewrite (ideintr_idle s Hq Hl) in E. injection E as _ <-.
      apply Hsame; reflexivity. }
  destruct (bufs s !! a) as [bf|] eqn:Hb.
  2:{ unfold ideintr in E. unfold bind at 1 in E. unfold acquire in E.
      rewrite Hl in E. unfold bind at 1 in E. unfold gets at 1 in E.
      change (idequeue (with_lock true s)) with (idequeue s) in E. rewrite Hq in E.
      unfold bind at 1 in E. unfold getbuf at 1 in E.
      change (bufs (with_lock true s)) with (bufs s) in E. rewrite Hb in E.
      injection E as _ <-. apply Hsame; reflexivity. }
  clear Hsame.
  apply (ideintr_inv a bf s _ s' Hl Hq Hb) in E as (r1 & s1 & E1 & Hc).
  pose proof (keeps_aside_ideintr_read bf _ _ _ E1) as (_ & A2 & pre & Et1 & Hpre).
  pose proof (ideintr_read_io _ _ _ _ E1) as (_ & _ & _ & _ & Hram).
  cbn [bufs ram trace with_queue with_lock] in A2, Et1, Hram.
  destruct Hc as [(-> & _ & ->)|(_ & r2 & s2 & E2 & Hr)].
  - split; [now apply same_arrays_bufs|]. exists pre. split; [exact Et1|]. left.
    apply ideintr_read_inv in E1.
    destruct E1 as [(_ & _ & ->)|(_ & rw & vs & _ & [(_ & _ & ->)|(v & _ & _ & ? & _)])];
      [reflexivity | reflexivity | discriminate].
  - apply ideintr_next_frame in E2 as (_ & _ & C3 & C4 & post & Et2 & _).
    cbn [bufs ram trace emit with_bufs] in C3, C4, Et2.
    assert (Hs' : bufs s' = bufs s2 /\ ram s' = ram s2 /\ trace s' = trace s2).
    { destruct Hr as [(_ & _ & ->)|(_ & _ & ->)]; auto. }
    destruct Hs' as (Hb' & Hr' & Ht').
    split.
    + intros x. rewrite Hb', C3, A2. destruct (decide (a = x)) as [<-|Hne].
      * rewrite lookup_insert_eq, Hb. reflexivity.
      * now rewrite lookup_insert_ne by auto.
    + exists (pre ++ EvWakeup a :: post).
      split; [rewrite Ht', Et2, Et1, <- !app_assoc; reflexivity|].
      rewrite Hr', C4. destruct Hram as [Hram|(ws & Hlen & Hram)]; [left; exact Hram|].
      right. exists a, bf, ws. split; [|auto].
      rewrite wakeups_app. apply elem_of_app. right. simpl. apply list_elem_of_here.
Qed.

(** read_swap, whatever its outcome, writes inside the eight sectors at
    its destination; write_swap writes nothing. *)
Lemma read_swap_writes secno dst s r s' :
  read_swap secno dst s = (r, s') ->
  forall x, ram s' x <> ram s x -> dst <= x < dst + 8 * SECTSIZE.
Proof.
  intros E x Hx. destruct (idelock s) eqn:Hl.
  { unfold read_swap, bind, acquire in E. rewrite Hl in E. inversion E; subst.
    contradiction. }
  destruct (proj1 (swap_moved secno dst s Hl) r s' E)
    as (wss & new & _ & _ & _ & _ & Hout & _ & _ & Ho).
  assert (Hk : (length wss <= 8)%nat).
  { destruct Ho as [(_ & -> & _)|[(_ & ? & _)|(_ & ?)]]; lia. }
  unfold SECTSIZE.
  destruct (Z_lt_le_dec x dst) as [Hlo|Hlo]; [exfalso; apply Hx, Hout; lia|].
  destruct (Z_lt_le_dec x (dst + 512 * Z.of_nat (length wss))) as [Hhi|Hhi]; [lia|].
  exfalso. apply Hx, Hout. lia.
Qed.

Lemma write_swap_writes secno src s r s' :
  write_swap secno src s = (r, s') -> ram s' = ram s.
Proof.
  intros E. destruct (idelock s) eqn:Hl.
  { unfold write_swap, bind, acquire in E. rewrite Hl in E. now inversion E. }
  destruct (proj1 (proj2 (swap_moved secno src s Hl)) r s' E)
    as (k & new & _ & _ & Hram & _).
  exact Hram.
Qed.

Lemma step_state {A} (m : M A) s r s' :
  (let* _ := m in ret tt) s = (r, s') -> exists r0, m s = (r0, s').
Proof.
  intros E. apply bind_inv in E as [(x & s1 & E1 & E2)|(r0 & E1 & _)].
  - inversion E2; subst. eauto.
  - eauto.
Qed.

Lemma step_writes o s r s' :
  geometry -> step o s = (r, s') ->
  same_arrays s s' /\
  exists new, trace s' = trace s ++ new /\
    forall x, ram s' x <> ram s x -> written [o] s new x.
Proof.
  intros Hg E. destruct o; cbn [step] in E.
  - apply step_state in E as (r0 & E).
    pose proof (keeps_links_iderw_begin b _ _ _ E) as Hl.
    destruct (keeps_touches_iderw_begin b _ _ _ E) as (new & Et & _).
    split; [now apply same_arrays_links|]. exists new. split; [exact Et|].
    intros x Hx. destruct Hl as (_ & Hram). rewrite Hram in Hx. contradiction.
  - apply step_state in E as (r0 & E).
    pose proof (keeps_links_iderw_resume b _ _ _ E) as Hl.
    destruct (keeps_aside_iderw_resume b _ _ _ E) as (_ & _ & new & Et & _).
    split; [now apply same_arrays_links|]. exists new. split; [exact Et|].
    intros x Hx. destruct Hl as (_ & Hram). rewrite Hram in Hx. contradiction.
  - apply ideintr_writes in E as (Hsa & new & Et & Hram).
    split; [exact Hsa|]. exists new. split; [exact Et|]. intros x Hx.
    destruct Hram as [Hram|(a & bf & ws & Ha & Hb & Hlen & Hram)];
      [rewrite Hram in Hx; contradiction|].
    rewrite Hram in Hx. apply store_dwords_changed in Hx.
    rewrite Hlen, (geometry_dwords Hg) in Hx. left. eauto.
  - apply step_state in E as (r0 & E).
    destruct (keeps_aside_read_swap secno dst _ _ _ E) as (_ & Hb & new & Et & _).
    split; [now apply same_arrays_bufs|]. exists new. split; [exact Et|].
    intros x Hx. right. exists secno, dst. split; [apply list_elem_of_here|].
    exact (read_swap_writes secno dst s r0 s' E x Hx).
  - apply step_state in E as (r0 & E).
    destruct (keeps_aside_write_swap secno src _ _ _ E) as (_ & Hb & new & Et & _).
    split; [now apply same_arrays_bufs|]. exists new. split; [exact Et|].
    intros x Hx. rewrite (write_swap_writes secno src s r0 s' E) in Hx.
    contradiction.
Qed.

Lemma written_first o ops s new1 new2 x :
  written [o] s new1 x -> written (o :: ops) s (new1 ++ new2) x.
Proof.
  intros [(a & bf & Ha & Hb & Hx)|(secno & dst & Ho & Hx)].
  - left. exists a, bf. split; [|auto]. rewrite wakeups_app. apply elem_of_app. auto.
  - right. exists secno, dst. split; [|exact Hx].
    apply list_elem_of_singleton in Ho. subst o. apply list_elem_of_here.
Qed.

Lemma written_later o ops s s1 new1 new2 x :
  same_arrays s s1 ->
  written ops s1 new2 x -> written (o :: ops) s (new1 ++ new2) x.
Proof.
  intros Hsa [(a & bf1 & Ha & Hb & Hx)|(secno & dst & Ho & Hx)].
  - left. specialize (Hsa a). rewrite Hb in Hsa.
    destruct (bufs s !! a) as [bf|] eqn:Hbs; [|discriminate].
    exists a, bf. split; [rewrite wakeups_app; apply elem_of_app; auto|].
    split; [exact Hbs|]. simpl in Hsa. assert (data bf = data bf1) by congruence.
    lia.
  - right. exists secno, dst. split; [|exact Hx]. now apply list_elem_of_further.
Qed.

Lemma run_writes ops s r s' :
  geometry -> run ops s = (r, s') ->
  same_arrays s s' /\
  exists new, trace s' = trace s ++ new /\
    forall x, ram s' x <> ram s x -> written ops s new x.
Proof.
  intros Hg. revert s. induction ops as [|o ops IH]; intros s E; cbn [run] in E.
  - inversion E; subst. split; [apply same_arrays_refl|]. exists [].
    rewrite app_nil_r. split; [reflexivity|]. intros x Hx. contradiction.
  - apply bind_inv in E as [(u & s1 & E1 & E2)|(r0 & E1 & _)].
    + destruct (step_writes o s _ s1 Hg E1) as (Hsa1 & new1 & Et1 & Hw1).
      destruct (IH s1 E2) as (Hsa2 & new2 & Et2 & Hw2).
      split; [exact (same_arrays_trans _ _ _ Hsa1 Hsa2)|].
      exists (new1 ++ new2). split; [rewrite Et2, Et1; now rewrite app_assoc|].
      intros x Hx. destruct (Z.eq_dec (ram s1 x) (ram s x)) as [Heq|Hne].
      * apply (written_later o ops s s1 new1 new2 x Hsa1). apply Hw2. congruence.
      * apply written_first. now apply Hw1.
    + destruct (step_writes o s _ s' Hg E1) as (Hsa1 & new1 & Et1 & Hw1).
      split; [exact Hsa1|]. exists new1. split; [exact Et1|].
      intros x Hx. rewrite <- (app_nil_r new1). apply written_first. now apply Hw1.
Qed.

(** X18.  What a run of driver operations (iderw entries, resumed
    sleepers, interrupts, swap calls) can change of the bufs and of
    memory, whatever its outcome.  No buf goes away; no buf's device or
    block number changes; a flag word is either what it was or what a
    completion makes of it: VALID set, DIRTY cleared, every other bit
    (BUSY among them) as it was, so that the driver never sets DIRTY,
    never clears VALID and never touches BUSY.  Memory is written in two
    places only: the BSIZE bytes of the block image b->data of a request
    the interrupt handler completed and signalled (the data pull of
    line 152 does overwrite the contents of a buf that is read), and the
    eight sectors at the destination of a read_swap.  Every other byte,
    the block images of the requests that are written or still queued
    among them, is as it was. *)
Theorem driver_footprint ops s r s' :
  geometry ->
  run ops s = (r, s') ->
  (forall (a : addr) bf, bufs s !! a = Some bf ->
     exists bf', bufs s' !! a = Some bf' /\
       (flags bf' = flags bf \/
        flags bf' = Z.land (Z.lor (flags bf) B_VALID) (Z.lnot B_DIRTY)) /\
       dev bf' = dev bf /\ blockno bf' = blockno bf) /\
  exists new, trace s' = trace s ++ new /\
    forall x, ram s' x <> ram s x ->
      (exists (a : addr) bf, a ∈ wakeups new /\ bufs s !! a = Some bf /\
         data bf <= x < data bf + BSIZE) \/
      (exists secno dst, OpReadSwap secno dst ∈ ops /\
         dst <= x < dst + 8 * SECTSIZE).
Proof.
  intros Hg E. split.
  - intros a bf Hb.
    destruct (keeps_completed_run ops s r s' E a bf Hb)
      as (bf' & Hb' & Hf & Hd & Hn & _).
    exists bf'. auto.
  - destruct (run_writes ops s r s' Hg E) as (_ & new & Et & Hw).
    exists new. split; [exact Et|]. exact Hw.
Qed.

End Driver.

(** ** The theorems at the sample machines *)

Lemma pair_eq {A B} (p : A * B) (a : A) : fst p = a -> p = (a, snd p).
Proof. intros <-. now destruct p. Qed.

Lemma sample_flag_bits : flag_bits b_busy b_valid b_dirty.
Proof.
  repeat split; try (now (exists 0 + exists 1 + exists 2)); discriminate.
Defined.

Lemma sample_geometry : geometry fssize bsize.
Proof. repeat split; try reflexivity; try discriminate. Defined.

Lemma ready_responsive port : responsive polls ready_hw port.
Proof. intros t. exists 0%nat. split; [unfold polls; lia | reflexivity]. Defined.

Lemma failing_responsive k port : responsive polls (failing_hw k) port.
Proof.
  intros t. exists 0%nat. split; [unfold polls; lia|].
  unfold failing_hw. destruct (_ <? _)%nat; reflexivity.
Defined.

Lemma idle_machine_inv h : queue_inv (machine None h).
Proof. apply queue_inv_idle; reflexivity. Defined.

(** C1 at a sample run: two requests are queued, the first is completed
    (which starts the second), its sleeper returns, the second is
    completed. *)
Lemma one_request_in_flight_witness :
  let s := machine None ready_hw in
  let ops := [OpIderw 1%nat; OpIderw 2%nat; OpIntr; OpResume 1%nat; OpIntr] in
  let r := fst (run fssize bsize b_busy b_valid b_dirty polls ops s) in
  let s' := snd (run fssize bsize b_busy b_valid b_dirty polls ops s) in
  queue_inv s /\
  fresh_run fssize bsize b_busy b_valid b_dirty polls ops s /\
  (exists cur, track None (trace s') = Some cur) /\
  (r = Ok tt -> queue_inv s').
Proof.
  intros s ops r s'.
  assert (Hinv : queue_inv s) by apply idle_machine_inv.
  assert (Hfr : fresh_run fssize bsize b_busy b_valid b_dirty polls ops s).
  { vm_compute.
    repeat split; intros H;
      repeat (inversion_clear H as [|? ? ? H']; rename H' into H). }
  split; [exact Hinv|]. split; [exact Hfr|].
  apply (proj1 (one_request_in_flight fssize bsize b_busy b_valid b_dirty polls)
           ops s r s' Hinv Hfr).
  apply surjective_pairing.
Defined.

(** C1 as stated fails when a request is handed to iderw a second time
    while it is on the queue: the second call finds idequeue == b although
    the queue was not empty, and calls idestart again with the first
    operation still outstanding. *)
Lemma double_submission_two_in_flight :
  let s := machine None ready_hw in
  let s1 := snd (step fssize bsize b_busy b_valid b_dirty polls (OpIderw 1%nat) s) in
  let s2 := snd (step fssize bsize b_busy b_valid b_dirty polls (OpIderw 1%nat) s1) in
  queued s1 = [1%nat] /\
  starts (trace s2) = [Some 1%nat; Some 1%nat] /\
  track None (trace s2) = None /\
  ~ (forall ops s r s',
       queue_inv s ->
       run fssize bsize b_busy b_valid b_dirty polls ops s = (r, s') ->
       exists cur, track None (trace s') = Some cur).
Proof.
  intros s s1 s2.
  split; [vm_compute; reflexivity|].
  split; [vm_compute; reflexivity|].
  split; [vm_compute; reflexivity|].
  intros H.
  destruct (H [OpIderw 1%nat; OpIderw 1%nat] s _ _ (idle_machine_inv ready_hw)
              (surjective_pairing _)) as (cur & Hc).
  vm_compute in Hc. discriminate.
Qed.

(** C2 at a sample run: the sleeper of request 1 returns after the
    interrupt that completes it, with a second request queued meanwhile. *)
Lemma iderw_returns_settled_witness :
  let s0 := machine None ready_hw in
  let s1 := snd (iderw_begin fssize bsize b_busy b_valid b_dirty polls 1%nat s0) in
  let s2 := snd (run fssize bsize b_busy b_valid b_dirty polls
                   [OpIderw 2%nat; OpIntr] s1) in
  let s3 := snd (iderw_resume b_valid b_dirty 1%nat s2) in
  exists f, flags_at s3 1%nat = Some f /\ has_flag f b_valid = true /\
    has_flag f b_dirty = false /\ has_flag f b_busy = true.
Proof.
  intros s0 s1 s2 s3.
  assert (E0 : iderw_begin fssize bsize b_busy b_valid b_dirty polls 1%nat s0
               = (Ok false, s1)).
  { unfold s1. apply pair_eq. vm_compute. reflexivity. }
  assert (E1 : run fssize bsize b_busy b_valid b_dirty polls
                 [OpIderw 2%nat; OpIntr] s1 = (Ok tt, s2)).
  { unfold s2. apply pair_eq. vm_compute. reflexivity. }
  assert (E2 : iderw_resume b_valid b_dirty 1%nat s2 = (Ok true, s3)).
  { unfold s3. apply pair_eq. vm_compute. reflexivity. }
  exact (proj2 (iderw_returns_settled fssize bsize b_busy b_valid b_dirty polls 1%nat
                  s0 false s1 sample_flag_bits E0)
           [OpIderw 2%nat; OpIntr] s2 s3 E1 E2).
Defined.

(** C3 at three bufs: one nobody holds, one that is valid already, and
    one waiting to be read. *)
Lemma iderw_contract_witness :
  let s := machine None ready_hw in
  iderw_begin fssize bsize b_busy b_valid b_dirty polls 4%nat s
    = (Panic "iderw: buf not busy", s) /\
  iderw_begin fssize bsize b_busy b_valid b_dirty polls 3%nat s
    = (Panic "iderw: nothing to do", s) /\
  (forall r s',
     iderw_begin fssize bsize b_busy b_valid b_dirty polls 2%nat s = (r, s') ->
     r <> Panic "iderw: buf not busy" /\ r <> Panic "iderw: nothing to do").
Proof.
  intros s. split; [|split].
  - apply (proj1 (iderw_contract fssize bsize b_busy b_valid b_dirty polls 4%nat
                    buf_unowned s sample_flag_bits eq_refl)).
    reflexivity.
  - apply (proj1 (proj2 (iderw_contract fssize bsize b_busy b_valid b_dirty polls
                           3%nat buf_done s sample_flag_bits eq_refl)));
      reflexivity.
  - apply (proj2 (proj2 (iderw_contract fssize bsize b_busy b_valid b_dirty polls
                           2%nat buf_r s sample_flag_bits eq_refl)));
      [reflexivity|].
    left. reflexivity.
Defined.

(** C4 at block 1000 (refused) and block 999 (started) of a file system
    of 1000 blocks. *)
Lemma idestart_blockno_boundary_witness :
  (exists s',
     idestart fssize bsize b_dirty polls (Some 5%nat) (machine None ready_hw)
     = (Panic "incorrect blockno", s') /\
     clock s' = 0%nat /\ trace s' = [EvStart (Some 5%nat)]) /\
  (exists vs s',
     idestart fssize bsize b_dirty polls (Some 1%nat) (machine None ready_hw)
     = (Ok tt, s') /\
     trace s' = EvStart (Some 1%nat) :: map (EvInb 0x1f7) vs
                  ++ start_regs bsize buf_w
                  ++ start_cmd bsize b_dirty buf_w (ram (machine None ready_hw))).
Proof.
  split.
  - apply (proj1 (idestart_blockno_boundary fssize bsize b_dirty polls 5%nat buf_out
                    (machine None ready_hw) sample_geometry eq_refl)).
    vm_compute. discriminate.
  - apply (proj2 (idestart_blockno_boundary fssize bsize b_dirty polls 1%nat buf_w
                    (machine None ready_hw) sample_geometry eq_refl)).
    + reflexivity.
    + apply ready_responsive.
Defined.


(** C6 at a read whose status shows an error. *)
Lemma ideintr_completes_witness :
  let s := machine (Some 2%nat) (failing_hw 0) in
  let s' := snd (ideintr fssize bsize b_valid b_dirty polls s) in
  flags_at s' 2%nat = Some (completed b_valid b_dirty (flags buf_r)) /\
  has_flag (completed b_valid b_dirty (flags buf_r)) b_valid = true /\
  has_flag (completed b_valid b_dirty (flags buf_r)) b_dirty = false /\
  (fst (ideintr fssize bsize b_valid b_dirty polls s) = Ok tt ->
   iderw_resume b_valid b_dirty 2%nat s' = (Ok true, s')) /\
  exists pre post,
    trace s' = trace s ++ pre ++ EvWakeup 2%nat :: post /\
    ((has_flag (flags buf_r) b_dirty = true /\ pre = [] /\ ram s' = ram s) \/
     (has_flag (flags buf_r) b_dirty = false /\
      exists vs v, last vs = Some v /\
        ((faulty v = true /\ pre = map (EvInb 0x1f7) vs /\ ram s' = ram s) \/
         (faulty v = false /\
          let ws := port_dwords (hw_in s) (clock s + length vs) 0x1f0
                      (Z.to_nat (Z.quot bsize 4)) in
          pre = map (EvInb 0x1f7) vs ++ [EvInsl 0x1f0 ws] /\
          ram s' = store_dwords (ram s) (data buf_r) ws)))).
Proof.
  intros s s'.
  apply (ideintr_completes fssize bsize b_busy b_valid b_dirty polls 2%nat buf_r s
           (fst (ideintr fssize bsize b_valid b_dirty polls s)) s'
           sample_flag_bits eq_refl eq_refl eq_refl).
  - intros _. apply failing_responsive.
  - apply surjective_pairing.
Defined.

(** C7 at the idle sample machine. *)
Lemma ideintr_spurious_witness :
  ideintr fssize bsize b_valid b_dirty polls (machine None ready_hw)
  = (Ok tt, machine None ready_hw).
Proof.
  apply (proj1 (ideintr_spurious fssize bsize b_valid b_dirty polls
                  (machine None ready_hw) eq_refl eq_refl)).
Defined.

(** C8 at a read whose fourth sector (sector 3) shows an error: the
    status is the 389th port read, after one poll for the setup and three
    sectors of one poll and 128 dwords each.  The call returns -1 and the
    trace holds the seven register writes and three data transfers.  And
    at a write whose first sector shows an error: the call returns -1 and
    nothing was sent. *)
Lemma swap_transfer_witness :
  let s := machine None (failing_hw 388) in
  let r := fst (read_swap polls 5 4096 s) in
  let s' := snd (read_swap polls 5 4096 s) in
  let sw := machine None (failing_hw 0) in
  let rw := fst (write_swap polls 5 4096 sw) in
  let sw' := snd (write_swap polls 5 4096 sw) in
  r = Ok (-1) /\
  length (data_events (trace s')) = 10%nat /\
  (exists wss new,
     Forall (fun ws => length ws = 128%nat) wss /\
     trace s' = trace s ++ new /\
     (data_events new = swap_regs 5 ATA_CMD_READ ++ map (EvInsl 0x170) wss \/
      (r = Spin /\ data_events new = [] /\ wss = [])) /\
     ram s' = store_dwords (ram s) 4096 (concat wss) /\
     (forall x, x < 4096 \/ 4096 + 512 * Z.of_nat (length wss) <= x ->
                ram s' x = ram s x) /\
     idequeue s' = idequeue s /\ bufs s' = bufs s /\
     swap_outcome 8 r (length wss) s' new /\
     swap_trace 5 ATA_CMD_READ (EvInsl 0x170) r s' new) /\
  rw = Ok (-1) /\
  data_events (trace sw') = swap_regs 5 ATA_CMD_WRITE /\
  (exists k new,
     trace sw' = trace sw ++ new /\
     (data_events new
      = swap_regs 5 ATA_CMD_WRITE
          ++ map (EvOutsl 0x170) (load_sectors (ram sw) 4096 k) \/
      (rw = Spin /\ data_events new = [] /\ k = 0%nat)) /\
     ram sw' = ram sw /\
     idequeue sw' = idequeue sw /\ bufs sw' = bufs sw /\
     swap_outcome 8 rw k sw' new /\
     swap_trace 5 ATA_CMD_WRITE (EvOutsl 0x170) rw sw' new).
Proof.
  intros s r s' sw rw sw'. split; [vm_compute; reflexivity|].
  split; [vm_compute; reflexivity|].
  split.
  { apply (proj1 (swap_transfer polls 5 4096 s eq_refl) r s').
    apply surjective_pairing. }
  split; [vm_compute; reflexivity|].
  split; [vm_compute; reflexivity|].
  apply (proj1 (proj2 (swap_transfer polls 5 4096 sw eq_refl)) rw sw').
  apply surjective_pairing.
Defined.

(** C9 at a request for device 1: before initialization (both flags
    unset) it is refused, after ideinit it passes the gate. *)
Lemma iderw_presence_gate_witness :
  let boot := with_havedisk2 0 (with_havedisk1 0 (machine None ready_hw)) in
  let s := snd (ideinit polls boot) in
  (exists msg,
     iderw_begin fssize bsize b_busy b_valid b_dirty polls 1%nat boot
     = (Panic msg, boot) /\
     (Z.land (flags buf_w) b_busy <> 0 ->
      Z.land (flags buf_w) (Z.lor b_valid b_dirty) <> b_valid ->
      msg = "iderw: ide disk 1 not present")) /\
  (forall r s',
     iderw_begin fssize bsize b_busy b_valid b_dirty polls 1%nat s = (r, s') ->
     r <> Panic "iderw: ide disk 1 not present") /\
  (havedisk1 s <> 0 /\ havedisk2 s <> 0).
Proof.
  intros boot s.
  assert (Hb : bufs s !! 1%nat = Some buf_w) by (vm_compute; reflexivity).
  assert (Ei : ideinit polls boot = (Ok tt, s)).
  { unfold s. apply pair_eq. vm_compute. reflexivity. }
  split; [|split].
  - apply (proj1 (iderw_presence_gate fssize bsize b_busy b_valid b_dirty polls 1%nat
                    buf_w boot eq_refl)).
    + vm_compute. discriminate.
    + reflexivity.
  - apply (proj1 (proj2 (iderw_presence_gate fssize bsize b_busy b_valid b_dirty polls
                           1%nat buf_w s Hb))).
    right. vm_compute. discriminate.
  - apply (proj2 (proj2 (iderw_presence_gate fssize bsize b_busy b_valid b_dirty polls
                           1%nat buf_w s Hb)) boot s [] Ei).
    reflexivity.
Defined.

(** C10 at a request whose device id is changed from 1 to 0. *)
Lemma idestart_primary_channel_witness :
  let s := machine None ready_hw in
  let s' := snd (idestart fssize bsize b_dirty polls (Some 1%nat) s) in
  exists s2',
    idestart fssize bsize b_dirty polls (Some 1%nat)
      (with_bufs (<[1%nat := set_dev 0 buf_w]> (bufs s)) s)
    = (Ok tt, s2') /\
    Forall2 same_but_drive_bit (trace s') (trace s2').
Proof.
  intros s s'.
  apply (proj1 (proj2 (idestart_primary_channel fssize bsize b_busy b_valid b_dirty
                         polls))
           1%nat buf_w 0 s (Ok tt) s' eq_refl).
  unfold s'. apply pair_eq. vm_compute. reflexivity.
Defined.

(** C10 as stated fails at its last clause: the swap calls are not the
    only code that touches the secondary channel.  The presence probe of
    ideinit polls its status register (0x177) and writes its drive/head
    register (0x176). *)
Lemma ideinit_touches_secondary :
  trace (snd (ideinit polls (machine None ready_hw)))
  = [EvInb 0x1f7 0x40; EvOutb 0x1f6 0xf0; EvInb 0x1f7 0x40; EvInb 0x177 0x40;
     EvOutb 0x176 0xe0; EvInb 0x177 0x40; EvOutb 0x1f6 0xe0] /\
  secondary_port 0x176 = true /\
  ~ (forall s r s',
       ideinit polls s = (r, s') ->
       touches (fun p => negb (secondary_port p)) s s').
Proof.
  split; [vm_compute; reflexivity|]. split; [reflexivity|].
  intros H.
  destruct (H (machine None ready_hw) _ _ (surjective_pairing _)) as (new & Et & Hn).
  vm_compute in Et. subst new. unfold on_ports in Hn.
  rewrite Forall_forall in Hn.
  specialize (Hn (EvOutb 0x176 0xe0)). cbv beta iota delta [event_port] in Hn.
  assert (Hin : EvOutb 0x176 0xe0
                ∈ [EvInb 503 64; EvOutb 502 240; EvInb 503 64; EvInb 375 64;
                   EvOutb 374 224; EvInb 375 64; EvOutb 502 224]).
  { repeat first [ apply list_elem_of_here | apply list_elem_of_further ]. }
  specialize (Hn Hin). vm_compute in Hn. discriminate.
Qed.

(** ** The further properties at the sample machines *)

(** The sample machine after a run from idle has a well-formed queue. *)
Lemma sample_run_inv ops :
  fresh_run fssize bsize b_busy b_valid b_dirty polls ops (machine None ready_hw) ->
  fst (run fssize bsize b_busy b_valid b_dirty polls ops (machine None ready_hw))
  = Ok tt ->
  queue_inv (snd (run fssize bsize b_busy b_valid b_dirty polls ops
                    (machine None ready_hw))).
Proof.
  intros Hfr Hr.
  apply (proj2 (run_inv fssize bsize b_busy b_valid b_dirty polls ops
                  (machine None ready_hw) (Ok tt) _ (idle_machine_inv ready_hw) Hfr
                  (pair_eq _ _ Hr))).
  reflexivity.
Defined.

Lemma one_queued_inv :
  queue_inv (snd (run fssize bsize b_busy b_valid b_dirty polls [OpIderw 1%nat]
                    (machine None ready_hw))).
Proof.
  apply sample_run_inv; [|vm_compute; reflexivity].
  vm_compute. repeat split. intros H. inversion H.
Defined.

Lemma two_queued_inv :
  queue_inv (snd (run fssize bsize b_busy b_valid b_dirty polls
                    [OpIderw 1%nat; OpIderw 2%nat] (machine None ready_hw))).
Proof.
  apply sample_run_inv; [|vm_compute; reflexivity].
  vm_compute.
  repeat split; intros H;
    repeat (inversion_clear H as [|? ? ? H']; rename H' into H).
Defined.

(** X1 at a controller that is busy for two reads and then shows an
    error, and at one that stays busy. *)
Lemma idewait_first_ready_witness :
  idewait polls IO_BASE1 1 (machine None (slow_hw 2 0x41))
  = (Ok (-1), after_polls 0x177 [0x80; 0x80; 0x41] (machine None (slow_hw 2 0x41))) /\
  idewait polls IO_BASE1 1 (machine None stuck_hw)
  = (Spin, after_polls 0x177 [0x80; 0x80; 0x80; 0x80] (machine None stuck_hw)).
Proof.
  split.
  - apply (proj1 (idewait_first_ready polls IO_BASE1 1
                    (machine None (slow_hw 2 0x41))) 2%nat).
    + unfold polls. lia.
    + intros i Hi. destruct i as [|[|i]]; [vm_compute; discriminate..|lia].
    + reflexivity.
  - apply (proj2 (idewait_first_ready polls IO_BASE1 1 (machine None stuck_hw))).
    intros i Hi. vm_compute. discriminate.
Defined.

(** X2 with nothing attached to the primary channel. *)
Lemma ideinit_outcomes_witness :
  let boot := with_havedisk2 0 (with_havedisk1 0 (machine None absent_hw)) in
  let r := fst (ideinit polls boot) in
  let s' := snd (ideinit polls boot) in
  r = Panic "ide disk 1 not present" /\
  (responsive polls (hw_in boot) 0x1f7 -> responsive polls (hw_in boot) 0x177 ->
   r <> Spin) /\
  idequeue s' = idequeue boot /\ bufs s' = bufs boot /\ ram s' = ram boot /\
  exists vs1,
    let sel1 := map (EvInb 0x1f7) vs1 ++ [EvOutb 0x1f6 0xf0] in
    (r = Spin /\ trace s' = trace boot ++ map (EvInb 0x1f7) vs1) \/
    (r = Panic "ide disk 1 not present" /\ havedisk1 s' = 0 /\
     trace s' = trace boot ++ sel1 ++ map (EvInb 0x1f7) (repeat 0 1000)) \/
    exists z1 v1 vs2,
      (z1 < 1000)%nat /\ v1 <> 0 /\ havedisk1 s' = 1 /\
      let found1 := sel1 ++ map (EvInb 0x1f7) (repeat 0 z1 ++ [v1]) in
      let sel2 := map (EvInb 0x177) vs2 ++ [EvOutb 0x176 0xe0] in
      (r = Spin /\ trace s' = trace boot ++ found1 ++ map (EvInb 0x177) vs2) \/
      (r = Panic "ide disk 2(swap disk) not present" /\ havedisk2 s' = 0 /\
       trace s' = trace boot ++ found1 ++ sel2
                    ++ map (EvInb 0x177) (repeat 0 1000)) \/
      exists z2 v2,
        (z2 < 1000)%nat /\ v2 <> 0 /\
        r = Ok tt /\ havedisk2 s' = 1 /\ idelock s' = false /\
        trace s' = trace boot ++ found1 ++ sel2
                     ++ map (EvInb 0x177) (repeat 0 z2 ++ [v2])
                     ++ [EvOutb 0x1f6 0xe0].
Proof.
  intros boot r s'. split; [vm_compute; reflexivity|].
  apply (ideinit_outcomes polls boot r s' eq_refl eq_refl).
  apply surjective_pairing.
Defined.

(** X3 at block 999 of a file system of 1000 blocks of one sector. *)
Lemma idestart_lba_witness :
  let s := machine None ready_hw in
  let s' := snd (idestart fssize bsize b_dirty polls (Some 1%nat) s) in
  exists new, trace s' = trace s ++ new /\
    forall rf,
      let rf' := regfile new rf in
      lba28 IO_BASE0 rf' = (blockno buf_w * (bsize / SECTSIZE)) mod 2 ^ 28 /\
      rf' (IO_BASE0 + ATA_SECCNT) = bsize / SECTSIZE /\
      rf' (IO_CTRL0 + ATA_CTRL) = 0 /\
      Z.land (rf' (IO_BASE0 + ATA_SDH)) 0xe0 = 0xe0 /\
      Z.testbit (rf' (IO_BASE0 + ATA_SDH)) 4 = Z.odd (dev buf_w) /\
      (0 <= blockno buf_w -> fssize * (bsize / SECTSIZE) <= 2 ^ 28 ->
       lba28 IO_BASE0 rf' = blockno buf_w * (bsize / SECTSIZE)).
Proof.
  intros s s'.
  apply (idestart_lba fssize bsize b_dirty polls 1%nat buf_w s s'
           sample_geometry eq_refl).
  unfold s'. apply pair_eq. vm_compute. reflexivity.
Defined.

(** X4 at blocks 999 and 7. *)
Lemma blocks_do_not_overlap_witness :
  let s := machine None ready_hw in
  let s1' := snd (idestart fssize bsize b_dirty polls (Some 1%nat) s) in
  let s2' := snd (idestart fssize bsize b_dirty polls (Some 2%nat) s) in
  exists new1 new2,
    trace s1' = trace s ++ new1 /\ trace s2' = trace s ++ new2 /\
    forall rf1 rf2,
      let first1 := lba28 IO_BASE0 (regfile new1 rf1) in
      let count1 := regfile new1 rf1 (IO_BASE0 + ATA_SECCNT) in
      let first2 := lba28 IO_BASE0 (regfile new2 rf2) in
      let count2 := regfile new2 rf2 (IO_BASE0 + ATA_SECCNT) in
      first1 + count1 <= first2 \/ first2 + count2 <= first1.
Proof.
  intros s s1' s2'.
  apply (blocks_do_not_overlap fssize bsize b_dirty polls
           1%nat buf_w s s1' 2%nat buf_r s s2' sample_geometry).
  - vm_compute. discriminate.
  - reflexivity.
  - reflexivity.
  - vm_compute. discriminate.
  - vm_compute. discriminate.
  - vm_compute. discriminate.
  - unfold s1'. apply pair_eq. vm_compute. reflexivity.
  - unfold s2'. apply pair_eq. vm_compute. reflexivity.
Defined.

(** X5 at a swap read of sector 5. *)
Lemma swap_lba_witness :
  let s := machine None ready_hw in
  let s' := snd (read_swap polls 5 4096 s) in
  exists new, trace s' = trace s ++ new /\
    forall rf,
      let rf' := regfile new rf in
      lba28 IO_BASE1 rf' = 5 mod 2 ^ 28 /\
      rf' (IO_BASE1 + ATA_SECCNT) = 8 /\
      rf' (IO_CTRL1 + ATA_CTRL) = 0 /\
      Z.land (rf' (IO_BASE1 + ATA_SDH)) 0xe0 = 0xe0 /\
      Z.testbit (rf' (IO_BASE1 + ATA_SDH)) 4 = false /\
      rf' (IO_BASE1 + ATA_COMMAND) = ATA_CMD_READ.
Proof.
  intros s s'.
  apply (proj1 (swap_lba polls 5 4096 s 0 s')).
  unfold s'. apply pair_eq. vm_compute. reflexivity.
Defined.

(** X6 at a page swapped in from sector 5 and out to sector 9. *)
Lemma swap_round_trip_witness :
  let s := machine None ready_hw in
  let s1 := snd (read_swap polls 5 4096 s) in
  let s3 := snd (write_swap polls 9 4096 s1) in
  exists wss new1 new2,
    length (concat wss) = 1024%nat /\
    trace s1 = trace s ++ new1 /\ trace s3 = trace s1 ++ new2 /\
    data_events new1 = swap_regs 5 ATA_CMD_READ ++ map (EvInsl 0x170) wss /\
    data_events new2 = swap_regs 9 ATA_CMD_WRITE ++ map (EvOutsl 0x170) wss.
Proof.
  intros s s1 s3.
  assert (E1 : read_swap polls 5 4096 s = (Ok 0, s1)).
  { unfold s1. apply pair_eq. vm_compute. reflexivity. }
  assert (E3 : write_swap polls 9 4096 s1 = (Ok 0, s3)).
  { unfold s3, s1. apply pair_eq. vm_compute. reflexivity. }
  exact (swap_round_trip polls 5 9 4096 s s1 s1 s3 E1 (fun x _ => eq_refl) E3).
Defined.

(** X7 at request 1 on the idle sample machine. *)
Lemma iderw_links_only_witness :
  let s := machine None ready_hw in
  let s' := snd (iderw_begin fssize bsize b_busy b_valid b_dirty polls 1%nat s) in
  (forall a : addr, payload <$> bufs s' !! a = payload <$> bufs s !! a) /\
  ram s' = ram s.
Proof.
  intros s s'.
  apply (iderw_links_only fssize bsize b_busy b_valid b_dirty polls 1%nat s
           (fst (iderw_begin fssize bsize b_busy b_valid b_dirty polls 1%nat s)) s').
  left. apply surjective_pairing.
Defined.

(** X8 at a write of request 1 that is called while the read of
    request 2 is in flight, and that takes the lock after the interrupt
    for request 2 and a swap read. *)
Lemma iderw_always_sleeps_witness :
  let s := snd (run fssize bsize b_busy b_valid b_dirty polls [OpIderw 2%nat]
                  (machine None ready_hw)) in
  let ops := [OpIntr; OpReadSwap 5 4096] in
  let s1 := snd (run fssize bsize b_busy b_valid b_dirty polls ops s) in
  let s' := snd (iderw_enter fssize bsize b_valid b_dirty polls 1%nat s1) in
  queued s = [2%nat] /\
  last (trace s') = Some (EvSleep 1%nat) /\ idelock s' = false /\
  (1%nat ∉ queued s1) /\
  iderw_begin fssize bsize b_busy b_valid b_dirty polls 1%nat s1 = (Ok false, s').
Proof.
  intros s ops s1 s'. split; [vm_compute; reflexivity|].
  assert (Hinv : queue_inv s).
  { apply sample_run_inv; [|vm_compute; reflexivity].
    vm_compute. repeat split. intros H. inversion H. }
  assert (Hq : queued s = [2%nat]) by (vm_compute; reflexivity).
  refine (proj2 (iderw_always_sleeps fssize bsize b_busy b_valid b_dirty polls
                   1%nat ops s s s1 false s' Hinv _ _ _ _ _ _)).
  - rewrite Hq. apply not_elem_of_cons. split; [lia | apply not_elem_of_nil].
  - vm_compute. auto.
  - apply not_elem_of_nil.
  - vm_compute. reflexivity.
  - unfold s1. apply pair_eq. vm_compute. reflexivity.
  - unfold s'. apply pair_eq. vm_compute. reflexivity.
Defined.

(** X9 at a swap read whose first sector shows an error: it returns -1
    with the lock free. *)
Lemma lock_discipline_witness :
  let s := machine None (failing_hw 0) in
  let o := OpReadSwap 5 4096 in
  let r := fst (step fssize bsize b_busy b_valid b_dirty polls o s) in
  let s' := snd (step fssize bsize b_busy b_valid b_dirty polls o s) in
  fst (read_swap polls 5 4096 s) = Ok (-1) /\
  (r = Ok tt -> idelock s' = false) /\
  (idelock s = true -> r <> Ok tt /\ s' = s).
Proof.
  intros s o r s'. split; [vm_compute; reflexivity|].
  apply (lock_discipline fssize bsize b_busy b_valid b_dirty polls o s r s').
  apply surjective_pairing.
Defined.

(** X10 at a block out of range: no register is written. *)
Lemma idestart_all_or_nothing_witness :
  let s := machine None ready_hw in
  let r := fst (idestart fssize bsize b_dirty polls (Some 5%nat) s) in
  let s' := snd (idestart fssize bsize b_dirty polls (Some 5%nat) s) in
  r = Panic "incorrect blockno" /\
  exists new, trace s' = trace s ++ new /\
    (r <> Ok tt ->
     List.filter port_write new = [] /\ forall rf, regfile new rf = rf) /\
    (r = Ok tt ->
     exists a bf, Some 5%nat = Some a /\ bufs s !! a = Some bf /\
       List.filter port_write new
       = start_regs bsize bf ++ start_cmd bsize b_dirty bf (ram s)).
Proof.
  intros s r s'. split; [vm_compute; reflexivity|].
  apply (idestart_all_or_nothing fssize bsize b_dirty polls (Some 5%nat) s r s').
  apply surjective_pairing.
Defined.

(** X11 at the interrupt that completes the read of request 2. *)
Lemma ideintr_frame_witness :
  let s := machine (Some 2%nat) ready_hw in
  let s' := snd (ideintr fssize bsize b_valid b_dirty polls s) in
  idequeue s' = qnext buf_r /\
  bufs s' !! 2%nat
  = Some (mkbuf (completed b_valid b_dirty (flags buf_r)) (dev buf_r)
                (blockno buf_r) (qnext buf_r) (data buf_r)) /\
  (forall x : addr, x <> 2%nat -> bufs s' !! x = bufs s !! x) /\
  (forall x, x < data buf_r \/ data buf_r + bsize <= x -> ram s' x = ram s x) /\
  havedisk1 s' = havedisk1 s /\ havedisk2 s' = havedisk2 s.
Proof.
  intros s s'.
  apply (ideintr_frame fssize bsize b_valid b_dirty polls 2%nat buf_r s s'
           sample_geometry eq_refl eq_refl eq_refl).
  unfold s'. apply pair_eq. vm_compute. reflexivity.
Defined.

(** X12 at request 2, submitted while request 1 is in flight. *)
Lemma iderw_behind_queue_witness :
  let s := snd (run fssize bsize b_busy b_valid b_dirty polls [OpIderw 1%nat]
                  (machine None ready_hw)) in
  exists s',
    iderw_begin fssize bsize b_busy b_valid b_dirty polls 2%nat s = (Ok false, s') /\
    trace s' = trace s ++ [EvSleep 2%nat] /\
    idelock s' = false /\
    head (queued s') = head (queued s) /\
    queued s' = queued s ++ [2%nat].
Proof.
  intros s.
  assert (Hq : queued s = [1%nat]) by (vm_compute; reflexivity).
  apply (iderw_behind_queue fssize bsize b_busy b_valid b_dirty polls 2%nat buf_r s).
  - exact one_queued_inv.
  - vm_compute. reflexivity.
  - rewrite Hq. discriminate.
  - rewrite Hq. apply not_elem_of_cons. split; [lia | apply not_elem_of_nil].
  - vm_compute. reflexivity.
  - vm_compute. discriminate.
  - vm_compute. discriminate.
  - right. vm_compute. discriminate.
Defined.

(** X13 at request 5, for block 1000 of 1000, submitted while request 1
    is in flight: accepted by iderw, refused by the next interrupt. *)
Lemma blockno_check_deferred_witness :
  let s := snd (run fssize bsize b_busy b_valid b_dirty polls [OpIderw 1%nat]
                  (machine None ready_hw)) in
  exists s1 s2 pre,
    iderw_begin fssize bsize b_busy b_valid b_dirty polls 5%nat s = (Ok false, s1) /\
    trace s1 = trace s ++ [EvSleep 5%nat] /\
    ideintr fssize bsize b_valid b_dirty polls s1
    = (Panic "incorrect blockno", s2) /\
    idelock s2 = true /\
    flags_at s2 1%nat = Some (completed b_valid b_dirty (flags buf_w)) /\
    trace s2 = trace s1 ++ pre ++ [EvWakeup 1%nat; EvStart (Some 5%nat)] /\
    Forall (fun e => quiet e = true) pre.
Proof.
  intros s.
  apply (blockno_check_deferred fssize bsize b_busy b_valid b_dirty polls
           1%nat buf_w 5%nat buf_out s sample_geometry one_queued_inv).
  - vm_compute. reflexivity.
  - vm_compute. reflexivity.
  - lia.
  - vm_compute. reflexivity.
  - vm_compute. reflexivity.
  - vm_compute. discriminate.
  - vm_compute. discriminate.
  - right. vm_compute. discriminate.
  - vm_compute. discriminate.
  - intros _. apply ready_responsive.
Defined.

(** X14 at two requests submitted and both completed, in order. *)
Lemma queue_fifo_witness :
  let s := machine None ready_hw in
  let ops := [OpIderw 1%nat; OpIderw 2%nat; OpIntr; OpResume 1%nat; OpIntr] in
  let s' := snd (run fssize bsize b_busy b_valid b_dirty polls ops s) in
  wakeups (trace s') = [1%nat; 2%nat] /\
  exists new, trace s' = trace s ++ new /\
    wakeups new ++ queued s' = queued s ++ submitted ops.
Proof.
  intros s ops s'. split; [vm_compute; reflexivity|].
  apply (queue_fifo fssize bsize b_busy b_valid b_dirty polls ops s s'
           (idle_machine_inv ready_hw)).
  - vm_compute.
    repeat split; intros H;
      repeat (inversion_clear H as [|? ? ? H']; rename H' into H).
  - unfold s'. apply pair_eq. vm_compute. reflexivity.
Defined.

(** X15 at a queue of two requests, drained by two interrupts. *)
Lemma queue_drains_witness :
  let s := snd (run fssize bsize b_busy b_valid b_dirty polls
                  [OpIderw 1%nat; OpIderw 2%nat] (machine None ready_hw)) in
  exists s' new,
    run fssize bsize b_busy b_valid b_dirty polls
      (repeat OpIntr (length (queued s))) s = (Ok tt, s') /\
    idequeue s' = None /\ idelock s' = false /\
    trace s' = trace s ++ new /\ wakeups new = queued s /\
    forall a, a ∈ queued s ->
      exists f, flags_at s' a = Some f /\
        has_flag f b_valid = true /\ has_flag f b_dirty = false.
Proof.
  intros s.
  apply (queue_drains fssize bsize b_busy b_valid b_dirty polls s
           sample_flag_bits sample_geometry two_queued_inv).
  - vm_compute. reflexivity.
  - apply ready_responsive.
  - intros n bn Hn Hb.
    assert (Hq : queued s = [1%nat; 2%nat]) by (vm_compute; reflexivity).
    rewrite Hq in Hn. cbn [tail] in Hn. apply list_elem_of_singleton in Hn. subst n.
    vm_compute in Hb. inversion Hb. reflexivity.
Defined.

(** X16 at the read of request 2 on the idle sample machine. *)
Lemma request_served_witness :
  let s := machine None ready_hw in
  exists s1 s2 s3 new,
    iderw_begin fssize bsize b_busy b_valid b_dirty polls 2%nat s = (Ok false, s1) /\
    ideintr fssize bsize b_valid b_dirty polls s1 = (Ok tt, s2) /\
    iderw_resume b_valid b_dirty 2%nat s2 = (Ok true, s3) /\
    idequeue s3 = None /\ idelock s3 = false /\
    flags_at s3 2%nat = Some (completed b_valid b_dirty (flags buf_r)) /\
    has_flag (completed b_valid b_dirty (flags buf_r)) b_valid = true /\
    has_flag (completed b_valid b_dirty (flags buf_r)) b_dirty = false /\
    trace s3 = trace s ++ new /\ starts new = [Some 2%nat] /\
    wakeups new = [2%nat].
Proof.
  intros s.
  apply (request_served fssize bsize b_busy b_valid b_dirty polls 2%nat buf_r s
           sample_flag_bits sample_geometry eq_refl eq_refl eq_refl).
  - vm_compute. discriminate.
  - vm_compute. discriminate.
  - right. vm_compute. discriminate.
  - reflexivity.
  - apply ready_responsive.
Defined.

(** X17 at request 1, submitted to a controller that stays busy. *)
Lemma busy_controller_holds_lock_witness :
  let s := machine None stuck_hw in
  exists s1 new,
    iderw_begin fssize bsize b_busy b_valid b_dirty polls 1%nat s = (Spin, s1) /\
    idelock s1 = true /\ idequeue s1 = Some 1%nat /\
    trace s1 = trace s ++ new /\ List.filter port_write new = [] /\
    forall o r s2,
      step fssize bsize b_busy b_valid b_dirty polls o s1 = (r, s2) ->
      r <> Ok tt /\ s2 = s1.
Proof.
  intros s.
  apply (busy_controller_holds_lock fssize bsize b_busy b_valid b_dirty polls
           1%nat buf_w s sample_geometry eq_refl eq_refl eq_refl).
  - vm_compute. discriminate.
  - vm_compute. discriminate.
  - right. vm_compute. discriminate.
  - reflexivity.
  - intros i Hi. vm_compute. discriminate.
Defined.

(** X18 at a read of request 2 that is completed, followed by a swap
    read: the first byte of the block image of request 2 has changed. *)
Lemma driver_footprint_witness :
  let s := machine None ready_hw in
  let ops := [OpIderw 2%nat; OpIntr; OpReadSwap 5 4096] in
  let s' := snd (run fssize bsize b_busy b_valid b_dirty polls ops s) in
  ram s' 8192 <> ram s 8192 /\
  (forall (a : addr) bf, bufs s !! a = Some bf ->
     exists bf', bufs s' !! a = Some bf' /\
       (flags bf' = flags bf \/
        flags bf' = Z.land (Z.lor (flags bf) b_valid) (Z.lnot b_dirty)) /\
       dev bf' = dev bf /\ blockno bf' = blockno bf) /\
  exists new, trace s' = trace s ++ new /\
    forall x, ram s' x <> ram s x ->
      (exists (a : addr) bf, a ∈ wakeups new /\ bufs s !! a = Some bf /\
         data bf <= x < data bf + bsize) \/
      (exists secno dst, OpReadSwap secno dst ∈ ops /\
         dst <= x < dst + 8 * SECTSIZE).
Proof.
  intros s ops s'. split; [vm_compute; discriminate|].
  apply (driver_footprint fssize bsize b_busy b_valid b_dirty polls
           ops s (fst (run fssize bsize b_busy b_valid b_dirty polls ops s)) s'
           sample_geometry (surjective_pairing _)).
Defined.
